(** * Shared-worker market data broker: model and verified properties

    A shallow embedding of the shared worker [src/market-worker.js] (module
    [MarketWorker]) and of its earlier revision (module [EarlierWorker]), in
    which the subscriber map stores bare timestamps, [broadcast] catches
    delivery errors and [ws.onclose] always reconnects.

    The worker is single-threaded JavaScript: every handler runs to
    completion on the module-level variables.  Handlers are modelled in a
    state-and-exception monad [Js] over a [World] that holds the module
    variables next to the part of the host they act on: the clock, the
    scheduled timers, the sockets constructed, the messages posted to each
    port, and the ports on which [postMessage] throws.  Messages from the
    upstream are taken as parsed ([JSON.parse] succeeded).

    Layout: the maps and the world; the two workers, function by function;
    the vocabulary of the statements; then the properties: the invariant of
    the reachable worlds, the coalescer, attaching, subscriber messages, the
    upstream connection, cleanup, delivery failure, liveness.

    Also modelled: the first variant of the worker, whose [ports] is an array
    (module [FirstWorker]), and the batching of the grid component that
    consumes the worker's messages (module [App]).  The second half of the
    properties covers the heartbeat loops, the registry, the timers in use,
    the cached snapshot, the reconnect cycle, how the handlers complete, the
    two older variants and the component. *)

From Stdlib Require Import String ZArith QArith Lia Bool Arith PeanoNat List Permutation.
From Stdlib Require DecimalString.
Import ListNotations.

Local Open Scope Z_scope.
Local Open Scope list_scope.

(** ** JavaScript [Map]: an insertion-ordered association list

    A [Map] iterates in insertion order, [set] on a present key keeps the
    key's position and replaces the value, [set] on a fresh key appends.  The
    order is observable (order of a batch, order of deliveries), which is why
    this is a list and not an extensional finite map. *)
Module JsMap.
Section Ops.
Context {K V : Type}.
Variable eqb : K -> K -> bool.

Fixpoint get (k : K) (m : list (K * V)) : option V :=
  match m with
  | [] => None
  | (k', v) :: r => if eqb k k' then Some v else get k r
  end.

Definition has (k : K) (m : list (K * V)) : bool :=
  match get k m with Some _ => true | None => false end.

Fixpoint set (k : K) (v : V) (m : list (K * V)) : list (K * V) :=
  match m with
  | [] => [(k, v)]
  | (k', v') :: r => if eqb k k' then (k, v) :: r else (k', v') :: set k v r
  end.

Fixpoint delete (k : K) (m : list (K * V)) : list (K * V) :=
  match m with
  | [] => []
  | (k', v') :: r => if eqb k k' then r else (k', v') :: delete k r
  end.

Definition keys (m : list (K * V)) : list K := map fst m.
Definition values (m : list (K * V)) : list V := map snd m.
Definition size (m : list (K * V)) : nat := length m.
End Ops.
End JsMap.

(** ** Data *)

(** A port is a [MessagePort] object, compared by identity. *)
Definition Port := nat.
(** Handles returned by [setTimeout]/[setInterval]: integers greater than
    zero, so a handle is always truthy. *)
Definition TimerId := positive.
(** A [WebSocket] object, named by its index in the list of sockets
    constructed so far. *)
Definition SocketId := nat.

(** One row of market data: the worker reads [symbol] only. *)
Record Row := { symbol : string; fields : list (string * Z) }.

(** Messages that travel to the subscribers: those parsed from the upstream
    ([initial], [update], anything else) and those the worker makes. *)
Inductive Message :=
| MInitial (data : list Row)
| MUpdate (data : list Row) (timestamp : Z)
| MConnected
| MDisconnected
| MPing
| MPong
| MFrequencyChanged (frequency : Z)
| MBatchSizeChanged (min max : Z)
| MOther (type : string).

(** [event.data] of a message received from a subscriber. *)
Inductive PortMsg :=
| Pong
| Ping
| Disconnect
| SetFrequency (frequency : Z)
| SetBatchSize (min max : Z)
| Unknown (type : string).

(** What [ws.send] writes to the upstream. *)
Inductive Command :=
| CSetFrequency (frequency : Z)
| CSetBatchSize (min max : Z).

Inductive ReadyState := CONNECTING | OPEN | CLOSING | CLOSED.

Record Socket := { readyState : ReadyState; sent : list Command }.

(** The three callbacks the worker hands to the timer API. *)
Inductive Callback := FlushBatch | Reconnect | Heartbeat.

Record Timer := {
  timer_id : TimerId;
  callback : Callback;
  delay : Q;            (* milliseconds *)
  repeating : bool;     (* setInterval *)
  set_at : Z            (* clock value when it was scheduled *)
}.

(** [{ id, lastPong }] *)
Record PortInfo := { id : nat; lastPong : Z }.

(** The module-level variables of the worker and the host state its calls
    act on.  [I] is what the [ports] map stores for a port. *)
Record World (I : Type) := mkWorld {
  ws : option SocketId;
  ports : list (Port * I);
  reconnectTimeout : option TimerId;
  lastInitialData : option Message;
  nextPortId : nat;
  heartbeatInterval : option TimerId;
  pendingUpdates : list (string * Row);
  batchTimer : option TimerId;
  (* host *)
  clock : Z;                       (* Date.now() *)
  timers : list Timer;             (* callbacks still scheduled *)
  nextTimerId : TimerId;
  sockets : list Socket;           (* every WebSocket constructed so far *)
  outbox : list (Port * Message);  (* completed postMessage calls, in order *)
  broken : list Port               (* ports whose postMessage throws *)
}.

Arguments mkWorld {I}.
Arguments ws {I}. Arguments ports {I}. Arguments reconnectTimeout {I}.
Arguments lastInitialData {I}. Arguments nextPortId {I}.
Arguments heartbeatInterval {I}. Arguments pendingUpdates {I}.
Arguments batchTimer {I}. Arguments clock {I}. Arguments timers {I}.
Arguments nextTimerId {I}. Arguments sockets {I}. Arguments outbox {I}.
Arguments broken {I}.

Section Setters.
Context {I : Type}.
Implicit Type w : World I.

Definition set_ws x w :=
  @mkWorld I x (ports w) (reconnectTimeout w) (lastInitialData w) (nextPortId w)
    (heartbeatInterval w) (pendingUpdates w) (batchTimer w) (clock w) (timers w)
    (nextTimerId w) (sockets w) (outbox w) (broken w).
Definition set_ports x w :=
  @mkWorld I (ws w) x (reconnectTimeout w) (lastInitialData w) (nextPortId w)
    (heartbeatInterval w) (pendingUpdates w) (batchTimer w) (clock w) (timers w)
    (nextTimerId w) (sockets w) (outbox w) (broken w).
Definition set_reconnectTimeout x w :=
  @mkWorld I (ws w) (ports w) x (lastInitialData w) (nextPortId w)
    (heartbeatInterval w) (pendingUpdates w) (batchTimer w) (clock w) (timers w)
    (nextTimerId w) (sockets w) (outbox w) (broken w).
Definition set_lastInitialData x w :=
  @mkWorld I (ws w) (ports w) (reconnectTimeout w) x (nextPortId w)
    (heartbeatInterval w) (pendingUpdates w) (batchTimer w) (clock w) (timers w)
    (nextTimerId w) (sockets w) (outbox w) (broken w).
Definition set_nextPortId x w :=
  @mkWorld I (ws w) (ports w) (reconnectTimeout w) (lastInitialData w) x
    (heartbeatInterval w) (pendingUpdates w) (batchTimer w) (clock w) (timers w)
    (nextTimerId w) (sockets w) (outbox w) (broken w).
Definition set_heartbeatInterval x w :=
  @mkWorld I (ws w) (ports w) (reconnectTimeout w) (lastInitialData w) (nextPortId w)
    x (pendingUpdates w) (batchTimer w) (clock w) (timers w)
    (nextTimerId w) (sockets w) (outbox w) (broken w).
Definition set_pendingUpdates x w :=
  @mkWorld I (ws w) (ports w) (reconnectTimeout w) (lastInitialData w) (nextPortId w)
    (heartbeatInterval w) x (batchTimer w) (clock w) (timers w)
    (nextTimerId w) (sockets w) (outbox w) (broken w).
Definition set_batchTimer x w :=
  @mkWorld I (ws w) (ports w) (reconnectTimeout w) (lastInitialData w) (nextPortId w)
    (heartbeatInterval w) (pendingUpdates w) x (clock w) (timers w)
    (nextTimerId w) (sockets w) (outbox w) (broken w).
Definition set_clock x w :=
  @mkWorld I (ws w) (ports w) (reconnectTimeout w) (lastInitialData w) (nextPortId w)
    (heartbeatInterval w) (pendingUpdates w) (batchTimer w) x (timers w)
    (nextTimerId w) (sockets w) (outbox w) (broken w).
Definition set_timers x w :=
  @mkWorld I (ws w) (ports w) (reconnectTimeout w) (lastInitialData w) (nextPortId w)
    (heartbeatInterval w) (pendingUpdates w) (batchTimer w) (clock w) x
    (nextTimerId w) (sockets w) (outbox w) (broken w).
Definition set_nextTimerId x w :=
  @mkWorld I (ws w) (ports w) (reconnectTimeout w) (lastInitialData w) (nextPortId w)
    (heartbeatInterval w) (pendingUpdates w) (batchTimer w) (clock w) (timers w)
    x (sockets w) (outbox w) (broken w).
Definition set_sockets x w :=
  @mkWorld I (ws w) (ports w) (reconnectTimeout w) (lastInitialData w) (nextPortId w)
    (heartbeatInterval w) (pendingUpdates w) (batchTimer w) (clock w) (timers w)
    (nextTimerId w) x (outbox w) (broken w).
Definition set_outbox x w :=
  @mkWorld I (ws w) (ports w) (reconnectTimeout w) (lastInitialData w) (nextPortId w)
    (heartbeatInterval w) (pendingUpdates w) (batchTimer w) (clock w) (timers w)
    (nextTimerId w) (sockets w) x (broken w).
End Setters.

(** The worker as loaded: every variable at its initialiser, nothing
    scheduled, no socket constructed.  [bad] lists the ports on which
    [postMessage] throws. *)
Definition initial {I : Type} (bad : list Port) : World I :=
  mkWorld None [] None None 1%nat None [] None 0 [] 1%positive [] [] bad.

(** ** Handlers as computations

    A JavaScript exception leaves every assignment made before it in place,
    so a computation returns the world together with how it completed. *)
Inductive Completion (A : Type) := Normal (a : A) | Thrown.
Arguments Normal {A}. Arguments Thrown {A}.

Definition Js (I A : Type) := World I -> Completion A * World I.

Section Monad.
Context {I : Type}.

Definition ret {A} (a : A) : Js I A := fun w => (Normal a, w).

Definition bind {A B} (c : Js I A) (k : A -> Js I B) : Js I B :=
  fun w => match c w with
           | (Normal a, w') => k a w'
           | (Thrown, w') => (Thrown, w')
           end.

(** [try { c } catch (e) { h }] *)
Definition try_catch (c h : Js I unit) : Js I unit :=
  fun w => match c w with
           | (Normal a, w') => (Normal a, w')
           | (Thrown, w') => h w'
           end.

Definition read {A} (f : World I -> A) : Js I A := fun w => (Normal (f w), w).
Definition write (f : World I -> World I) : Js I unit := fun w => (Normal tt, f w).

(** [xs.forEach(body)] over an array: the first exception ends the loop. *)
Fixpoint for_each {X} (xs : list X) (body : X -> Js I unit) : Js I unit :=
  match xs with
  | [] => ret tt
  | x :: r => bind (body x) (fun _ => for_each r body)
  end.

(** [for (const [port, info] of ports.entries()) body]: a [Map] iterator is
    live, an entry deleted before the iterator reaches it is not visited.
    No loop of the worker adds a port, so the keys to try are the keys at
    the start, each looked up again when its turn comes. *)
Definition for_of_ports (body : Port -> I -> Js I unit) : Js I unit :=
  bind (read (fun w => JsMap.keys (ports w))) (fun ks =>
  for_each ks (fun p =>
    bind (read (fun w => JsMap.get Nat.eqb p (ports w))) (fun e =>
    match e with
    | Some info => body p info
    | None => ret tt
    end))).
End Monad.

(** [c] keeps [P], however it completes. *)
Definition preserves {I A} (P : World I -> Prop) (c : Js I A) : Prop :=
  forall w, P w -> P (snd (c w)).

Declare Scope js_scope.
Delimit Scope js_scope with js.
Notation "x <- c ;; k" := (bind c (fun x => k))
  (at level 61, c at next level, right associativity) : js_scope.
Notation "c ;; k" := (bind c (fun _ => k))
  (at level 61, right associativity) : js_scope.

(** ** Host operations *)
Section Host.
Context {I : Type}.
Local Open Scope js_scope.

(** [Date.now()] *)
Definition Date_now : Js I Z := read clock.

(** Whether [p.postMessage] throws. *)
Definition throws (p : Port) (w : World I) : bool := existsb (Nat.eqb p) (broken w).

(** [port.postMessage(message)] *)
Definition postMessage (p : Port) (m : Message) : Js I unit :=
  fun w => if throws p w then (Thrown, w)
           else (Normal tt, set_outbox (outbox w ++ [(p, m)]) w).

Definition schedule (cb : Callback) (d : Q) (rep : bool) : Js I TimerId :=
  fun w =>
    let t := nextTimerId w in
    (Normal t,
     set_nextTimerId (Pos.succ t)
       (set_timers (timers w ++ [Build_Timer t cb d rep (clock w)]) w)).

Definition setTimeout (cb : Callback) (d : Q) : Js I TimerId := schedule cb d false.
Definition setInterval (cb : Callback) (d : Q) : Js I TimerId := schedule cb d true.

Definition unschedule (t : TimerId) (l : list Timer) : list Timer :=
  filter (fun x => negb (Pos.eqb (timer_id x) t)) l.

(** [clearTimeout(t)] and [clearInterval(t)] *)
Definition clearTimeout (t : TimerId) : Js I unit :=
  write (fun w => set_timers (unschedule t (timers w)) w).
Definition clearInterval (t : TimerId) : Js I unit := clearTimeout t.

(** [new WebSocket(url)] *)
Definition new_WebSocket : Js I SocketId :=
  fun w => (Normal (length (sockets w)),
            set_sockets (sockets w ++ [Build_Socket CONNECTING []]) w).

Fixpoint update_nth {A} (n : nat) (f : A -> A) (l : list A) : list A :=
  match l, n with
  | [], _ => []
  | a :: r, O => f a :: r
  | a :: r, S n' => a :: update_nth n' f r
  end.

Definition socket_state (s : SocketId) (w : World I) : option ReadyState :=
  option_map readyState (nth_error (sockets w) s).

(** [s.readyState === WebSocket.OPEN] *)
Definition is_open (s : SocketId) (w : World I) : bool :=
  match socket_state s w with Some OPEN => true | _ => false end.

(** [s.close()]: starts the closing handshake unless already closing or
    closed; the close event comes later. *)
Definition socket_close (s : SocketId) : Js I unit :=
  write (fun w => set_sockets
    (update_nth s (fun k => match readyState k with
                            | CONNECTING | OPEN => Build_Socket CLOSING (sent k)
                            | _ => k
                            end) (sockets w)) w).

(** [s.send(JSON.stringify(c))]: throws while the socket is connecting,
    is discarded once it is closing or closed. *)
Definition socket_send (s : SocketId) (c : Command) : Js I unit :=
  fun w => match socket_state s w with
           | Some CONNECTING | None => (Thrown, w)
           | Some OPEN =>
               (Normal tt,
                set_sockets (update_nth s (fun k => Build_Socket (readyState k) (sent k ++ [c]))
                               (sockets w)) w)
           | Some _ => (Normal tt, w)
           end.

(** The state a socket moves to when the host fires [open] or [close]. *)
Definition socket_becomes (s : SocketId) (r : ReadyState) (w : World I) : World I :=
  set_sockets (update_nth s (fun k => Build_Socket r (sent k)) (sockets w)) w.
End Host.

(** ** [src/market-worker.js] *)
Module MarketWorker.
Local Open Scope js_scope.

Definition W := World PortInfo.
Definition M := Js PortInfo.

(** [const BATCH_INTERVAL = 1000 / 60] *)
Definition BATCH_INTERVAL : Q := 1000 # 60.
Definition HEARTBEAT_TIMEOUT : Z := 30000.

(** [function broadcast(message)]: no [try] around [postMessage]. *)
Definition broadcast (message : Message) : M unit :=
  for_of_ports (fun port _ => postMessage port message).

(** [function flushBatch()] *)
Definition flushBatch : M unit :=
  pending <- read pendingUpdates ;;
  if (JsMap.size pending =? 0)%nat then ret tt
  else
    let batchedData := JsMap.values pending in
    now <- Date_now ;;
    broadcast (MUpdate batchedData now) ;;
    write (set_pendingUpdates []) ;;
    write (set_batchTimer None).

(** [function scheduleBatch()] *)
Definition scheduleBatch : M unit :=
  bt <- read batchTimer ;;
  match bt with
  | Some _ => ret tt
  | None =>
      t <- setTimeout FlushBatch BATCH_INTERVAL ;;
      write (set_batchTimer (Some t))
  end.

(** [function connect()]: the three handlers it installs are
    [ws_onopen], [ws_onmessage] and [ws_onclose] below. *)
Definition connect : M unit :=
  s <- new_WebSocket ;;
  write (set_ws (Some s)).

Definition ws_onopen : M unit := broadcast MConnected.

Definition ws_onmessage (message : Message) : M unit :=
  match message with
  | MInitial _ =>
      write (set_lastInitialData (Some message)) ;;
      broadcast message
  | MUpdate data _ =>
      for_each data (fun row =>
        write (fun w => set_pendingUpdates
                 (JsMap.set String.eqb (symbol row) row (pendingUpdates w)) w)) ;;
      scheduleBatch
  | _ => broadcast message
  end.

Definition ws_onclose : M unit :=
  broadcast MDisconnected ;;
  bt <- read batchTimer ;;
  match bt with
  | Some t => clearTimeout t ;; flushBatch
  | None => ret tt
  end ;;
  ps <- read ports ;;
  if (0 <? JsMap.size ps)%nat then
    t <- setTimeout Reconnect 2000 ;;
    write (set_reconnectTimeout (Some t))
  else
    write (set_ws None).

(** [function checkCleanup()] *)
Definition checkCleanup : M unit :=
  ps <- read ports ;;
  if (JsMap.size ps =? 0)%nat then
    rt <- read reconnectTimeout ;;
    match rt with
    | Some t => clearTimeout t ;; write (set_reconnectTimeout None)
    | None => ret tt
    end ;;
    hb <- read heartbeatInterval ;;
    match hb with
    | Some t => clearInterval t ;; write (set_heartbeatInterval None)
    | None => ret tt
    end ;;
    s <- read ws ;;
    match s with
    | Some k => socket_close k ;; write (set_ws None)
    | None => ret tt
    end
  else ret tt.

(** [function removePort(port)] *)
Definition removePort (port : Port) : M unit :=
  ps <- read ports ;;
  if JsMap.has Nat.eqb port ps then
    write (fun w => set_ports (JsMap.delete Nat.eqb port (ports w)) w) ;;
    checkCleanup
  else ret tt.

(** [function checkHeartbeats()] *)
Definition checkHeartbeats : M unit :=
  now <- Date_now ;;
  for_of_ports (fun port portInfo =>
    if HEARTBEAT_TIMEOUT <? now - lastPong portInfo then removePort port
    else ret tt).

(** [function sendHeartbeats()] *)
Definition sendHeartbeats : M unit :=
  for_of_ports (fun port _ =>
    try_catch (postMessage port MPing) (removePort port)).

(** The callback of the interval: [sendHeartbeats(); checkHeartbeats();] *)
Definition heartbeat_tick : M unit := sendHeartbeats ;; checkHeartbeats.

(** [function startHeartbeatMonitoring()] *)
Definition startHeartbeatMonitoring : M unit :=
  hb <- read heartbeatInterval ;;
  match hb with
  | Some _ => ret tt
  | None =>
      t <- setInterval Heartbeat 10000 ;;
      write (set_heartbeatInterval (Some t))
  end.

(** [ws && ws.readyState === WebSocket.OPEN] *)
Definition ws_is_open (w : W) : bool :=
  match ws w with Some s => is_open s w | None => false end.

(** [port.onmessage = (event) => ...], the handler installed for [port]. *)
Definition port_onmessage (port : Port) (data : PortMsg) : M unit :=
  ps <- read ports ;;
  match JsMap.get Nat.eqb port ps with
  | None => ret tt
  | Some portInfo =>
      match data with
      | Pong =>
          now <- Date_now ;;
          write (fun w => set_ports
                   (JsMap.set Nat.eqb port (Build_PortInfo (id portInfo) now) (ports w)) w)
      | Disconnect => removePort port
      | SetFrequency frequency =>
          s <- read ws ;; up <- read ws_is_open ;;
          match s, up with
          | Some k, true => socket_send k (CSetFrequency frequency)
          | _, _ => ret tt
          end ;;
          for_of_ports (fun p _ =>
            if negb (p =? port)%nat then postMessage p (MFrequencyChanged frequency)
            else ret tt)
      | SetBatchSize min max =>
          s <- read ws ;; up <- read ws_is_open ;;
          match s, up with
          | Some k, true => socket_send k (CSetBatchSize min max)
          | _, _ => ret tt
          end ;;
          for_of_ports (fun p _ =>
            if negb (p =? port)%nat then postMessage p (MBatchSizeChanged min max)
            else ret tt)
      | _ => ret tt
      end
  end.

(** [self.onconnect = (e) => ...] with [port = e.ports[0]] *)
Definition onconnect (port : Port) : M unit :=
  portId <- read nextPortId ;;
  write (set_nextPortId (S portId)) ;;
  now <- Date_now ;;
  write (fun w => set_ports
           (JsMap.set Nat.eqb port (Build_PortInfo portId now) (ports w)) w) ;;
  s <- read ws ;;
  match s with
  | None => connect ;; startHeartbeatMonitoring
  | Some _ =>
      lid <- read lastInitialData ;;
      match lid with
      | Some m => postMessage port m
      | None => ret tt
      end ;;
      up <- read ws_is_open ;;
      postMessage port (if up then MConnected else MDisconnected)
  end.

(** *** The host's side: events and their dispatch *)
Inductive Event :=
| Connect (port : Port)                          (* a tab opens the worker *)
| PortMessage (port : Port) (data : PortMsg)
| SocketOpen (s : SocketId)
| SocketMessage (s : SocketId) (message : Message)
| SocketClose (s : SocketId)
| TimerFires (t : TimerId).

Definition run_callback (cb : Callback) : M unit :=
  match cb with
  | FlushBatch => flushBatch
  | Reconnect => connect
  | Heartbeat => heartbeat_tick
  end.

Definition find_timer (t : TimerId) (l : list Timer) : option Timer :=
  find (fun x => Pos.eqb (timer_id x) t) l.

(** A timer that was cleared never fires; a timeout leaves the schedule
    when it fires, an interval stays. *)
Definition fire (t : TimerId) : M unit :=
  ts <- read timers ;;
  match find_timer t ts with
  | None => ret tt
  | Some x =>
      (if repeating x then ret tt
       else write (fun w => set_timers (unschedule t (timers w)) w)) ;;
      run_callback (callback x)
  end.

Definition dispatch (e : Event) : M unit :=
  match e with
  | Connect port => onconnect port
  | PortMessage port data => port_onmessage port data
  | SocketOpen s => write (socket_becomes s OPEN) ;; ws_onopen
  | SocketMessage _ message => ws_onmessage message
  | SocketClose s => write (socket_becomes s CLOSED) ;; ws_onclose
  | TimerFires t => fire t
  end.

(** One turn of the event loop at clock value [now]; an exception that
    escapes a handler is reported by the host and the worker goes on. *)
Definition step (w : W) (te : Z * Event) : W :=
  snd (dispatch (snd te) (set_clock (fst te) w)).

Definition run (w : W) (trace : list (Z * Event)) : W := fold_left step trace w.

(** The messages that reached [port], oldest first. *)
Definition delivered (port : Port) (w : W) : list Message :=
  map snd (filter (fun pm => (fst pm =? port)%nat) (outbox w)).

(** *** Vocabulary of the statements *)

(** No attached port throws on [postMessage]. *)
Definition healthy (w : W) : Prop :=
  forall p, In p (JsMap.keys (ports w)) -> throws p w = false.

(** The worlds the worker can be in: those a trace of events leads to
    from the freshly loaded worker. *)
Definition reachable (w : W) : Prop :=
  exists bad trace, w = run (initial bad) trace.

(** What holds of the timers and maps in every reachable world. *)
Record Inv (w : W) : Prop := {
  inv_idle : batchTimer w = None -> pendingUpdates w = [];
  inv_fresh : forall x, In x (timers w) -> (timer_id x < nextTimerId w)%positive;
  inv_flush : forall x, In x (timers w) -> callback x = FlushBatch ->
              batchTimer w = Some (timer_id x);
  inv_heartbeat : forall x, In x (timers w) -> callback x = Heartbeat ->
                  heartbeatInterval w = Some (timer_id x);
  inv_ports : NoDup (JsMap.keys (ports w));
  inv_handles : forall t,
      batchTimer w = Some t \/ heartbeatInterval w = Some t \/
      reconnectTimeout w = Some t -> (t < nextTimerId w)%positive;
  inv_kind : forall x, In x (timers w) ->
      (batchTimer w = Some (timer_id x) -> callback x = FlushBatch) /\
      (heartbeatInterval w = Some (timer_id x) -> callback x = Heartbeat) /\
      (reconnectTimeout w = Some (timer_id x) -> callback x = Reconnect);
  inv_shape : forall x, In x (timers w) ->
      repeating x = match callback x with Heartbeat => true | _ => false end /\
      delay x = match callback x with
                | FlushBatch => BATCH_INTERVAL
                | Reconnect => 2000%Q
                | Heartbeat => 10000%Q
                end
}.

(** No flush of the batch is scheduled. *)
Definition NoFlush (w : W) : Prop :=
  forall x, In x (timers w) -> callback x <> FlushBatch.

(** [pendingUpdates] after [rows.forEach(row => pendingUpdates.set(row.symbol, row))]. *)
Definition offer_all (rows : list Row) (pending : list (string * Row)) :=
  fold_left (fun m row => JsMap.set String.eqb (symbol row) row m) rows pending.

(** [scheduleBatch] after the rows went in. *)
Definition after_update (rows : list Row) (w : W) : W :=
  let w1 := set_pendingUpdates (offer_all rows (pendingUpdates w)) w in
  match batchTimer w with
  | Some _ => w1
  | None =>
      set_batchTimer (Some (nextTimerId w))
        (set_nextTimerId (Pos.succ (nextTimerId w))
           (set_timers (timers w ++
                          [Build_Timer (nextTimerId w) FlushBatch BATCH_INTERVAL false (clock w)])
              w1))
  end.

(** The rows of an upstream [update] message, [None] for any other event. *)
Definition update_rows (te : Z * Event) : option (list Row) :=
  match snd te with
  | SocketMessage _ (MUpdate rows _) => Some rows
  | _ => None
  end.

Definition is_update (te : Z * Event) : bool :=
  match update_rows te with Some _ => true | None => false end.

(** Every [pendingUpdates.set] of a trace of [update] messages, in order. *)
Definition offers (trace : list (Z * Event)) : list Row :=
  flat_map (fun te => match update_rows te with Some rows => rows | None => [] end) trace.

(** The last row offered for a symbol. *)
Definition last_offer (s : string) (rows : list Row) : option Row :=
  find (fun r => String.eqb s (symbol r)) (rev rows).

(** The row a batch carries for a symbol. *)
Definition batch_row (s : string) (batch : list Row) : option Row :=
  find (fun r => String.eqb s (symbol r)) batch.

(** Every entry of the pending map is stored under its own symbol. *)
Definition keyed (m : list (string * Row)) : Prop :=
  forall k r, In (k, r) m -> symbol r = k.

(** [n] tabs opening the worker one after the other. *)
Definition attaches (tabs : list (Z * Port)) : list (Z * Event) :=
  map (fun tp => (fst tp, Connect (snd tp))) tabs.

(** The number of [new WebSocket] calls so far. *)
Definition connections (w : W) : nat := length (sockets w).

(** The command a subscriber message asks to relay, and the notice the
    other subscribers get for it. *)
Definition command_of (data : PortMsg) : option Command :=
  match data with
  | SetFrequency frequency => Some (CSetFrequency frequency)
  | SetBatchSize min max => Some (CSetBatchSize min max)
  | _ => None
  end.

Definition notice_of (data : PortMsg) : option Message :=
  match data with
  | SetFrequency frequency => Some (MFrequencyChanged frequency)
  | SetBatchSize min max => Some (MBatchSizeChanged min max)
  | _ => None
  end.

(** The loop of [port.onmessage] that tells the other ports about a change. *)
Definition notify_others (port : Port) (m : Message) : M unit :=
  for_of_ports (fun p _ => if negb (p =? port)%nat then postMessage p m else ret tt).

(** What [flushBatch] does when every attached port accepts the batch. *)
Definition after_flush (w : W) : W :=
  match pendingUpdates w with
  | [] => w
  | _ =>
      set_batchTimer None (set_pendingUpdates []
        (set_outbox (outbox w ++
           map (fun p => (p, MUpdate (JsMap.values (pendingUpdates w)) (clock w)))
               (JsMap.keys (ports w))) w))
  end.

(** The timers [ws.onclose] leaves alone: all but the flush it forces. *)
Definition kept_on_close (w : W) : list Timer :=
  match batchTimer w with
  | Some t => unschedule t (timers w)
  | None => timers w
  end.

(** What [ws.onclose] does when every attached port accepts messages. *)
Definition after_close (w : W) : W :=
  let w1 := set_outbox (outbox w ++
              map (fun p => (p, MDisconnected)) (JsMap.keys (ports w))) w in
  let w3 := match batchTimer w1 with
            | Some t => after_flush (set_timers (unschedule t (timers w1)) w1)
            | None => w1
            end in
  if (0 <? JsMap.size (ports w3))%nat
  then set_reconnectTimeout (Some (nextTimerId w3)) (snd (setTimeout Reconnect 2000 w3))
  else set_ws None w3.

(** What [checkCleanup] does once the map is empty, one [if] at a time. *)
Definition clear_reconnect (w : W) : W :=
  match reconnectTimeout w with
  | Some t => set_reconnectTimeout None (set_timers (unschedule t (timers w)) w)
  | None => w
  end.

Definition clear_heartbeat (w : W) : W :=
  match heartbeatInterval w with
  | Some t => set_heartbeatInterval None (set_timers (unschedule t (timers w)) w)
  | None => w
  end.

Definition close_socket (w : W) : W :=
  match ws w with
  | Some k => set_ws None (snd (socket_close k w))
  | None => w
  end.

Definition cleanup (w : W) : W := close_socket (clear_heartbeat (clear_reconnect w)).

(** What [removePort port] does. *)
Definition without_port (port : Port) (w : W) : W :=
  if JsMap.has Nat.eqb port (ports w) then
    let w1 := set_ports (JsMap.delete Nat.eqb port (ports w)) w in
    if (JsMap.size (ports w1) =? 0)%nat then cleanup w1 else w1
  else w.




(** *** Scenarios *)

Definition aapl (price : Z) : Row :=
  {| symbol := "AAPL"; fields := [("price"%string, price)] |}.

Definition msft (price : Z) : Row :=
  {| symbol := "MSFT"; fields := [("price"%string, price)] |}.

(** Two tabs attached to an open socket that sent its [initial] message. *)
Definition two_tabs : W :=
  run (initial [])
    [(0, Connect 1%nat); (3, Connect 2%nat); (5, SocketOpen 0%nat);
     (6, SocketMessage 0%nat (MInitial [aapl 100; msft 300]))].

(** One tab, and a batch waiting for its flush. *)
Definition one_tab_streaming : W :=
  run (initial [])
    [(0, Connect 1%nat); (5, SocketOpen 0%nat);
     (10, SocketMessage 0%nat (MUpdate [aapl 101] 10))].

(** Tab 1 leaves, tab 2 attaches before the close event of the first
    socket arrives, the second socket closes too, tab 2 leaves. *)
Definition racing_close : W :=
  run (initial [])
    [(0, Connect 1%nat); (1, SocketOpen 0%nat); (2, PortMessage 1%nat Disconnect);
     (3, Connect 2%nat); (4, SocketClose 0%nat); (5, SocketClose 1%nat);
     (6, PortMessage 2%nat Disconnect)].

(** Tab 1 cannot be posted to, tab 2 can. *)
Definition tab_1_broken : W :=
  run (initial [1%nat]) [(0, Connect 1%nat); (3, Connect 2%nat)].
End MarketWorker.

(** ** The earlier variant of the worker

    Same module variables, except that [ports] maps a port to the time of
    its last heartbeat and there is no [nextPortId]. *)
Module EarlierWorker.
Local Open Scope js_scope.

Definition W := World Z.
Definition M := Js Z.

Definition BATCH_INTERVAL : Q := 1000 # 60.
Definition HEARTBEAT_TIMEOUT : Z := 5000.

(** [function checkCleanup()] *)
Definition checkCleanup : M unit :=
  ps <- read ports ;;
  if (JsMap.size ps =? 0)%nat then
    rt <- read reconnectTimeout ;;
    match rt with
    | Some t => clearTimeout t ;; write (set_reconnectTimeout None)
    | None => ret tt
    end ;;
    hb <- read heartbeatInterval ;;
    match hb with
    | Some t => clearInterval t ;; write (set_heartbeatInterval None)
    | None => ret tt
    end ;;
    s <- read ws ;;
    match s with
    | Some k => socket_close k ;; write (set_ws None)
    | None => ret tt
    end
  else ret tt.

(** [function removePort(port)] *)
Definition removePort (port : Port) : M unit :=
  ps <- read ports ;;
  if JsMap.has Nat.eqb port ps then
    write (fun w => set_ports (JsMap.delete Nat.eqb port (ports w)) w) ;;
    checkCleanup
  else ret tt.

(** [function broadcast(message, targetPort = null)]: the targets are
    copied into an array first, a port that throws is removed. *)
Definition broadcast (message : Message) (targetPort : option Port) : M unit :=
  ps <- read ports ;;
  let targetPorts := match targetPort with
                     | Some p => [p]
                     | None => JsMap.keys ps
                     end in
  for_each targetPorts (fun port =>
    try_catch (postMessage port message) (removePort port)).

(** [function flushBatch()] *)
Definition flushBatch : M unit :=
  pending <- read pendingUpdates ;;
  if (JsMap.size pending =? 0)%nat then ret tt
  else
    let batchedData := JsMap.values pending in
    now <- Date_now ;;
    broadcast (MUpdate batchedData now) None ;;
    write (set_pendingUpdates []) ;;
    write (set_batchTimer None).

(** [function scheduleBatch()] *)
Definition scheduleBatch : M unit :=
  bt <- read batchTimer ;;
  match bt with
  | Some _ => ret tt
  | None =>
      t <- setTimeout FlushBatch BATCH_INTERVAL ;;
      write (set_batchTimer (Some t))
  end.

(** [function connect()] *)
Definition connect : M unit :=
  s <- new_WebSocket ;;
  write (set_ws (Some s)).

Definition ws_onopen : M unit := broadcast MConnected None.

Definition ws_onmessage (message : Message) : M unit :=
  match message with
  | MInitial _ =>
      write (set_lastInitialData (Some message)) ;;
      broadcast message None
  | MUpdate data _ =>
      for_each data (fun row =>
        write (fun w => set_pendingUpdates
                 (JsMap.set String.eqb (symbol row) row (pendingUpdates w)) w)) ;;
      scheduleBatch
  | _ => broadcast message None
  end.

(** [ws.onclose]: reconnects whether or not a port is left. *)
Definition ws_onclose : M unit :=
  broadcast MDisconnected None ;;
  bt <- read batchTimer ;;
  match bt with
  | Some t => clearTimeout t ;; flushBatch
  | None => ret tt
  end ;;
  t <- setTimeout Reconnect 2000 ;;
  write (set_reconnectTimeout (Some t)).

(** [function checkHeartbeats()] *)
Definition checkHeartbeats : M unit :=
  now <- Date_now ;;
  for_of_ports (fun port lastHeartbeat =>
    if HEARTBEAT_TIMEOUT <? now - lastHeartbeat then removePort port
    else ret tt).

(** [function startHeartbeatMonitoring()] *)
Definition startHeartbeatMonitoring : M unit :=
  hb <- read heartbeatInterval ;;
  match hb with
  | Some _ => ret tt
  | None =>
      t <- setInterval Heartbeat 2000 ;;
      write (set_heartbeatInterval (Some t))
  end.

Definition ws_is_open (w : W) : bool :=
  match ws w with Some s => is_open s w | None => false end.

(** [port.onmessage]: a [ping] refreshes the port's timestamp. *)
Definition port_onmessage (port : Port) (data : PortMsg) : M unit :=
  match data with
  | Ping =>
      now <- Date_now ;;
      write (fun w => set_ports (JsMap.set Nat.eqb port now (ports w)) w) ;;
      postMessage port MPong
  | _ => ret tt
  end.

(** [self.onconnect] *)
Definition onconnect (port : Port) : M unit :=
  now <- Date_now ;;
  write (fun w => set_ports (JsMap.set Nat.eqb port now (ports w)) w) ;;
  ps <- read ports ;;
  if (JsMap.size ps =? 1)%nat then
    connect ;; startHeartbeatMonitoring
  else
    lid <- read lastInitialData ;;
    match lid with
    | Some m => postMessage port m
    | None => ret tt
    end ;;
    up <- read ws_is_open ;;
    postMessage port (if up then MConnected else MDisconnected).

(** *** Vocabulary of the statements *)

(** [tabs] attaching one after the other. *)
Definition attach_all (w : W) (tabs : list (Z * Port)) : W :=
  fold_left (fun v tp => snd (onconnect (snd tp) (set_clock (fst tp) v))) tabs w.

(** The ports of the map that accept messages. *)
Definition healthy_ports (w : W) : list Port :=
  filter (fun p => negb (throws p w)) (JsMap.keys (ports w)).

(** The ports that throw, deleted one after the other. *)
Fixpoint drop_broken (bad : list Port) (ks : list Port) (m : list (Port * Z)) :=
  match ks with
  | [] => m
  | k :: r =>
      drop_broken bad r (if existsb (Nat.eqb k) bad then JsMap.delete Nat.eqb k m else m)
  end.

End EarlierWorker.

(** ** The first variant of the worker

    [ports] is an array, there is no heartbeat, [broadcast] catches a
    delivery error and leaves the port where it is, and a port leaves
    through its [close] event.  The array is the list of the keys of
    [ports]; nothing is stored with a port. *)
Module FirstWorker.
Local Open Scope js_scope.

Definition W := World unit.
Definition M := Js unit.

Definition BATCH_INTERVAL : Q := 1000 # 60.

(** [ports.push(port)] *)
Definition push (port : Port) (ps : list (Port * unit)) : list (Port * unit) :=
  ps ++ [(port, tt)].

(** [ports.indexOf(port)], [None] for [-1]. *)
Fixpoint indexOf (port : Port) (ps : list (Port * unit)) : option nat :=
  match ps with
  | [] => None
  | (p, _) :: r => if (p =? port)%nat then Some 0%nat else option_map S (indexOf port r)
  end.

(** [ports.splice(index, 1)] *)
Fixpoint splice (index : nat) (ps : list (Port * unit)) : list (Port * unit) :=
  match ps, index with
  | [], _ => []
  | _ :: r, O => r
  | a :: r, S n => a :: splice n r
  end.

(** [function broadcast(message, targetPort = null)] *)
Definition broadcast (message : Message) (targetPort : option Port) : M unit :=
  ps <- read ports ;;
  let targetPorts := match targetPort with
                     | Some p => [p]
                     | None => JsMap.keys ps
                     end in
  for_each targetPorts (fun port =>
    try_catch (postMessage port message) (ret tt)).

(** [function flushBatch()] *)
Definition flushBatch : M unit :=
  pending <- read pendingUpdates ;;
  if (JsMap.size pending =? 0)%nat then ret tt
  else
    let batchedData := JsMap.values pending in
    now <- Date_now ;;
    broadcast (MUpdate batchedData now) None ;;
    write (set_pendingUpdates []) ;;
    write (set_batchTimer None).

(** [function scheduleBatch()] *)
Definition scheduleBatch : M unit :=
  bt <- read batchTimer ;;
  match bt with
  | Some _ => ret tt
  | None =>
      t <- setTimeout FlushBatch BATCH_INTERVAL ;;
      write (set_batchTimer (Some t))
  end.

(** [function connect()] *)
Definition connect : M unit :=
  s <- new_WebSocket ;;
  write (set_ws (Some s)).

Definition ws_onopen : M unit := broadcast MConnected None.

Definition ws_onmessage (message : Message) : M unit :=
  match message with
  | MInitial _ =>
      write (set_lastInitialData (Some message)) ;;
      broadcast message None
  | MUpdate data _ =>
      for_each data (fun row =>
        write (fun w => set_pendingUpdates
                 (JsMap.set String.eqb (symbol row) row (pendingUpdates w)) w)) ;;
      scheduleBatch
  | _ => broadcast message None
  end.

Definition ws_onclose : M unit :=
  broadcast MDisconnected None ;;
  bt <- read batchTimer ;;
  match bt with
  | Some t => clearTimeout t ;; flushBatch
  | None => ret tt
  end ;;
  t <- setTimeout Reconnect 2000 ;;
  write (set_reconnectTimeout (Some t)).

Definition ws_is_open (w : W) : bool :=
  match ws w with Some s => is_open s w | None => false end.

(** [port.onmessage]: a [ping] is answered, nothing else is read. *)
Definition port_onmessage (port : Port) (data : PortMsg) : M unit :=
  match data with
  | Ping => postMessage port MPong
  | _ => ret tt
  end.

(** The listener [self.onconnect] adds for the [close] event of [port]. *)
Definition port_onclose (port : Port) : M unit :=
  ps <- read ports ;;
  match indexOf port ps with
  | Some index => write (fun w => set_ports (splice index (ports w)) w)
  | None => ret tt
  end ;;
  ps <- read ports ;;
  if (length ps =? 0)%nat then
    rt <- read reconnectTimeout ;;
    match rt with
    | Some t => clearTimeout t ;; write (set_reconnectTimeout None)
    | None => ret tt
    end ;;
    s <- read ws ;;
    match s with
    | Some k => socket_close k ;; write (set_ws None)
    | None => ret tt
    end
  else ret tt.

(** [self.onconnect], up to the registration of the [close] listener
    (which comes last: it is not reached when a [postMessage] of the second
    branch throws). *)
Definition onconnect (port : Port) : M unit :=
  write (fun w => set_ports (push port (ports w)) w) ;;
  ps <- read ports ;;
  if (length ps =? 1)%nat then connect
  else
    lid <- read lastInitialData ;;
    match lid with
    | Some m => postMessage port m
    | None => ret tt
    end ;;
    up <- read ws_is_open ;;
    postMessage port (if up then MConnected else MDisconnected).

(** *** Vocabulary of the statements *)

(** [tabs] attaching one after the other. *)
Definition attach_all (w : W) (tabs : list (Z * Port)) : W :=
  fold_left (fun v tp => snd (onconnect (snd tp) (set_clock (fst tp) v))) tabs w.

(** The array without the first occurrence of [port]. *)
Fixpoint remove_first (port : Port) (ps : list (Port * unit)) : list (Port * unit) :=
  match ps with
  | [] => []
  | (p, u) :: r => if (p =? port)%nat then r else (p, u) :: remove_first port r
  end.
End FirstWorker.

(** ** The grid component's side of the batching ([App.jsx])

    The component keeps the rows the worker sends in a [Map] and hands
    them to the grid once per animation frame.  The model holds the React
    state and refs the handlers touch, the module-level [perfStats], the
    animation-frame callbacks the host still owes, and the transactions the
    grid was given.  The durations [performance.now()] yields are
    floating-point numbers; they and the operations on them are kept
    abstract. *)
Module App.

Record Floats := {
  float : Type;
  f_zero : float;
  f_infinity : float;
  f_add : float -> float -> float;
  f_min : float -> float -> float;        (* Math.min *)
  f_max : float -> float -> float;        (* Math.max *)
  f_div : float -> nat -> float;          (* total / count *)
  f_toFixed2 : float -> string            (* x.toFixed(2) *)
}.

(** [n.toString()] of a count. *)
Definition toString (n : nat) : string :=
  DecimalString.NilZero.string_of_uint (Nat.to_uint n).

Record PerfMetrics := {
  avg : string; min : string; max : string; fps : string; total : string
}.

Section Component.
Context {F : Floats}.

Record PerfStats := {
  updateCount : nat;
  totalUpdateTime : float F;
  minUpdateTime : float F;
  maxUpdateTime : float F;
  lastSecondUpdates : nat
}.

Record State := mkState {
  rowData : list Row;                          (* useState([]) *)
  connectionStatus : string;                   (* useState('Connecting...') *)
  perfMetrics : PerfMetrics;
  gridRef : bool;                              (* gridRef.current is set *)
  pendingUpdatesRef : list (string * Row);     (* pendingUpdatesRef.current *)
  frameScheduledRef : bool;                    (* frameScheduledRef.current *)
  perfStats : PerfStats;                       (* module level *)
  (* host *)
  animationFrames : nat;                       (* callbacks requested, not yet run *)
  transactions : list (list Row)               (* [update] of every applyTransaction *)
}.

Definition set_rowData x s :=
  mkState x (connectionStatus s) (perfMetrics s) (gridRef s) (pendingUpdatesRef s)
    (frameScheduledRef s) (perfStats s) (animationFrames s) (transactions s).
Definition set_connectionStatus x s :=
  mkState (rowData s) x (perfMetrics s) (gridRef s) (pendingUpdatesRef s)
    (frameScheduledRef s) (perfStats s) (animationFrames s) (transactions s).
Definition set_perfMetrics x s :=
  mkState (rowData s) (connectionStatus s) x (gridRef s) (pendingUpdatesRef s)
    (frameScheduledRef s) (perfStats s) (animationFrames s) (transactions s).
Definition set_gridRef x s :=
  mkState (rowData s) (connectionStatus s) (perfMetrics s) x (pendingUpdatesRef s)
    (frameScheduledRef s) (perfStats s) (animationFrames s) (transactions s).
Definition set_pendingUpdatesRef x s :=
  mkState (rowData s) (connectionStatus s) (perfMetrics s) (gridRef s) x
    (frameScheduledRef s) (perfStats s) (animationFrames s) (transactions s).
Definition set_frameScheduledRef x s :=
  mkState (rowData s) (connectionStatus s) (perfMetrics s) (gridRef s) (pendingUpdatesRef s)
    x (perfStats s) (animationFrames s) (transactions s).
Definition set_perfStats x s :=
  mkState (rowData s) (connectionStatus s) (perfMetrics s) (gridRef s) (pendingUpdatesRef s)
    (frameScheduledRef s) x (animationFrames s) (transactions s).
Definition set_animationFrames x s :=
  mkState (rowData s) (connectionStatus s) (perfMetrics s) (gridRef s) (pendingUpdatesRef s)
    (frameScheduledRef s) (perfStats s) x (transactions s).
Definition set_transactions x s :=
  mkState (rowData s) (connectionStatus s) (perfMetrics s) (gridRef s) (pendingUpdatesRef s)
    (frameScheduledRef s) (perfStats s) (animationFrames s) x.

(** The component as mounted, before the grid is. *)
Definition mounted : State :=
  mkState [] "Connecting..." (Build_PerfMetrics "0" "0" "0" "0" "0") false [] false
    (Build_PerfStats 0 (f_zero F) (f_infinity F) (f_zero F) 0) 0 [].

(** The performance block of the frame callback, [updateTime] being
    [performance.now() - startTime]. *)
Definition track (updateTime : float F) (p : PerfStats) : PerfStats :=
  {| updateCount := S (updateCount p);
     totalUpdateTime := f_add F (totalUpdateTime p) updateTime;
     minUpdateTime := f_min F (minUpdateTime p) updateTime;
     maxUpdateTime := f_max F (maxUpdateTime p) updateTime;
     lastSecondUpdates := S (lastSecondUpdates p) |}.

(** [scheduleFrame]: the guard and the request; the callback it requests
    is [frame_callback], which calls [scheduleFrame] again, so the two are
    tied by the number of requests rather than by recursion. *)
Definition scheduleFrame (s : State) : State :=
  if frameScheduledRef s then s
  else set_animationFrames (S (animationFrames s)) (set_frameScheduledRef true s).

(** The callback handed to [requestAnimationFrame]. *)
Definition frame_callback (updateTime : float F) (s : State) : State :=
  let s1 :=
    if (0 <? JsMap.size (pendingUpdatesRef s))%nat && gridRef s then
      let transaction := JsMap.values (pendingUpdatesRef s) in
      set_perfStats (track updateTime (perfStats s))
        (set_pendingUpdatesRef []
           (set_transactions (transactions s ++ [transaction]) s))
    else s in
  let s2 := set_frameScheduledRef false s1 in
  if (0 <? JsMap.size (pendingUpdatesRef s2))%nat then scheduleFrame s2 else s2.

(** [queueUpdate(updates)] *)
Definition queueUpdate (updates : list Row) (s : State) : State :=
  scheduleFrame
    (set_pendingUpdatesRef
       (fold_left (fun m row => JsMap.set String.eqb (symbol row) row m)
          updates (pendingUpdatesRef s)) s).

(** The callback of the one-second interval. *)
Definition perf_interval (s : State) : State :=
  let p := perfStats s in
  if (0 <? updateCount p)%nat then
    let avgTime := f_toFixed2 F (f_div F (totalUpdateTime p) (updateCount p)) in
    set_perfStats
      {| updateCount := updateCount p;
         totalUpdateTime := totalUpdateTime p;
         minUpdateTime := minUpdateTime p;
         maxUpdateTime := maxUpdateTime p;
         lastSecondUpdates := 0 |}
      (set_perfMetrics
         {| avg := avgTime;
            min := f_toFixed2 F (minUpdateTime p);
            max := f_toFixed2 F (maxUpdateTime p);
            fps := toString (lastSecondUpdates p);
            total := toString (updateCount p) |} s)
  else s.

(** [worker.port.onmessage] *)
Definition onmessage (message : Message) (s : State) : State :=
  match message with
  | MConnected => set_connectionStatus "Connected" s
  | MDisconnected => set_connectionStatus "Disconnected" s
  | MInitial data => set_rowData data s
  | MUpdate data _ => queueUpdate data s
  | _ => s
  end.

(** *** The host's side *)
Inductive Event :=
| WorkerMessage (message : Message)
| AnimationFrame (updateTime : float F)   (* the host runs one requested callback *)
| PerfInterval
| GridReady.                              (* the grid mounts: [gridRef.current] is set *)

Definition step (s : State) (e : Event) : State :=
  match e with
  | WorkerMessage message => onmessage message s
  | AnimationFrame updateTime =>
      match animationFrames s with
      | O => s
      | S n => frame_callback updateTime (set_animationFrames n s)
      end
  | PerfInterval => perf_interval s
  | GridReady => set_gridRef true s
  end.

Definition run (s : State) (trace : list Event) : State := fold_left step trace s.

Definition reachable (s : State) : Prop := exists trace, s = run mounted trace.

(** The rows of the [update] messages of a trace, in order. *)
Definition queued (trace : list Event) : list Row :=
  flat_map (fun e => match e with
                     | WorkerMessage (MUpdate rows _) => rows
                     | _ => []
                     end) trace.

Definition is_update (e : Event) : bool :=
  match e with WorkerMessage (MUpdate _ _) => true | _ => false end.

(** How the flag, the requested callbacks and the queue stand to each
    other between two events. *)
Record Inv (s : State) : Prop := {
  inv_frames : animationFrames s = if frameScheduledRef s then 1%nat else 0%nat;
  inv_queued : pendingUpdatesRef s <> [] -> frameScheduledRef s = true;
  inv_keyed : MarketWorker.keyed (pendingUpdatesRef s)
}.
End Component.

Arguments State : clear implicits.
Arguments PerfStats : clear implicits.
Arguments Event : clear implicits.

(** Durations in whole microseconds for the scenarios, [None] being
    [Infinity]; the scenarios do not read the formatted text. *)
Definition micros : Floats :=
  {| float := option Z;
     f_zero := Some 0;
     f_infinity := None;
     f_add := fun a b => match a, b with Some x, Some y => Some (x + y) | _, _ => None end;
     f_min := fun a b => match a, b with
                         | Some x, Some y => Some (Z.min x y)
                         | Some x, None | None, Some x => Some x
                         | None, None => None
                         end;
     f_max := fun a b => match a, b with Some x, Some y => Some (Z.max x y) | _, _ => None end;
     f_div := fun t n => option_map (fun x => x / Z.of_nat n) t;
     f_toFixed2 := fun _ => "-"%string |}.

(** *** Scenarios *)

(** The component just mounted, the grid not yet. *)
Definition loading : State micros := mounted.

(** The grid is mounted and the worker reported its connection. *)
Definition grid_ready : State micros :=
  run mounted [WorkerMessage MConnected; GridReady].

(** Two [update] messages with three rows for two symbols. *)
Definition two_updates : list (Event micros) :=
  [WorkerMessage (MUpdate [MarketWorker.aapl 101; MarketWorker.msft 301] 20);
   WorkerMessage (MUpdate [MarketWorker.aapl 102] 25)].
End App.

(** ** More vocabulary for the traces of [MarketWorker] *)
Module Traces.
Import MarketWorker.

(** The [initial] message an event brings from the upstream, if it does. *)
Definition snapshot_of (e : Event) : option Message :=
  match e with
  | SocketMessage _ (MInitial data) => Some (MInitial data)
  | _ => None
  end.

(** The last [initial] message of a trace, [c] when it has none. *)
Definition cached (c : option Message) (trace : list (Z * Event)) : option Message :=
  fold_left (fun c te => match snapshot_of (snd te) with
                         | Some m => Some m
                         | None => c
                         end) trace c.

(** No two scheduled timers share a handle, and every handle in use is
    below the next one the host gives out. *)
Definition distinct_handles (w : W) : Prop :=
  NoDup (map timer_id (timers w)) /\
  forall x, In x (timers w) -> (timer_id x < nextTimerId w)%positive.

(** The monitor is off whenever nobody is attached. *)
Definition monitor_needs_ports (w : W) : Prop :=
  ports w = [] -> heartbeatInterval w = None.

Definition same_callback (a b : Callback) : bool :=
  match a, b with
  | FlushBatch, FlushBatch | Reconnect, Reconnect | Heartbeat, Heartbeat => true
  | _, _ => false
  end.

(** [c] returns normally in a world where no port throws, and leaves such
    a world. *)
Definition completes {A} (c : M A) : Prop :=
  forall w : W, broken w = [] -> exists a w', c w = (Normal a, w') /\ broken w' = [].

(** The scheduled timers that will run [cb]. *)
Definition scheduled (cb : Callback) (w : W) : list Timer :=
  filter (fun x => same_callback (callback x) cb) (timers w).
End Traces.

(** * Properties *)

(** ** Facts about [JsMap] *)
Module JsMapFacts.
Section Facts.
Context {K V : Type}.
Variable eqb : K -> K -> bool.
Hypothesis eqb_spec : forall a b, reflect (a = b) (eqb a b).

Lemma eqb_refl k : eqb k k = true.
Proof. destruct (eqb_spec k k); congruence. Qed.

Lemma eqb_neq a b : a <> b -> eqb a b = false.
Proof. destruct (eqb_spec a b); congruence. Qed.

Lemma get_set_same k v (m : list (K * V)) :
  JsMap.get eqb k (JsMap.set eqb k v m) = Some v.
Proof.
  induction m as [|[k' v'] r IH]; simpl.
  - now rewrite eqb_refl.
  - destruct (eqb k k') eqn:E; simpl; rewrite ?eqb_refl, ?E; auto.
Qed.

Lemma get_set_other k k' v (m : list (K * V)) :
  k' <> k -> JsMap.get eqb k' (JsMap.set eqb k v m) = JsMap.get eqb k' m.
Proof.
  intros N. induction m as [|[a b] r IH]; simpl.
  - now rewrite (eqb_neq k' k N).
  - destruct (eqb_spec k a) as [->|Na]; simpl.
    + now rewrite (eqb_neq k' a N).
    + destruct (eqb k' a); auto.
Qed.

Lemma get_some_in k (m : list (K * V)) v :
  JsMap.get eqb k m = Some v -> In (k, v) m.
Proof.
  induction m as [|[a b] r IH]; simpl; [discriminate|].
  destruct (eqb_spec k a) as [->|N]; intros H.
  - inversion H; subst; auto.
  - auto.
Qed.

Lemma in_keys_get k (m : list (K * V)) :
  In k (JsMap.keys m) -> exists v, JsMap.get eqb k m = Some v.
Proof.
  induction m as [|[a b] r IH]; simpl; [tauto|].
  intros [<-|H].
  - rewrite eqb_refl. eauto.
  - destruct (eqb k a); eauto.
Qed.

Lemma get_in_keys k (m : list (K * V)) v :
  JsMap.get eqb k m = Some v -> In k (JsMap.keys m).
Proof.
  intros H. apply get_some_in in H. unfold JsMap.keys.
  change k with (fst (k, v)). now apply in_map.
Qed.

Lemma get_none_not_in k (m : list (K * V)) :
  JsMap.get eqb k m = None <-> ~ In k (JsMap.keys m).
Proof.
  split.
  - intros H I. apply in_keys_get in I. destruct I as [v E]. congruence.
  - intros H. destruct (JsMap.get eqb k m) eqn:E; auto.
    apply get_in_keys in E. tauto.
Qed.

Lemma has_in k (m : list (K * V)) :
  JsMap.has eqb k m = true <-> In k (JsMap.keys m).
Proof.
  unfold JsMap.has. split.
  - destruct (JsMap.get eqb k m) eqn:E; [|discriminate].
    intros _. eapply get_in_keys; eauto.
  - intros H. apply in_keys_get in H. destruct H as [v ->]. reflexivity.
Qed.

(** [set] on a present key keeps the order of the keys, on a fresh key it
    appends the key. *)
Lemma keys_set k v (m : list (K * V)) :
  JsMap.keys (JsMap.set eqb k v m) =
  if JsMap.has eqb k m then JsMap.keys m else JsMap.keys m ++ [k].
Proof.
  unfold JsMap.has.
  induction m as [|[a b] r IH]; simpl; auto.
  destruct (eqb_spec k a) as [->|N]; simpl; auto.
  rewrite IH. destruct (JsMap.get eqb k r); auto.
Qed.

Lemma keys_set_in k v (m : list (K * V)) x :
  In x (JsMap.keys (JsMap.set eqb k v m)) <-> x = k \/ In x (JsMap.keys m).
Proof.
  rewrite keys_set. destruct (JsMap.has eqb k m) eqn:H.
  - apply has_in in H. split; [auto|]. intros [->|]; auto.
  - rewrite in_app_iff. simpl. split; intros; intuition auto.
Qed.

Lemma nodup_set k v (m : list (K * V)) :
  NoDup (JsMap.keys m) -> NoDup (JsMap.keys (JsMap.set eqb k v m)).
Proof.
  intros H. rewrite keys_set. destruct (JsMap.has eqb k m) eqn:E; auto.
  assert (~ In k (JsMap.keys m)) as N.
  { intros I. apply has_in in I. congruence. }
  clear E. induction H; simpl.
  - constructor; [tauto | constructor].
  - simpl in N. constructor.
    + rewrite in_app_iff. simpl. intuition congruence.
    + apply IHNoDup. tauto.
Qed.

Lemma keys_delete_in k (m : list (K * V)) x :
  In x (JsMap.keys (JsMap.delete eqb k m)) -> In x (JsMap.keys m).
Proof.
  induction m as [|[a b] r IH]; simpl; auto.
  destruct (eqb k a); simpl; intuition auto.
Qed.

Lemma get_delete_other k k' (m : list (K * V)) :
  k' <> k -> JsMap.get eqb k' (JsMap.delete eqb k m) = JsMap.get eqb k' m.
Proof.
  intros N. induction m as [|[a b] r IH]; simpl; auto.
  destruct (eqb_spec k a) as [->|Na]; simpl.
  - now rewrite (eqb_neq k' a N).
  - destruct (eqb k' a); auto.
Qed.

Lemma get_delete_same k (m : list (K * V)) :
  NoDup (JsMap.keys m) -> JsMap.get eqb k (JsMap.delete eqb k m) = None.
Proof.
  induction m as [|[a b] r IH]; simpl; auto.
  intros H. inversion H; subst.
  destruct (eqb_spec k a) as [->|Na]; simpl.
  - now apply get_none_not_in.
  - rewrite (eqb_neq k a Na). auto.
Qed.

Lemma in_get k v (m : list (K * V)) :
  NoDup (JsMap.keys m) -> In (k, v) m -> JsMap.get eqb k m = Some v.
Proof.
  induction m as [|[a b] r IH]; simpl; [tauto|].
  intros H. inversion H; subst. intros [E|I].
  - inversion E; subst. now rewrite eqb_refl.
  - destruct (eqb_spec k a) as [->|N]; auto.
    exfalso. apply H2. change a with (fst (a, v)). now apply in_map.
Qed.

Lemma delete_absent k (m : list (K * V)) :
  JsMap.get eqb k m = None -> JsMap.delete eqb k m = m.
Proof.
  induction m as [|[a b] r IH]; simpl; auto.
  destruct (eqb k a); [discriminate|]. intros H. f_equal. auto.
Qed.

Lemma nodup_delete k (m : list (K * V)) :
  NoDup (JsMap.keys m) -> NoDup (JsMap.keys (JsMap.delete eqb k m)).
Proof.
  induction m as [|[a b] r IH]; simpl; auto.
  intros H. inversion H; subst.
  destruct (eqb k a); simpl; auto.
  constructor; auto. intros I. apply keys_delete_in in I. tauto.
Qed.
End Facts.
End JsMapFacts.

(** ** Facts about the host operations *)
Section HostFacts.
Context {I : Type}.
Implicit Type w : World I.

Lemma set_outbox_twice x y w : set_outbox x (set_outbox y w) = set_outbox x w.
Proof. reflexivity. Qed.

Lemma set_outbox_same w : set_outbox (outbox w) w = w.
Proof. destruct w; reflexivity. Qed.

Lemma postMessage_ok p m w :
  throws p w = false ->
  postMessage p m w = (Normal tt, set_outbox (outbox w ++ [(p, m)]) w).
Proof. unfold postMessage. now intros ->. Qed.

Lemma postMessage_throws p m w :
  throws p w = true -> postMessage (I := I) p m w = (Thrown, w).
Proof. unfold postMessage. now intros ->. Qed.

Lemma try_catch_post port m (h : Js I unit) w :
  try_catch (postMessage port m) h w =
  if throws port w then h w
  else (Normal tt, set_outbox (outbox w ++ [(port, m)]) w).
Proof. unfold try_catch, postMessage. destruct (throws port w); reflexivity. Qed.

(** Posting to each port of a list whose ports are all attached and
    healthy delivers to all of them, in order. *)
Lemma post_loop_ok (m : Message) (ks : list Port) : forall w,
  (forall p, In p ks -> In p (JsMap.keys (ports w)) /\ throws p w = false) ->
  for_each ks (fun p =>
    bind (read (fun w => JsMap.get Nat.eqb p (ports w))) (fun e =>
      match e with Some _ => postMessage p m | None => ret tt end)) w
  = (Normal tt, set_outbox (outbox w ++ map (fun p => (p, m)) ks) w).
Proof.
  induction ks as [|k r IH]; intros w H; simpl.
  - unfold ret. now rewrite app_nil_r, set_outbox_same.
  - destruct (H k (or_introl eq_refl)) as [Hin Hok].
    apply (JsMapFacts.in_keys_get Nat.eqb Nat.eqb_spec) in Hin.
    destruct Hin as [v Hv].
    unfold bind at 1. unfold bind at 1. unfold read at 1. rewrite Hv.
    rewrite (postMessage_ok _ _ _ Hok).
    rewrite IH.
    + simpl. rewrite <- app_assoc. reflexivity.
    + intros p Hp. apply (H p). now right.
Qed.

(** The loop stops at the first port that throws: the ports before it got
    the message, the ports after it did not, the map is untouched. *)
Lemma post_loop_throws (m : Message) (before after : list Port) (a : Port) w :
  (forall p, In p before -> In p (JsMap.keys (ports w)) /\ throws p w = false) ->
  In a (JsMap.keys (ports w)) -> throws a w = true ->
  for_each (before ++ a :: after) (fun p =>
    bind (read (fun w => JsMap.get Nat.eqb p (ports w))) (fun e =>
      match e with Some _ => postMessage p m | None => ret tt end)) w
  = (Thrown, set_outbox (outbox w ++ map (fun p => (p, m)) before) w).
Proof.
  revert w. induction before as [|k r IH]; intros w H Ha Ht; simpl.
  - apply (JsMapFacts.in_keys_get Nat.eqb Nat.eqb_spec) in Ha.
    destruct Ha as [v Hv].
    unfold bind at 1. unfold bind at 1. unfold read at 1. rewrite Hv.
    rewrite (postMessage_throws _ _ _ Ht).
    now rewrite app_nil_r, set_outbox_same.
  - destruct (H k (or_introl eq_refl)) as [Hin Hok].
    apply (JsMapFacts.in_keys_get Nat.eqb Nat.eqb_spec) in Hin.
    destruct Hin as [v Hv].
    unfold bind at 1. unfold bind at 1. unfold read at 1. rewrite Hv.
    rewrite (postMessage_ok _ _ _ Hok).
    rewrite IH; auto.
    + simpl. rewrite <- app_assoc. reflexivity.
    + intros p Hp. apply (H p). now right.
Qed.
End HostFacts.

Module MarketWorkerFacts.
Import MarketWorker.

Lemma broadcast_ok m (w : W) :
  healthy w ->
  broadcast m w =
  (Normal tt, set_outbox (outbox w ++ map (fun p => (p, m)) (JsMap.keys (ports w))) w).
Proof.
  intros H. unfold broadcast, for_of_ports.
  unfold bind at 1. unfold read at 1.
  apply post_loop_ok. intros p Hp. split; auto.
Qed.

Lemma broadcast_throws m (w : W) before a after :
  JsMap.keys (ports w) = before ++ a :: after ->
  (forall p, In p before -> throws p w = false) ->
  throws a w = true ->
  broadcast m w =
  (Thrown, set_outbox (outbox w ++ map (fun p => (p, m)) before) w).
Proof.
  intros E Hb Ha. unfold broadcast, for_of_ports.
  unfold bind at 1. unfold read at 1. rewrite E.
  apply post_loop_throws; auto.
  - intros p Hp. split; auto. rewrite E. apply in_or_app. now left.
  - rewrite E. apply in_or_app. right. now left.
Qed.
End MarketWorkerFacts.

(** ** Invariants of the reachable worlds *)
Section Preservation.
Context {I : Type}.
Variable P : World I -> Prop.

Lemma preserves_ret {A} (a : A) : preserves P (ret a).
Proof. intros w H. exact H. Qed.

Lemma preserves_read {A} (f : World I -> A) : preserves P (read f).
Proof. intros w H. exact H. Qed.

Lemma preserves_write f : (forall w, P w -> P (f w)) -> preserves P (write f).
Proof. intros Hf w H. simpl. auto. Qed.

Lemma preserves_bind {A B} (c : Js I A) (k : A -> Js I B) :
  preserves P c -> (forall a, preserves P (k a)) -> preserves P (bind c k).
Proof.
  intros Hc Hk w H. unfold preserves, bind. specialize (Hc w H).
  destruct (c w) as [[a|] w']; simpl in *; auto. now apply Hk.
Qed.

(** The same at one world, for a first part whose effect depends on it. *)
Lemma preserves_bind_at {A B} (c : Js I A) (k : A -> Js I B) w :
  P (snd (c w)) -> (forall a, preserves P (k a)) -> P (snd (bind c k w)).
Proof.
  intros Hc Hk. unfold bind.
  destruct (c w) as [[a|] w']; simpl in *; auto. now apply Hk.
Qed.

Lemma preserves_try_catch (c h : Js I unit) :
  preserves P c -> preserves P h -> preserves P (try_catch c h).
Proof.
  intros Hc Hh w H. unfold preserves, try_catch. specialize (Hc w H).
  destruct (c w) as [[a|] w']; simpl in *; auto.
Qed.

Lemma preserves_for_each {X} (xs : list X) (body : X -> Js I unit) :
  (forall x, preserves P (body x)) -> preserves P (for_each xs body).
Proof.
  intros Hb. induction xs as [|x r IH]; simpl.
  - apply preserves_ret.
  - apply preserves_bind; auto.
Qed.

Lemma preserves_for_of_ports (body : Port -> I -> Js I unit) :
  (forall p i, preserves P (body p i)) -> preserves P (for_of_ports body).
Proof.
  intros Hb. unfold for_of_ports.
  apply preserves_bind; [apply preserves_read|]. intros ks.
  apply preserves_for_each. intros p.
  apply preserves_bind; [apply preserves_read|]. intros [i|]; auto.
  apply preserves_ret.
Qed.



Lemma preserves_postMessage p m :
  (forall w x, P w -> P (set_outbox x w)) -> preserves P (postMessage p m).
Proof.
  intros Ho w H. unfold postMessage. destruct (throws p w); simpl; auto.
Qed.
End Preservation.

(** ** The registry of [src/market-worker.js] *)
Module RegistryFacts.
Import MarketWorker.

Lemma checkCleanup_run (w : W) :
  checkCleanup w =
  (Normal tt, if (JsMap.size (ports w) =? 0)%nat then cleanup w else w).
Proof.
  unfold checkCleanup, cleanup, close_socket, clear_heartbeat, clear_reconnect,
    bind, read, write, ret, clearTimeout, clearInterval, socket_close, write.
  destruct (JsMap.size (ports w) =? 0)%nat; [|reflexivity].
  destruct (reconnectTimeout w), (heartbeatInterval w) eqn:Eh, (ws w) eqn:Ew;
    simpl; rewrite ?Eh, ?Ew; simpl; rewrite ?Ew; reflexivity.
Qed.

Lemma removePort_run port (w : W) :
  removePort port w = (Normal tt, without_port port w).
Proof.
  unfold removePort, without_port, bind, read, write.
  destruct (JsMap.has Nat.eqb port (ports w)); [|reflexivity].
  now rewrite checkCleanup_run.
Qed.
End RegistryFacts.

(** ** The invariant holds in every reachable world *)
Module InvariantFacts.
Import MarketWorker RegistryFacts.

Lemma in_unschedule t x l :
  In x (unschedule t l) <-> In x l /\ timer_id x <> t.
Proof.
  unfold unschedule. rewrite filter_In. rewrite negb_true_iff, Pos.eqb_neq. tauto.
Qed.

(** [Inv] reads seven of the fields only. *)
Lemma Inv_frame (w w' : W) :
  batchTimer w' = batchTimer w -> pendingUpdates w' = pendingUpdates w ->
  timers w' = timers w -> nextTimerId w' = nextTimerId w ->
  heartbeatInterval w' = heartbeatInterval w ->
  reconnectTimeout w' = reconnectTimeout w ->
  JsMap.keys (ports w') = JsMap.keys (ports w) ->
  Inv w -> Inv w'.
Proof.
  intros E1 E2 E3 E4 E5 E6 E7 [].
  constructor; rewrite ?E1, ?E2, ?E3, ?E4, ?E5, ?E6, ?E7; assumption.
Qed.

Lemma Inv_initial bad : Inv (initial bad).
Proof.
  constructor; simpl; try tauto; try discriminate.
  - constructor.
  - intros t [H|[H|H]]; discriminate.
Qed.

Lemma Inv_set_ports ps (w : W) :
  NoDup (JsMap.keys ps) -> Inv w -> Inv (set_ports ps w).
Proof. intros N []. constructor; simpl; assumption. Qed.

(** Clearing a timer keeps the invariant as long as the handle of a kind
    that must have one is not left without. *)
Lemma Inv_clear_reconnect t (w : W) :
  Inv w -> Inv (set_reconnectTimeout None (set_timers (unschedule t (timers w)) w)).
Proof.
  intros []. constructor; simpl; auto.
  - intros x Hx. apply in_unschedule in Hx. destruct Hx. auto.
  - intros x Hx. apply in_unschedule in Hx. destruct Hx. auto.
  - intros x Hx. apply in_unschedule in Hx. destruct Hx. auto.
  - intros u [H|[H|H]]; [eauto | eauto | discriminate].
  - intros x Hx. apply in_unschedule in Hx. destruct Hx as [Hx _].
    destruct (inv_kind0 x Hx) as (A & B & C). repeat split; auto. discriminate.
  - intros x Hx. apply in_unschedule in Hx. destruct Hx. auto.
Qed.

Lemma Inv_clear_heartbeat t (w : W) :
  heartbeatInterval w = Some t ->
  Inv w -> Inv (set_heartbeatInterval None (set_timers (unschedule t (timers w)) w)).
Proof.
  intros E []. constructor; simpl; auto.
  - intros x Hx. apply in_unschedule in Hx. destruct Hx. auto.
  - intros x Hx. apply in_unschedule in Hx. destruct Hx. auto.
  - intros x Hx Hc. apply in_unschedule in Hx. destruct Hx as [Hx Hn].
    specialize (inv_heartbeat0 x Hx Hc). congruence.
  - intros u [H|[H|H]]; [eauto | discriminate | eauto].
  - intros x Hx. apply in_unschedule in Hx. destruct Hx as [Hx _].
    destruct (inv_kind0 x Hx) as (A & B & C). repeat split; auto. discriminate.
  - intros x Hx. apply in_unschedule in Hx. destruct Hx. auto.
Qed.

Lemma Inv_cleanup (w : W) : Inv w -> Inv (cleanup w).
Proof.
  intros H. unfold cleanup.
  assert (Inv (clear_reconnect w)) as H1.
  { unfold clear_reconnect. destruct (reconnectTimeout w); auto using Inv_clear_reconnect. }
  assert (Inv (clear_heartbeat (clear_reconnect w))) as H2.
  { unfold clear_heartbeat at 1.
    destruct (heartbeatInterval (clear_reconnect w)) eqn:E; auto using Inv_clear_heartbeat. }
  unfold close_socket. destruct (ws _); auto.
  eapply Inv_frame; [..|exact H2]; reflexivity.
Qed.

Lemma Inv_without_port port (w : W) : Inv w -> Inv (without_port port w).
Proof.
  intros H. unfold without_port.
  destruct (JsMap.has Nat.eqb port (ports w)); auto.
  assert (Inv (set_ports (JsMap.delete Nat.eqb port (ports w)) w)) as H1.
  { apply Inv_set_ports; auto.
    apply JsMapFacts.nodup_delete. apply H. }
  destruct (_ =? 0)%nat; auto using Inv_cleanup.
Qed.

Lemma removePort_Inv port : preserves Inv (removePort port).
Proof. intros w H. rewrite removePort_run. simpl. now apply Inv_without_port. Qed.

Lemma postMessage_Inv port m : preserves Inv (postMessage port m).
Proof.
  apply preserves_postMessage. intros w x H.
  eapply Inv_frame; [..|exact H]; reflexivity.
Qed.

Lemma broadcast_Inv m : preserves Inv (broadcast m).
Proof.
  unfold broadcast. apply preserves_for_of_ports. intros. apply postMessage_Inv.
Qed.

Lemma broadcast_preserves (P : W -> Prop) m :
  (forall w x, P w -> P (set_outbox x w)) -> preserves P (broadcast m).
Proof.
  intros H. unfold broadcast. apply preserves_for_of_ports. intros.
  now apply preserves_postMessage.
Qed.

Lemma preserves_bind_read {A B} (P : W -> Prop) (f : W -> A) (k : A -> M B) :
  (forall w, P w -> P (snd (k (f w) w))) -> preserves P (bind (read f) k).
Proof. intros H w Hw. unfold bind, read. now apply H. Qed.

Lemma Inv_unschedule t (w : W) :
  Inv w -> Inv (set_timers (unschedule t (timers w)) w).
Proof.
  intros []. constructor; simpl; auto;
    intros x Hx; apply in_unschedule in Hx; destruct Hx; auto.
Qed.

Lemma NoFlush_unschedule t (w : W) :
  Inv w -> batchTimer w = Some t ->
  NoFlush (set_timers (unschedule t (timers w)) w).
Proof.
  intros H E x Hx Hc. simpl in Hx. apply in_unschedule in Hx. destruct Hx as [Hx Hn].
  pose proof (inv_flush w H x Hx Hc). congruence.
Qed.

Lemma flushBatch_Inv (w : W) : Inv w -> NoFlush w -> Inv (snd (flushBatch w)).
Proof.
  intros H N. unfold flushBatch.
  unfold bind at 1. unfold read at 1.
  destruct (JsMap.size (pendingUpdates w) =? 0)%nat; [exact H|].
  unfold bind at 1. unfold Date_now at 1. unfold read at 1.
  unfold bind at 1.
  pose proof (broadcast_preserves (fun w => Inv w /\ NoFlush w)
                (MUpdate (JsMap.values (pendingUpdates w)) (clock w))) as B.
  specialize (B ltac:(intros v x [Hv Nv]; split;
                      [eapply Inv_frame; [..|exact Hv]; reflexivity | exact Nv]) w
                (conj H N)).
  destruct (broadcast _ w) as [[[]|] w1]; simpl in B; destruct B as [H1 N1];
    [|exact H1].
  unfold bind, write. simpl.
  destruct H1. constructor; simpl; auto.
  - intros x Hx Hc. destruct (N1 x Hx Hc).
  - intros t [E|[E|E]]; [discriminate| |]; eauto.
  - intros x Hx. destruct (inv_kind0 x Hx) as (A & B & C).
    repeat split; auto. discriminate.
Qed.

Lemma offer_loop (rows : list Row) : forall w : W,
  for_each rows (fun row =>
    write (fun w => set_pendingUpdates
             (JsMap.set String.eqb (symbol row) row (pendingUpdates w)) w)) w
  = (Normal tt, set_pendingUpdates (offer_all rows (pendingUpdates w)) w).
Proof.
  induction rows as [|r rows IH]; intros w; simpl.
  - destruct w; reflexivity.
  - unfold bind at 1. unfold write at 1. rewrite IH. reflexivity.
Qed.

Lemma ws_onmessage_update rows ts (w : W) :
  ws_onmessage (MUpdate rows ts) w = (Normal tt, after_update rows w).
Proof.
  unfold ws_onmessage, after_update. unfold bind at 1. rewrite offer_loop.
  unfold scheduleBatch, bind, read, write, setTimeout, schedule. simpl.
  destruct (batchTimer w); reflexivity.
Qed.

Lemma Inv_after_update rows (w : W) : Inv w -> Inv (after_update rows w).
Proof.
  intros H. unfold after_update. destruct (batchTimer w) eqn:E.
  - destruct H. constructor; simpl; auto. congruence.
  - destruct H. constructor; simpl; auto.
    + discriminate.
    + intros x Hx. apply in_app_or in Hx. destruct Hx as [Hx|[<-|[]]]; simpl.
      * specialize (inv_fresh0 x Hx). lia.
      * lia.
    + intros x Hx Hc. apply in_app_or in Hx. destruct Hx as [Hx|[<-|[]]]; simpl; auto.
      specialize (inv_flush0 x Hx Hc). congruence.
    + intros x Hx Hc. apply in_app_or in Hx. destruct Hx as [Hx|[<-|[]]]; simpl; auto.
      discriminate.
    + intros t [H|[H|H]].
      * inversion H; subst. lia.
      * specialize (inv_handles0 t (or_intror (or_introl H))). lia.
      * specialize (inv_handles0 t (or_intror (or_intror H))). lia.
    + intros x Hx. apply in_app_or in Hx. destruct Hx as [Hx|[<-|[]]]; simpl.
      * destruct (inv_kind0 x Hx) as (A & B & C). repeat split; auto.
        intros H. inversion H. specialize (inv_fresh0 x Hx). lia.
      * repeat split; auto.
        -- intros H. specialize (inv_handles0 _ (or_intror (or_introl H))). lia.
        -- intros H. specialize (inv_handles0 _ (or_intror (or_intror H))). lia.
    + intros x Hx. apply in_app_or in Hx. destruct Hx as [Hx|[<-|[]]]; simpl; auto.
Qed.

Lemma Inv_schedule_reconnect (w : W) :
  Inv w ->
  Inv (set_reconnectTimeout (Some (nextTimerId w))
         (snd (setTimeout Reconnect 2000 w))).
Proof.
  intros H. destruct H. constructor; simpl; auto.
  - intros x Hx. apply in_app_or in Hx. destruct Hx as [Hx|[<-|[]]]; simpl.
    + specialize (inv_fresh0 x Hx). lia.
    + lia.
  - intros x Hx Hc. apply in_app_or in Hx. destruct Hx as [Hx|[<-|[]]]; simpl; auto.
    discriminate.
  - intros x Hx Hc. apply in_app_or in Hx. destruct Hx as [Hx|[<-|[]]]; simpl; auto.
    discriminate.
  - intros t [H|[H|H]].
    + specialize (inv_handles0 t (or_introl H)). lia.
    + specialize (inv_handles0 t (or_intror (or_introl H))). lia.
    + inversion H; subst. lia.
  - intros x Hx. apply in_app_or in Hx. destruct Hx as [Hx|[<-|[]]]; simpl.
    + destruct (inv_kind0 x Hx) as (A & B & C). repeat split; auto.
      intros H. inversion H. specialize (inv_fresh0 x Hx). lia.
    + repeat split; auto.
      * intros H. specialize (inv_handles0 _ (or_introl H)). lia.
      * intros H. specialize (inv_handles0 _ (or_intror (or_introl H))). lia.
  - intros x Hx. apply in_app_or in Hx. destruct Hx as [Hx|[<-|[]]]; simpl; auto.
Qed.

Lemma Inv_schedule_heartbeat (w : W) :
  Inv w -> heartbeatInterval w = None ->
  Inv (set_heartbeatInterval (Some (nextTimerId w))
         (snd (setInterval Heartbeat 10000 w))).
Proof.
  intros H E. destruct H. constructor; simpl; auto.
  - intros x Hx. apply in_app_or in Hx. destruct Hx as [Hx|[<-|[]]]; simpl.
    + specialize (inv_fresh0 x Hx). lia.
    + lia.
  - intros x Hx Hc. apply in_app_or in Hx. destruct Hx as [Hx|[<-|[]]]; simpl; auto.
    discriminate.
  - intros x Hx Hc. apply in_app_or in Hx. destruct Hx as [Hx|[<-|[]]]; simpl; auto.
    specialize (inv_heartbeat0 x Hx Hc). congruence.
  - intros t [H|[H|H]].
    + specialize (inv_handles0 t (or_introl H)). lia.
    + inversion H; subst. lia.
    + specialize (inv_handles0 t (or_intror (or_intror H))). lia.
  - intros x Hx. apply in_app_or in Hx. destruct Hx as [Hx|[<-|[]]]; simpl.
    + destruct (inv_kind0 x Hx) as (A & B & C). repeat split; auto.
      intros H. inversion H. specialize (inv_fresh0 x Hx). lia.
    + repeat split; auto.
      * intros H. specialize (inv_handles0 _ (or_introl H)). lia.
      * intros H. specialize (inv_handles0 _ (or_intror (or_intror H))). lia.
  - intros x Hx. apply in_app_or in Hx. destruct Hx as [Hx|[<-|[]]]; simpl; auto.
Qed.

Lemma connect_Inv : preserves Inv connect.
Proof.
  intros w H. unfold connect, bind, new_WebSocket, write. simpl.
  eapply Inv_frame; [..|exact H]; reflexivity.
Qed.

Lemma startHeartbeatMonitoring_Inv : preserves Inv startHeartbeatMonitoring.
Proof.
  intros w H. unfold startHeartbeatMonitoring.
  unfold bind at 1. unfold read at 1.
  destruct (heartbeatInterval w) eqn:E; [exact H|].
  now apply Inv_schedule_heartbeat.
Qed.

Lemma ws_onmessage_Inv message : preserves Inv (ws_onmessage message).
Proof.
  destruct message;
    try (apply broadcast_Inv);
    try (intros w H; rewrite ws_onmessage_update; now apply Inv_after_update).
  unfold ws_onmessage. apply preserves_bind; [|intros; apply broadcast_Inv].
  apply preserves_write. intros w H. eapply Inv_frame; [..|exact H]; reflexivity.
Qed.

Lemma ws_onclose_Inv : preserves Inv ws_onclose.
Proof.
  unfold ws_onclose.
  apply preserves_bind; [apply broadcast_Inv|]. intros _.
  apply preserves_bind_read. intros w H.
  assert (preserves Inv
            (ps <- read ports ;;
             if (0 <? JsMap.size ps)%nat
             then t <- setTimeout Reconnect 2000 ;; write (set_reconnectTimeout (Some t))
             else write (set_ws None))%js) as T.
  { apply preserves_bind_read. intros v Hv.
    destruct (0 <? _)%nat.
    - now apply Inv_schedule_reconnect.
    - simpl. eapply Inv_frame; [..|exact Hv]; reflexivity. }
  apply preserves_bind_at; auto.
  destruct (batchTimer w) as [t|] eqn:E; [|exact H].
  unfold bind, clearTimeout, write.
  apply flushBatch_Inv.
  - now apply Inv_unschedule.
  - now apply NoFlush_unschedule.
Qed.

Lemma heartbeat_tick_Inv : preserves Inv heartbeat_tick.
Proof.
  unfold heartbeat_tick, sendHeartbeats, checkHeartbeats.
  apply preserves_bind.
  - apply preserves_for_of_ports. intros p i.
    apply preserves_try_catch; [apply postMessage_Inv | apply removePort_Inv].
  - intros _. apply preserves_bind; [apply preserves_read|]. intros now.
    apply preserves_for_of_ports. intros p i.
    destruct (_ <? _); [apply removePort_Inv | apply preserves_ret].
Qed.

Lemma Inv_set_port port info (w : W) :
  Inv w -> Inv (set_ports (JsMap.set Nat.eqb port info (ports w)) w).
Proof.
  intros H. apply Inv_set_ports; auto.
  apply (JsMapFacts.nodup_set Nat.eqb Nat.eqb_spec). apply H.
Qed.

Lemma onconnect_Inv port : preserves Inv (onconnect port).
Proof.
  unfold onconnect.
  apply preserves_bind; [apply preserves_read|]. intros portId.
  apply preserves_bind.
  { apply preserves_write. intros w H. eapply Inv_frame; [..|exact H]; reflexivity. }
  intros _. apply preserves_bind; [apply preserves_read|]. intros now.
  apply preserves_bind.
  { apply preserves_write. intros w H. now apply Inv_set_port. }
  intros _. apply preserves_bind; [apply preserves_read|]. intros [s|].
  - apply preserves_bind; [apply preserves_read|]. intros lid.
    apply preserves_bind.
    { destruct lid; [apply postMessage_Inv | apply preserves_ret]. }
    intros _. apply preserves_bind; [apply preserves_read|]. intros up.
    apply postMessage_Inv.
  - apply preserves_bind; [apply connect_Inv|]. intros _.
    apply startHeartbeatMonitoring_Inv.
Qed.

Lemma socket_send_Inv s c : preserves Inv (socket_send s c).
Proof.
  intros w H. unfold socket_send.
  destruct (socket_state s w) as [[]|]; simpl; auto.
  eapply Inv_frame; [..|exact H]; reflexivity.
Qed.

Lemma port_onmessage_Inv port data : preserves Inv (port_onmessage port data).
Proof.
  unfold port_onmessage.
  apply preserves_bind; [apply preserves_read|]. intros ps.
  destruct (JsMap.get Nat.eqb port ps) as [portInfo|]; [|apply preserves_ret].
  destruct data; try apply preserves_ret.
  - apply preserves_bind; [apply preserves_read|]. intros now.
    apply preserves_write. intros w H. now apply Inv_set_port.
  - apply removePort_Inv.
  - apply preserves_bind; [apply preserves_read|]. intros s.
    apply preserves_bind; [apply preserves_read|]. intros up.
    apply preserves_bind.
    { destruct s, up; try apply preserves_ret. apply socket_send_Inv. }
    intros _. apply preserves_for_of_ports. intros p i.
    destruct (negb _); [apply postMessage_Inv | apply preserves_ret].
  - apply preserves_bind; [apply preserves_read|]. intros s.
    apply preserves_bind; [apply preserves_read|]. intros up.
    apply preserves_bind.
    { destruct s, up; try apply preserves_ret. apply socket_send_Inv. }
    intros _. apply preserves_for_of_ports. intros p i.
    destruct (negb _); [apply postMessage_Inv | apply preserves_ret].
Qed.

Lemma find_timer_some t l x :
  find_timer t l = Some x -> In x l /\ timer_id x = t.
Proof.
  unfold find_timer. intros H. apply find_some in H.
  destruct H as [H1 H2]. apply Pos.eqb_eq in H2. auto.
Qed.

Lemma fire_Inv t : preserves Inv (fire t).
Proof.
  unfold fire. apply preserves_bind_read. intros w H.
  destruct (find_timer t (timers w)) as [x|] eqn:F; [|exact H].
  apply find_timer_some in F. destruct F as [Hx Ht].
  destruct (inv_shape w H x Hx) as [Hr _].
  destruct (callback x) eqn:C; rewrite Hr.
  - (* the flush of the batch *)
    unfold bind at 1. unfold write at 1. simpl run_callback.
    pose proof (inv_flush w H x Hx C) as E. rewrite Ht in E.
    apply flushBatch_Inv.
    + now apply Inv_unschedule.
    + now apply NoFlush_unschedule.
  - apply preserves_bind_at; [|intros; apply connect_Inv].
    simpl. now apply Inv_unschedule.
  - apply preserves_bind_at; [exact H|]. intros _. apply heartbeat_tick_Inv.
Qed.

Lemma Inv_set_clock now (w : W) : Inv w -> Inv (set_clock now w).
Proof. intros H. eapply Inv_frame; [..|exact H]; reflexivity. Qed.

Lemma dispatch_Inv e : preserves Inv (dispatch e).
Proof.
  destruct e; simpl.
  - apply onconnect_Inv.
  - apply port_onmessage_Inv.
  - apply preserves_bind; [|intros; apply broadcast_Inv].
    apply preserves_write. intros w H. eapply Inv_frame; [..|exact H]; reflexivity.
  - apply ws_onmessage_Inv.
  - apply preserves_bind; [|intros; apply ws_onclose_Inv].
    apply preserves_write. intros w H. eapply Inv_frame; [..|exact H]; reflexivity.
  - apply fire_Inv.
Qed.

Lemma step_Inv (w : W) te : Inv w -> Inv (step w te).
Proof. intros H. unfold step. apply dispatch_Inv. now apply Inv_set_clock. Qed.

Lemma run_Inv trace : forall w : W, Inv w -> Inv (run w trace).
Proof.
  induction trace as [|te r IH]; intros w H; simpl; auto.
  apply IH. now apply step_Inv.
Qed.

Theorem reachable_Inv (w : W) : reachable w -> Inv w.
Proof.
  intros (bad & trace & ->). apply run_Inv. apply Inv_initial.
Qed.

Lemma reachable_step (w : W) te : reachable w -> reachable (step w te).
Proof.
  intros (bad & trace & ->). exists bad, (trace ++ [te]).
  unfold run. now rewrite fold_left_app.
Qed.

Lemma reachable_run (w : W) trace : reachable w -> reachable (run w trace).
Proof.
  intros (bad & tr & ->). exists bad, (tr ++ trace).
  unfold run. now rewrite fold_left_app.
Qed.
End InvariantFacts.

(** ** The coalescer *)
Module CoalescerFacts.
Import MarketWorker MarketWorkerFacts InvariantFacts.

Lemma keyed_set r m : keyed m -> keyed (JsMap.set String.eqb (symbol r) r m).
Proof.
  unfold keyed. induction m as [|[a b] m IH]; simpl; intros H k x Hx.
  - destruct Hx as [Hx|[]]. now inversion Hx.
  - destruct (String.eqb (symbol r) a).
    + destruct Hx as [Hx|Hx]; [now inversion Hx | eauto].
    + destruct Hx as [Hx|Hx]; [eauto|]. apply IH; auto.
Qed.

Lemma keyed_offer_all rows : forall m, keyed m -> keyed (offer_all rows m).
Proof.
  induction rows as [|r rows IH]; intros m H; simpl; auto.
  apply IH. now apply keyed_set.
Qed.

Lemma nodup_offer_all rows : forall m,
  NoDup (JsMap.keys m) -> NoDup (JsMap.keys (offer_all rows m)).
Proof.
  induction rows as [|r rows IH]; intros m H; simpl; auto.
  apply IH. now apply (JsMapFacts.nodup_set String.eqb String.eqb_spec).
Qed.

Lemma find_snoc {A} (f : A -> bool) l a :
  find f (l ++ [a]) =
  match find f l with Some x => Some x | None => if f a then Some a else None end.
Proof.
  induction l as [|b l IH]; simpl; auto. destruct (f b); auto.
Qed.

Lemma get_set_row s r m :
  JsMap.get String.eqb s (JsMap.set String.eqb (symbol r) r m) =
  if String.eqb s (symbol r) then Some r else JsMap.get String.eqb s m.
Proof.
  destruct (String.eqb_spec s (symbol r)) as [->|N].
  - apply (JsMapFacts.get_set_same String.eqb String.eqb_spec).
  - now apply (JsMapFacts.get_set_other String.eqb String.eqb_spec).
Qed.

(** Last write wins: the pending entry of a symbol is the last row offered
    for it, or what was pending before when none was. *)
Lemma get_offer_all s rows : forall m,
  JsMap.get String.eqb s (offer_all rows m) =
  match last_offer s rows with
  | Some r => Some r
  | None => JsMap.get String.eqb s m
  end.
Proof.
  unfold last_offer.
  induction rows as [|r rows IH]; intros m; simpl; auto.
  rewrite IH, find_snoc, get_set_row.
  destruct (find _ (rev rows)); auto.
  destruct (String.eqb s (symbol r)); auto.
Qed.

Lemma batch_row_values s m :
  keyed m -> batch_row s (JsMap.values m) = JsMap.get String.eqb s m.
Proof.
  unfold batch_row, keyed.
  induction m as [|[k r] m IH]; simpl; intros H; auto.
  rewrite (H k r (or_introl eq_refl)).
  destruct (String.eqb s k); auto.
Qed.

Lemma symbols_values m : keyed m -> map symbol (JsMap.values m) = JsMap.keys m.
Proof.
  unfold keyed. induction m as [|[k r] m IH]; simpl; intros H; auto.
  rewrite (H k r (or_introl eq_refl)). f_equal. auto.
Qed.

Lemma offer_all_app a b m : offer_all (a ++ b) m = offer_all b (offer_all a m).
Proof. unfold offer_all. apply fold_left_app. Qed.

Lemma set_not_empty {K V} (eqb : K -> K -> bool) k (v : V) m :
  JsMap.set eqb k v m <> [].
Proof. destruct m as [|[a b] m]; simpl; [|destruct (eqb k a)]; discriminate. Qed.

Lemma offer_all_not_empty rows : forall m, m <> [] -> offer_all rows m <> [].
Proof.
  induction rows as [|r rows IH]; intros m H; simpl; auto.
  apply IH. apply set_not_empty.
Qed.

Lemma offer_all_pending rows m : rows <> [] -> offer_all rows m <> [].
Proof.
  destruct rows as [|r rows]; [congruence|]. intros _. simpl.
  apply offer_all_not_empty. apply set_not_empty.
Qed.

Lemma step_update (w : W) t s rows ts :
  step w (t, SocketMessage s (MUpdate rows ts)) = after_update rows (set_clock t w).
Proof. unfold step. cbn [fst snd dispatch]. now rewrite ws_onmessage_update. Qed.

Lemma is_update_inv te :
  is_update te = true ->
  exists t s rows ts, te = (t, SocketMessage s (MUpdate rows ts)).
Proof.
  destruct te as [t e]. unfold is_update, update_rows. simpl.
  destruct e as [| | |s m| |]; try discriminate.
  destruct m; try discriminate. intros _. eauto.
Qed.

(** While the flush is scheduled, [update] messages only add to the pending
    map: nothing is posted, no timer is added. *)
Lemma open_window_run trace : forall (w : W) t,
  batchTimer w = Some t -> forallb is_update trace = true ->
  batchTimer (run w trace) = Some t /\
  timers (run w trace) = timers w /\
  nextTimerId (run w trace) = nextTimerId w /\
  ports (run w trace) = ports w /\
  outbox (run w trace) = outbox w /\
  broken (run w trace) = broken w /\
  pendingUpdates (run w trace) = offer_all (offers trace) (pendingUpdates w).
Proof.
  induction trace as [|te trace IH]; intros w t E U.
  - simpl. auto 10.
  - simpl in U. apply andb_prop in U. destruct U as [U1 U2].
    apply is_update_inv in U1. destruct U1 as (t0 & s & rows & ts & ->).
    simpl run. rewrite step_update.
    assert (batchTimer (after_update rows (set_clock t0 w)) = Some t) as E'.
    { unfold after_update. simpl. now rewrite E. }
    destruct (IH _ t E' U2) as (A & B & C & D & F & G & H).
    rewrite A, B, C, D, F, G, H.
    unfold offers. simpl. fold (offers trace). rewrite offer_all_app.
    unfold after_update. simpl. rewrite E. simpl. auto 10.
Qed.

Lemma find_timer_fresh t x l :
  (forall y, In y l -> (timer_id y < t)%positive) -> timer_id x = t ->
  find_timer t (l ++ [x]) = Some x.
Proof.
  intros H E. unfold find_timer. rewrite find_snoc.
  replace (find _ l) with (@None Timer).
  - now rewrite E, Pos.eqb_refl.
  - symmetry. destruct (find _ l) as [y|] eqn:F; auto.
    apply find_some in F. destruct F as [F1 F2]. apply Pos.eqb_eq in F2.
    specialize (H y F1). lia.
Qed.

Lemma unschedule_fresh t x l :
  (forall y, In y l -> (timer_id y < t)%positive) -> timer_id x = t ->
  unschedule t (l ++ [x]) = l.
Proof.
  intros H E. unfold unschedule. rewrite filter_app. simpl.
  rewrite E, Pos.eqb_refl. simpl. rewrite app_nil_r.
  induction l as [|y l IH]; simpl; auto.
  replace (timer_id y =? t)%positive with false.
  - simpl. f_equal. apply IH. intros z Hz. apply H. now right.
  - symmetry. apply Pos.eqb_neq. specialize (H y (or_introl eq_refl)). lia.
Qed.

(** A window opened from the idle coalescer by a trace of [update]
    messages: its state just before the timer fires. *)
Lemma window_before_flush (w : W) trace :
  reachable w -> batchTimer w = None ->
  forallb is_update trace = true -> trace <> [] ->
  let w1 := run w trace in
  batchTimer w1 = Some (nextTimerId w) /\
  (exists x, timers w1 = timers w ++ [x] /\ timer_id x = nextTimerId w /\
             callback x = FlushBatch /\ repeating x = false /\
             delay x = BATCH_INTERVAL) /\
  ports w1 = ports w /\ outbox w1 = outbox w /\ broken w1 = broken w /\
  pendingUpdates w1 = offer_all (offers trace) [].
Proof.
  intros R E U N. destruct trace as [|te trace]; [congruence|]. clear N.
  simpl in U. apply andb_prop in U. destruct U as [U1 U2].
  apply is_update_inv in U1. destruct U1 as (t0 & s & rows & ts & ->).
  cbv zeta. simpl run. rewrite step_update.
  pose proof (inv_idle w (reachable_Inv w R) E) as P.
  assert (batchTimer (after_update rows (set_clock t0 w)) = Some (nextTimerId w)) as E'.
  { unfold after_update. simpl. now rewrite E. }
  destruct (open_window_run trace _ _ E' U2) as (A & B & C & D & F & G & H).
  rewrite A, B, D, F, G, H.
  unfold offers. simpl. fold (offers trace). rewrite offer_all_app.
  unfold after_update. simpl. rewrite E, P. simpl.
  repeat split; auto.
  eexists. split; [reflexivity|]. simpl. auto.
Qed.

(** The flush of a window: the world after the timer fired at [tf]. *)
Lemma window_flush (w w1 : W) x tf :
  healthy w ->
  (forall y, In y (timers w) -> (timer_id y < timer_id x)%positive) ->
  timers w1 = timers w ++ [x] -> callback x = FlushBatch -> repeating x = false ->
  ports w1 = ports w -> broken w1 = broken w ->
  pendingUpdates w1 <> [] ->
  let w2 := step w1 (tf, TimerFires (timer_id x)) in
  outbox w2 = outbox w1 ++
              map (fun p => (p, MUpdate (JsMap.values (pendingUpdates w1)) tf))
                  (JsMap.keys (ports w)) /\
  batchTimer w2 = None /\ pendingUpdates w2 = [] /\ timers w2 = timers w /\
  ports w2 = ports w.
Proof.
  intros Hh Hf Ht Hc Hr Hp Hb Hn. cbv zeta.
  set (w' := set_timers (timers w) (set_clock tf w1)).
  assert (step w1 (tf, TimerFires (timer_id x)) =
          set_batchTimer None (set_pendingUpdates []
            (set_outbox (outbox w1 ++
               map (fun p => (p, MUpdate (JsMap.values (pendingUpdates w1)) tf))
                   (JsMap.keys (ports w))) w'))) as E.
  { unfold step. cbn [fst snd dispatch]. unfold fire.
    unfold bind at 1. unfold read at 1.
    cbn [timers set_clock]. rewrite Ht.
    rewrite (find_timer_fresh (timer_id x) x (timers w) Hf eq_refl).
    rewrite Hr, Hc. cbn [run_callback].
    unfold bind at 1. unfold write at 1. cbn [timers set_clock]. rewrite Ht.
    rewrite (unschedule_fresh (timer_id x) x (timers w) Hf eq_refl).
    fold w'.
    unfold flushBatch. unfold bind at 1. unfold read at 1.
    replace (pendingUpdates w') with (pendingUpdates w1) by reflexivity.
    destruct (pendingUpdates w1) as [|e m] eqn:Ep; [congruence|].
    cbn [JsMap.size length Nat.eqb].
    unfold bind at 1. unfold Date_now, read at 1.
    replace (clock w') with tf by reflexivity.
    unfold bind at 1. rewrite broadcast_ok.
    - unfold bind, write. cbn. rewrite Hp. reflexivity.
    - intros p Hq. unfold w', throws in *. cbn in *. rewrite Hb.
      apply Hh. now rewrite <- Hp. }
  rewrite E. cbn. auto.
Qed.

(** A window opened by [update] messages without rows: the timer fires,
    [flushBatch] returns at its first line, nothing is posted.  The handle
    stays in [batchTimer], although its timer is gone. *)
Lemma empty_window_emits_nothing (w : W) trace tf :
  reachable w -> batchTimer w = None ->
  forallb is_update trace = true -> trace <> [] -> offers trace = [] ->
  let w2 := step (run w trace) (tf, TimerFires (nextTimerId w)) in
  outbox w2 = outbox w /\ timers w2 = timers w /\
  pendingUpdates w2 = [] /\ batchTimer w2 = Some (nextTimerId w).
Proof.
  intros R E U Nt O. cbv zeta.
  destruct (window_before_flush w trace R E U Nt)
    as (A & (x & Tx & Ix & Cx & Rx & _) & P & Ob & B & Pd).
  pose proof (inv_fresh w (reachable_Inv w R)) as F.
  rewrite <- Ix in F |- *.
  rewrite O in Pd. simpl in Pd.
  assert (step (run w trace) (tf, TimerFires (timer_id x)) =
          set_timers (timers w) (set_clock tf (run w trace))) as S.
  { unfold step. cbn [fst snd dispatch]. unfold fire.
    unfold bind at 1. unfold read at 1.
    cbn [timers set_clock]. rewrite Tx.
    rewrite (find_timer_fresh (timer_id x) x (timers w) F eq_refl).
    rewrite Rx, Cx. cbn [run_callback].
    unfold bind at 1. unfold write at 1. cbn [timers set_clock]. rewrite Tx.
    rewrite (unschedule_fresh (timer_id x) x (timers w) F eq_refl).
    unfold flushBatch. unfold bind at 1. unfold read at 1.
    cbn [pendingUpdates set_timers set_clock]. rewrite Pd. reflexivity. }
  rewrite S. cbn. rewrite A, Ix. auto.
Qed.

(** After such a window the handle left in [batchTimer] makes
    [scheduleBatch] return at once: the next rows stay pending with no flush
    scheduled (until [ws.onclose] forces one). *)
Lemma offers_after_empty_window_wait :
  let w := run two_tabs
             [(20, SocketMessage 0%nat (MUpdate [] 20)); (37, TimerFires 2%positive);
              (40, SocketMessage 0%nat (MUpdate [aapl 101] 40))] in
  pendingUpdates w = [("AAPL"%string, aapl 101)] /\
  batchTimer w = Some 2%positive /\
  timers w = [Build_Timer 1%positive Heartbeat 10000 true 0] /\
  outbox w = outbox two_tabs.
Proof. vm_compute. auto. Qed.

(** Two maps with the same entry for every key hold the same values. *)
Lemma same_entries_perm (m1 m2 : list (string * Row)) :
  NoDup (JsMap.keys m1) -> NoDup (JsMap.keys m2) ->
  (forall s, JsMap.get String.eqb s m1 = JsMap.get String.eqb s m2) ->
  Permutation (JsMap.values m1) (JsMap.values m2).
Proof.
  intros D1 D2 H. unfold JsMap.values. apply Permutation_map.
  apply NoDup_Permutation.
  - eapply NoDup_map_inv. exact D1.
  - eapply NoDup_map_inv. exact D2.
  - intros [k r]. split; intros I.
    + apply (JsMapFacts.in_get String.eqb String.eqb_spec) in I; auto.
      rewrite H in I. now apply (JsMapFacts.get_some_in String.eqb String.eqb_spec).
    + apply (JsMapFacts.in_get String.eqb String.eqb_spec) in I; auto.
      rewrite <- H in I. now apply (JsMapFacts.get_some_in String.eqb String.eqb_spec).
Qed.

(** [C1] One window of the coalescer.  From a reachable world with an idle
    coalescer and healthy ports, a trace of [update] messages carrying at
    least one row posts nothing while it runs and leaves the flush scheduled;
    when that timer fires, every attached port gets exactly one [update]
    message, the same for all, and the coalescer is idle again with no flush
    left scheduled.  The batch holds one row per symbol offered, the last one
    offered for it, and nothing for a symbol not offered; so two windows
    whose offers agree on the last row of every symbol carry the same rows
    whatever the order of the offers was. *)
Theorem coalescing_window (w : W) (trace : list (Z * Event)) (tf : Z) :
  reachable w -> healthy w -> batchTimer w = None ->
  forallb is_update trace = true -> offers trace <> [] ->
  let w1 := run w trace in
  let w2 := step w1 (tf, TimerFires (nextTimerId w)) in
  let batch := JsMap.values (offer_all (offers trace) []) in
  (batchTimer w1 = Some (nextTimerId w) /\ outbox w1 = outbox w) /\
  outbox w2 = outbox w ++ map (fun p => (p, MUpdate batch tf)) (JsMap.keys (ports w)) /\
  (batchTimer w2 = None /\ pendingUpdates w2 = [] /\ timers w2 = timers w) /\
  NoDup (map symbol batch) /\
  (forall s, batch_row s batch = last_offer s (offers trace)) /\
  (forall rows', (forall s, last_offer s rows' = last_offer s (offers trace)) ->
                 Permutation batch (JsMap.values (offer_all rows' []))).
Proof.
  intros R Hh E U N. cbv zeta.
  assert (trace <> []) as Nt by (intros ->; now apply N).
  destruct (window_before_flush w trace R E U Nt)
    as (A & (x & Tx & Ix & Cx & Rx & _) & P & O & B & Pd).
  pose proof (inv_fresh w (reachable_Inv w R)) as F.
  rewrite <- Ix in F.
  assert (pendingUpdates (run w trace) <> []) as Np.
  { rewrite Pd. now apply offer_all_pending. }
  destruct (window_flush w (run w trace) x tf Hh F Tx Cx Rx P B Np)
    as (O2 & B2 & P2 & T2 & _).
  rewrite Ix in *. rewrite O, Pd in O2.
  assert (keyed (offer_all (offers trace) [])) as K.
  { apply keyed_offer_all. intros k r []. }
  assert (NoDup (JsMap.keys (offer_all (offers trace) []))) as D.
  { apply nodup_offer_all. constructor. }
  repeat split; auto.
  - now rewrite symbols_values.
  - intros s. rewrite batch_row_values by assumption.
    rewrite get_offer_all. simpl. now destruct (last_offer s (offers trace)).
  - intros rows' L. apply same_entries_perm.
    + assumption.
    + apply nodup_offer_all. constructor.
    + intros s. rewrite !get_offer_all, L. reflexivity.
Qed.
End CoalescerFacts.

(** ** Attaching *)
Module AttachFacts.
Import MarketWorker MarketWorkerFacts InvariantFacts.

(** The first tab finds no socket and opens one. *)
Lemma onconnect_first port (w : W) :
  ws w = None ->
  connections (snd (onconnect port w)) = S (connections w) /\
  ws (snd (onconnect port w)) = Some (connections w).
Proof.
  intros E. unfold onconnect, connections, bind, read, write. simpl. rewrite E.
  unfold connect, startHeartbeatMonitoring, bind, read, write, new_WebSocket,
    setInterval, schedule. simpl.
  destruct (heartbeatInterval w); simpl; rewrite length_app; simpl; split; auto; lia.
Qed.

(** A tab that finds a socket does not open another one, whether or not
    the messages it is owed can be posted. *)
Lemma onconnect_later port (w : W) s :
  ws w = Some s ->
  sockets (snd (onconnect port w)) = sockets w /\
  ws (snd (onconnect port w)) = Some s /\
  timers (snd (onconnect port w)) = timers w.
Proof.
  intros E. unfold onconnect, bind, read, write. simpl. rewrite E.
  unfold postMessage, throws. simpl.
  destruct (lastInitialData w); simpl;
    repeat (destruct (existsb _ _); simpl); auto.
Qed.

Lemma attaches_later tabs : forall (w : W) s,
  ws w = Some s ->
  sockets (run w (attaches tabs)) = sockets w /\ ws (run w (attaches tabs)) = Some s.
Proof.
  induction tabs as [|[t p] tabs IH]; intros w s E; simpl; auto.
  change (step w (t, Connect p)) with (snd (onconnect p (set_clock t w))).
  destruct (onconnect_later p (set_clock t w) s E) as (A & B & _).
  destruct (IH _ s B) as (C & D). rewrite C, D, A. auto.
Qed.

(** [C2] Any number N >= 1 of tabs attaching one after the other to a
    worker that holds no socket (the worker as loaded, in particular)
    makes exactly one [new WebSocket] call: the first tab's; the socket it
    opened is the one [ws] names after all N. *)
Theorem one_connection_for_all_tabs (w : W) (tabs : list (Z * Port)) :
  ws w = None -> tabs <> [] ->
  connections (run w (attaches tabs)) = S (connections w) /\
  ws (run w (attaches tabs)) = Some (connections w).
Proof.
  intros E N. destruct tabs as [|[t p] tabs]; [congruence|]. clear N.
  simpl. change (step w (t, Connect p)) with (snd (onconnect p (set_clock t w))).
  destruct (onconnect_first p (set_clock t w) E) as (A & B).
  destruct (attaches_later tabs _ _ B) as (C & D).
  unfold connections in *. rewrite C, D. auto.
Qed.

(** [C5] A tab that attaches while [ws] names a socket and an [initial]
    message is cached, and whose port accepts messages, is posted the cached
    message and then [connected] if that socket is open, [disconnected]
    otherwise, before [onconnect] returns; no socket is constructed and no
    timer is scheduled by the attach. *)
Theorem late_joiner_gets_snapshot (w : W) (port : Port) (s : SocketId)
    (snapshot : Message) :
  ws w = Some s -> lastInitialData w = Some snapshot -> throws port w = false ->
  fst (onconnect port w) = Normal tt /\
  outbox (snd (onconnect port w)) =
    outbox w ++ [(port, snapshot);
                 (port, if is_open s w then MConnected else MDisconnected)] /\
  sockets (snd (onconnect port w)) = sockets w /\
  ws (snd (onconnect port w)) = Some s /\
  timers (snd (onconnect port w)) = timers w.
Proof.
  intros E L T. unfold onconnect, bind, read, write. simpl. rewrite E. simpl.
  rewrite L.
  unfold postMessage, throws in *. simpl. rewrite T. simpl. rewrite T.
  unfold ws_is_open, is_open, socket_state. simpl. rewrite E.
  rewrite <- app_assoc. simpl. auto.
Qed.
End AttachFacts.

(** ** Messages from a subscriber *)
Module PortMessageFacts.
Import MarketWorker MarketWorkerFacts InvariantFacts.

Lemma notify_loop_ok port (m : Message) (ks : list Port) : forall w : W,
  (forall p, In p ks -> In p (JsMap.keys (ports w)) /\ (p <> port -> throws p w = false)) ->
  for_each ks (fun p =>
    bind (read (fun w => JsMap.get Nat.eqb p (ports w))) (fun e =>
      match e with
      | Some _ => if negb (p =? port)%nat then postMessage p m else ret tt
      | None => ret tt
      end)) w
  = (Normal tt,
     set_outbox (outbox w ++ map (fun p => (p, m))
                   (filter (fun p => negb (p =? port)%nat) ks)) w).
Proof.
  induction ks as [|k r IH]; intros w H; simpl.
  - unfold ret. now rewrite app_nil_r, set_outbox_same.
  - destruct (H k (or_introl eq_refl)) as [Hin Hok].
    apply (JsMapFacts.in_keys_get Nat.eqb Nat.eqb_spec) in Hin.
    destruct Hin as [v Hv].
    unfold bind at 1. unfold bind at 1. unfold read at 1. rewrite Hv.
    destruct (Nat.eqb_spec k port) as [->|N]; simpl.
    + unfold ret at 1. apply IH. intros p Hp. apply H. now right.
    + rewrite (postMessage_ok _ _ _ (Hok N)).
      rewrite IH.
      * simpl. rewrite <- app_assoc. reflexivity.
      * intros p Hp. apply (H p). now right.
Qed.

Lemma notify_others_ok port m (w : W) :
  (forall p, In p (JsMap.keys (ports w)) -> p <> port -> throws p w = false) ->
  notify_others port m w =
  (Normal tt,
   set_outbox (outbox w ++ map (fun p => (p, m))
                 (filter (fun p => negb (p =? port)%nat) (JsMap.keys (ports w)))) w).
Proof.
  intros H. unfold notify_others, for_of_ports.
  unfold bind at 1. unfold read at 1.
  apply notify_loop_ok. intros p Hp. split; auto.
Qed.

(** However it completes, the loop changes the outbox only. *)
Lemma notify_others_frame port m (w : W) :
  exists ob, snd (notify_others port m w) = set_outbox ob w.
Proof.
  assert (preserves (fun v => exists ob, v = set_outbox ob w) (notify_others port m)) as P.
  { unfold notify_others. apply preserves_for_of_ports. intros p i.
    destruct (negb _); [|apply preserves_ret].
    apply preserves_postMessage. intros v x [ob ->]. now exists x. }
  apply P. exists (outbox w). symmetry. apply set_outbox_same.
Qed.

Lemma port_onmessage_command port info data c n (w : W) :
  JsMap.get Nat.eqb port (ports w) = Some info ->
  command_of data = Some c -> notice_of data = Some n ->
  port_onmessage port data w =
  bind (match ws w, ws_is_open w with
        | Some k, true => socket_send k c
        | _, _ => ret tt
        end) (fun _ => notify_others port n) w.
Proof.
  intros G C N. unfold port_onmessage.
  unfold bind at 1. unfold read at 1. rewrite G.
  destruct data; try discriminate; simpl in C, N; inversion C; inversion N; subst;
    reflexivity.
Qed.

Lemma socket_send_open k c (w : W) :
  is_open k w = true ->
  socket_send k c w =
  (Normal tt,
   set_sockets (update_nth k (fun x => Build_Socket (readyState x) (sent x ++ [c]))
                  (sockets w)) w).
Proof.
  unfold is_open, socket_send. destruct (socket_state k w) as [[]|]; try discriminate.
  reflexivity.
Qed.

(** [C10] A message on a port that is not in the map (any more) leaves the
    world as it was: the port is not added back, no timestamp moves, nothing
    is sent or posted. *)
Theorem message_from_removed_port_ignored (w : W) (port : Port) (data : PortMsg) :
  ~ In port (JsMap.keys (ports w)) ->
  port_onmessage port data w = (Normal tt, w).
Proof.
  intros H. apply (JsMapFacts.get_none_not_in Nat.eqb Nat.eqb_spec) in H.
  unfold port_onmessage, bind, read. now rewrite H.
Qed.

(** [C8] A [setFrequency] or [setBatchSize] from an attached port is
    written to the socket [ws] names exactly when that socket is open, and
    to no other socket.  When it is not open, the handler changes nothing
    but the outbox (the command is kept nowhere), and it returns normally
    when the other ports accept their notice. *)
Theorem command_relayed_iff_open (w : W) (port : Port) (info : PortInfo)
    (data : PortMsg) (c : Command) :
  JsMap.get Nat.eqb port (ports w) = Some info ->
  command_of data = Some c ->
  let r := port_onmessage port data w in
  (ws_is_open w = true ->
   exists k, ws w = Some k /\
     sockets (snd r) =
     update_nth k (fun x => Build_Socket (readyState x) (sent x ++ [c])) (sockets w)) /\
  (ws_is_open w = false ->
   sockets (snd r) = sockets w /\
   (exists ob, snd r = set_outbox ob w) /\
   ((forall p, In p (JsMap.keys (ports w)) -> p <> port -> throws p w = false) ->
    fst r = Normal tt)).
Proof.
  intros G C. cbv zeta.
  assert (exists n, notice_of data = Some n) as [n N].
  { destruct data; try discriminate; simpl; eauto. }
  rewrite (port_onmessage_command port info data c n w G C N).
  split; intros O.
  - unfold ws_is_open in O. destruct (ws w) as [k|] eqn:E; [|discriminate].
    exists k. split; auto. unfold bind.
    unfold ws_is_open. rewrite E, O. rewrite (socket_send_open k c w O).
    destruct (notify_others_frame port n
                (set_sockets (update_nth k
                   (fun x => Build_Socket (readyState x) (sent x ++ [c])) (sockets w)) w))
      as [ob ->].
    reflexivity.
  - unfold bind. rewrite O.
    assert ((match ws w with Some _ => ret tt | None => ret tt end) w
            = (Normal tt, w)) as R' by (destruct (ws w); reflexivity).
    rewrite R'.
    destruct (notify_others_frame port n w) as [ob Hob].
    rewrite Hob. repeat split; eauto.
    intros H. now rewrite (notify_others_ok port n w H).
Qed.

Lemma others_exclude port (n : Message) ks :
  filter (fun pm : Port * Message => (fst pm =? port)%nat)
    (map (fun p => (p, n)) (filter (fun p => negb (p =? port)%nat) ks)) = [].
Proof.
  induction ks as [|k ks IH]; simpl; auto.
  destruct (k =? port)%nat eqn:E; simpl; auto. now rewrite E.
Qed.

(** [C9] A [setFrequency] or [setBatchSize] from an attached port posts
    the matching [frequencyChanged] or [batchSizeChanged] notice to every
    other attached port, in map order, and nothing to the sender; this holds
    in every state of the socket, given that the other ports accept
    messages. *)
Theorem change_fans_out_to_others (w : W) (port : Port) (info : PortInfo)
    (data : PortMsg) (n : Message) :
  JsMap.get Nat.eqb port (ports w) = Some info ->
  notice_of data = Some n ->
  (forall p, In p (JsMap.keys (ports w)) -> p <> port -> throws p w = false) ->
  let r := port_onmessage port data w in
  fst r = Normal tt /\
  outbox (snd r) =
    outbox w ++ map (fun p => (p, n))
                  (filter (fun p => negb (p =? port)%nat) (JsMap.keys (ports w))) /\
  delivered port (snd r) = delivered port w.
Proof.
  intros G N H. cbv zeta.
  assert (exists c, command_of data = Some c) as [c C].
  { destruct data; try discriminate; simpl; eauto. }
  rewrite (port_onmessage_command port info data c n w G C N).
  unfold bind.
  assert (exists w1,
    match ws w, ws_is_open w with
    | Some k, true => socket_send k c
    | _, _ => ret tt
    end w = (Normal tt, w1) /\
    ports w1 = ports w /\ outbox w1 = outbox w /\ broken w1 = broken w) as (w1 & E & P & O & B).
  { destruct (ws w) as [k|] eqn:Ew; [|exists w; auto].
    destruct (ws_is_open w) eqn:Eo; [|exists w; auto].
    unfold ws_is_open in Eo. rewrite Ew in Eo.
    rewrite (socket_send_open k c w Eo). eexists. split; [reflexivity|]. auto. }
  rewrite E. rewrite notify_others_ok.
  - cbn [fst snd outbox set_outbox]. rewrite O, P. repeat split.
    unfold delivered. cbn [outbox set_outbox]. rewrite filter_app, map_app.
    rewrite others_exclude. now rewrite app_nil_r.
  - intros p Hp Np. unfold throws. rewrite B. apply H; auto. now rewrite <- P.
Qed.
End PortMessageFacts.

(** ** The upstream connection *)
Module UpstreamFacts.
Import MarketWorker MarketWorkerFacts InvariantFacts RegistryFacts.

Lemma flushBatch_ok (w : W) :
  healthy w -> flushBatch w = (Normal tt, after_flush w).
Proof.
  intros H. unfold flushBatch, after_flush.
  unfold bind at 1. unfold read at 1.
  destruct (pendingUpdates w) as [|e m] eqn:E; [reflexivity|].
  cbn [JsMap.size length Nat.eqb].
  unfold bind at 1. unfold Date_now, read at 1.
  unfold bind at 1. rewrite (broadcast_ok _ w H).
  reflexivity.
Qed.

Lemma healthy_frame (w w' : W) :
  ports w' = ports w -> broken w' = broken w -> healthy w -> healthy w'.
Proof.
  intros P B H p Hp. unfold throws. rewrite B. apply H. now rewrite <- P.
Qed.

(** The world just before [ws.onclose] decides whether to reconnect. *)
Lemma onclose_flush (w : W) :
  healthy w ->
  exists w3 rest,
    (broadcast MDisconnected ;;
     bt <- read batchTimer ;;
     match bt with
     | Some t => clearTimeout t ;; flushBatch
     | None => ret tt
     end)%js w = (Normal tt, w3) /\
    outbox w3 = outbox w ++ map (fun p => (p, MDisconnected)) (JsMap.keys (ports w)) ++ rest /\
    timers w3 = kept_on_close w /\ ports w3 = ports w /\
    nextTimerId w3 = nextTimerId w /\ clock w3 = clock w /\
    reconnectTimeout w3 = reconnectTimeout w /\ ws w3 = ws w.
Proof.
  intros H. unfold bind at 1. rewrite (broadcast_ok _ w H).
  unfold bind at 1. unfold read at 1. cbn [batchTimer set_outbox].
  unfold kept_on_close.
  destruct (batchTimer w) as [t|].
  - unfold bind, clearTimeout, write. rewrite flushBatch_ok.
    + unfold after_flush. cbn.
      destruct (pendingUpdates w); cbn.
      * eexists _, []. rewrite app_nil_r. repeat split; reflexivity.
      * eexists _, _. rewrite <- app_assoc. repeat split; reflexivity.
    + eapply healthy_frame; [..|exact H]; reflexivity.
  - eexists _, []. rewrite app_nil_r. repeat split; reflexivity.
Qed.

(** [C6] When the socket closes and the attached ports accept messages,
    [ws.onclose] first posts [disconnected] to every attached port; then,
    if at least one port is attached, it schedules one reconnect as a
    one-shot timer of 2000 ms and records its handle, leaving [ws] as it
    was; if none is attached, it schedules nothing and sets [ws] to null.
    The only timer it removes is the flush it forces. *)
Theorem close_reconnects_iff_subscribed (w : W) :
  healthy w ->
  let r := ws_onclose w in
  fst r = Normal tt /\
  (exists rest,
     outbox (snd r) =
     outbox w ++ map (fun p => (p, MDisconnected)) (JsMap.keys (ports w)) ++ rest) /\
  (ports w <> [] ->
   timers (snd r) =
     kept_on_close w ++ [Build_Timer (nextTimerId w) Reconnect 2000 false (clock w)] /\
   reconnectTimeout (snd r) = Some (nextTimerId w) /\ ws (snd r) = ws w) /\
  (ports w = [] ->
   timers (snd r) = kept_on_close w /\
   reconnectTimeout (snd r) = reconnectTimeout w /\ ws (snd r) = None).
Proof.
  intros H. cbv zeta.
  destruct (onclose_flush w H) as (w3 & rest & E & O & T & P & N & C & R & S).
  assert (ws_onclose w =
          (ps <- read ports ;;
           if (0 <? JsMap.size ps)%nat
           then t <- setTimeout Reconnect 2000 ;; write (set_reconnectTimeout (Some t))
           else write (set_ws None))%js w3) as F.
  { unfold ws_onclose. unfold bind, read in E |- *.
    destruct (broadcast MDisconnected w) as [[[]|] w1]; [|discriminate].
    cbv beta iota in E |- *.
    destruct (batchTimer w1) as [t|].
    - destruct (clearTimeout t w1) as [[[]|] w2]; [|discriminate].
      destruct (flushBatch w2) as [[[]|] w4]; [|discriminate].
      now inversion E.
    - now inversion E. }
  rewrite F. unfold bind, read, write, setTimeout, schedule. rewrite P.
  destruct (ports w) as [|e m]; cbn.
  - split; [reflexivity|]. split; [exists rest; exact O|].
    split; [congruence|]. auto.
  - split; [reflexivity|]. split; [exists rest; exact O|].
    split; [|discriminate]. intros _. now rewrite T, N, C, S.
Qed.

Lemma ws_onclose_run (w : W) :
  healthy w -> ws_onclose w = (Normal tt, after_close w).
Proof.
  intros H. unfold ws_onclose, after_close.
  unfold bind at 1. rewrite (broadcast_ok _ w H).
  set (w1 := set_outbox _ w).
  assert (healthy w1) as H1 by (eapply healthy_frame; [..|exact H]; reflexivity).
  unfold bind at 1. unfold read at 1. unfold bind at 1.
  destruct (batchTimer w1) as [t|].
  - unfold bind at 1. unfold clearTimeout at 1. unfold write at 1.
    rewrite flushBatch_ok
      by (eapply healthy_frame; [..|exact H1]; reflexivity).
    unfold bind, read, write.
    destruct (0 <? _)%nat; reflexivity.
  - unfold ret at 1. unfold bind, read, write.
    destruct (0 <? _)%nat; reflexivity.
Qed.

(** [X11] The other end of a window: the socket closes before the timer
    fires.
    [ws.onclose] clears the timer and flushes at once, so the window still
    ends in exactly one batch, posted after [disconnected]. *)
Lemma close_flushes_window (w : W) trace tc s :
  reachable w -> healthy w -> batchTimer w = None ->
  forallb is_update trace = true -> offers trace <> [] ->
  let w2 := step (run w trace) (tc, SocketClose s) in
  let batch := JsMap.values (offer_all (offers trace) []) in
  outbox w2 =
    outbox w ++ map (fun p => (p, MDisconnected)) (JsMap.keys (ports w))
             ++ map (fun p => (p, MUpdate batch tc)) (JsMap.keys (ports w)) /\
  batchTimer w2 = None /\ pendingUpdates w2 = [] /\ NoFlush w2.
Proof.
  intros R H E U N. cbv zeta.
  assert (trace <> []) as Nt by (intros ->; now apply N).
  destruct (CoalescerFacts.window_before_flush w trace R E U Nt)
    as (A & (x & Tx & Ix & Cx & Rx & _) & P & O & B & Pd).
  pose proof (reachable_Inv w R) as I.
  pose proof (CoalescerFacts.offer_all_pending (offers trace) [] N) as Np.
  remember (run w trace) as w1 eqn:Ew1. clear Ew1.
  remember (socket_becomes s CLOSED (set_clock tc w1)) as v eqn:Ev.
  assert (batchTimer v = Some (nextTimerId w) /\ timers v = timers w ++ [x] /\
          ports v = ports w /\ outbox v = outbox w /\ broken v = broken w /\
          pendingUpdates v = offer_all (offers trace) [] /\ clock v = tc)
    as (A' & T' & P' & O' & B' & Pd' & C').
  { subst v. cbn. auto 10. }
  assert (healthy v) as Hv.
  { intros p Hp. unfold throws. rewrite B'. apply H. now rewrite <- P'. }
  assert (step w1 (tc, SocketClose s) = after_close v) as S.
  { unfold step. cbn [fst snd dispatch]. unfold bind, write.
    rewrite <- Ev. now rewrite (ws_onclose_run v Hv). }
  rewrite S. clear S Ev. unfold after_close. cbn [batchTimer set_outbox].
  rewrite A'. unfold after_flush.
  cbn [pendingUpdates set_timers set_outbox timers ports outbox clock]. rewrite Pd'.
  destruct (offer_all (offers trace) []) as [|e m]; [congruence|].
  rewrite P', O', T', C'.
  assert (forall y, In y (unschedule (nextTimerId w) (timers w ++ [x])) ->
                    callback y <> FlushBatch) as F.
  { intros y Hy Hc. apply in_unschedule in Hy. destruct Hy as [Hy Ny].
    apply in_app_or in Hy. destruct Hy as [Hy|[<-|[]]]; [|congruence].
    pose proof (inv_flush w I y Hy Hc). congruence. }
  destruct (0 <? _)%nat; cbn; rewrite <- app_assoc;
    (split; [reflexivity|]); (split; [reflexivity|]); (split; [reflexivity|]);
    unfold NoFlush; cbn [timers set_reconnectTimeout set_ws set_batchTimer
      set_pendingUpdates set_outbox set_timers setTimeout schedule snd
      set_nextTimerId]; intros y Hy.
  - apply in_app_or in Hy. destruct Hy as [Hy|[<-|[]]]; [now apply F | discriminate].
  - now apply F.
Qed.

(** With a port that throws, the first broadcast of [ws.onclose] ends the
    handler: no reconnect is scheduled although two tabs are attached. *)
Lemma close_with_broken_port_schedules_nothing :
  fst (ws_onclose tab_1_broken) = Thrown /\
  timers (snd (ws_onclose tab_1_broken)) = timers tab_1_broken /\
  reconnectTimeout (snd (ws_onclose tab_1_broken)) = None.
Proof. vm_compute. auto. Qed.
End UpstreamFacts.

(** ** Detaching the last subscriber *)
Module CleanupFacts.
Import MarketWorker MarketWorkerFacts InvariantFacts RegistryFacts.

Lemma nth_error_update_nth {A} (f : A -> A) (l : list A) : forall n,
  nth_error (update_nth n f l) n = option_map f (nth_error l n).
Proof.
  induction l as [|a l IH]; intros [|n]; simpl; auto.
Qed.

(** After [s.close()] the socket is closing or closed. *)
Lemma socket_close_state k (w : W) :
  socket_state k (snd (socket_close k w)) <> Some OPEN /\
  socket_state k (snd (socket_close k w)) <> Some CONNECTING.
Proof.
  unfold socket_state, socket_close, write. simpl.
  rewrite nth_error_update_nth.
  destruct (nth_error (sockets w) k) as [[[] snt]|]; simpl; split; discriminate.
Qed.

Lemma clear_reconnect_fields (w : W) :
  reconnectTimeout (clear_reconnect w) = None /\
  heartbeatInterval (clear_reconnect w) = heartbeatInterval w /\
  ws (clear_reconnect w) = ws w /\ sockets (clear_reconnect w) = sockets w /\
  ports (clear_reconnect w) = ports w /\
  batchTimer (clear_reconnect w) = batchTimer w /\
  pendingUpdates (clear_reconnect w) = pendingUpdates w /\
  outbox (clear_reconnect w) = outbox w /\
  (forall x, In x (timers (clear_reconnect w)) <->
             In x (timers w) /\ Some (timer_id x) <> reconnectTimeout w).
Proof.
  unfold clear_reconnect. destruct (reconnectTimeout w) as [t|] eqn:E; cbn.
  - repeat split; auto.
    + now apply in_unschedule in H.
    + apply in_unschedule in H. destruct H. congruence.
    + intros [H N]. apply in_unschedule. split; congruence.
  - repeat split; auto; try tauto. discriminate.
Qed.

Lemma clear_heartbeat_fields (w : W) :
  reconnectTimeout (clear_heartbeat w) = reconnectTimeout w /\
  heartbeatInterval (clear_heartbeat w) = None /\
  ws (clear_heartbeat w) = ws w /\ sockets (clear_heartbeat w) = sockets w /\
  ports (clear_heartbeat w) = ports w /\
  batchTimer (clear_heartbeat w) = batchTimer w /\
  pendingUpdates (clear_heartbeat w) = pendingUpdates w /\
  outbox (clear_heartbeat w) = outbox w /\
  (forall x, In x (timers (clear_heartbeat w)) <->
             In x (timers w) /\ Some (timer_id x) <> heartbeatInterval w).
Proof.
  unfold clear_heartbeat. destruct (heartbeatInterval w) as [t|] eqn:E; cbn.
  - repeat split; auto.
    + now apply in_unschedule in H.
    + apply in_unschedule in H. destruct H. congruence.
    + intros [H N]. apply in_unschedule. split; congruence.
  - repeat split; auto; try tauto. discriminate.
Qed.

Lemma close_socket_fields (w : W) :
  reconnectTimeout (close_socket w) = reconnectTimeout w /\
  heartbeatInterval (close_socket w) = heartbeatInterval w /\
  ws (close_socket w) = None /\
  ports (close_socket w) = ports w /\
  batchTimer (close_socket w) = batchTimer w /\
  pendingUpdates (close_socket w) = pendingUpdates w /\
  outbox (close_socket w) = outbox w /\
  timers (close_socket w) = timers w /\
  (forall k, ws w = Some k ->
             socket_state k (close_socket w) <> Some OPEN /\
             socket_state k (close_socket w) <> Some CONNECTING).
Proof.
  unfold close_socket. destruct (ws w) as [k|] eqn:E.
  - do 8 (split; [reflexivity|]).
    intros k' Hk. inversion Hk; subst. apply (socket_close_state k' w).
  - do 2 (split; [reflexivity|]). split; [exact E|].
    do 5 (split; [reflexivity|]). discriminate.
Qed.

Lemma cleanup_fields (w : W) :
  reconnectTimeout (cleanup w) = None /\ heartbeatInterval (cleanup w) = None /\
  ws (cleanup w) = None /\ ports (cleanup w) = ports w /\
  batchTimer (cleanup w) = batchTimer w /\
  pendingUpdates (cleanup w) = pendingUpdates w /\
  outbox (cleanup w) = outbox w /\
  (forall x, In x (timers (cleanup w)) <->
             In x (timers w) /\ Some (timer_id x) <> reconnectTimeout w /\
             Some (timer_id x) <> heartbeatInterval w) /\
  (forall k, ws w = Some k ->
             socket_state k (cleanup w) <> Some OPEN /\
             socket_state k (cleanup w) <> Some CONNECTING).
Proof.
  unfold cleanup.
  destruct (clear_reconnect_fields w) as (A1 & A2 & A3 & A4 & A5 & A6 & A7 & A8 & A9).
  destruct (clear_heartbeat_fields (clear_reconnect w))
    as (B1 & B2 & B3 & B4 & B5 & B6 & B7 & B8 & B9).
  destruct (close_socket_fields (clear_heartbeat (clear_reconnect w)))
    as (C1 & C2 & C3 & C4 & C5 & C6 & C7 & C8 & C9).
  repeat split; try congruence.
  - rewrite C8 in H. apply B9 in H. destruct H as [H _]. now apply A9 in H.
  - rewrite C8 in H. apply B9 in H. destruct H as [H _]. apply A9 in H. tauto.
  - rewrite C8 in H. apply B9 in H. destruct H as [_ H]. congruence.
  - intros (H & N1 & N2). rewrite C8. apply B9. split; [apply A9; auto | congruence].
  - apply (C9 k). congruence.
  - apply (C9 k). congruence.
Qed.

(** [C4] When [removePort] takes the last port out of the map of a
    reachable world, the map is empty, the reconnect timer named by
    [reconnectTimeout] is unscheduled and the handle is null, no heartbeat
    interval is left scheduled and its handle is null, the socket [ws] named
    is closing or closed and [ws] is null.  The flush of the batch is not
    touched: its timer, if scheduled, stays scheduled, and the pending
    updates stay pending. *)
Theorem last_detach_cleans_up (w : W) (port : Port) :
  reachable w -> JsMap.keys (ports w) = [port] ->
  let w' := snd (removePort port w) in
  ports w' = [] /\
  reconnectTimeout w' = None /\ heartbeatInterval w' = None /\ ws w' = None /\
  (forall k, ws w = Some k ->
     socket_state k w' <> Some OPEN /\ socket_state k w' <> Some CONNECTING) /\
  (forall x, In x (timers w') ->
     In x (timers w) /\ callback x <> Heartbeat /\
     Some (timer_id x) <> reconnectTimeout w) /\
  (forall x, In x (timers w) -> callback x = FlushBatch -> In x (timers w')) /\
  batchTimer w' = batchTimer w /\ pendingUpdates w' = pendingUpdates w.
Proof.
  intros R K. cbv zeta. rewrite removePort_run. cbn [snd].
  pose proof (reachable_Inv w R) as I.
  destruct (ports w) as [|[p info] [|e m]] eqn:P; try discriminate.
  cbn in K. inversion K; subst p. clear K.
  unfold without_port, JsMap.has. rewrite P. cbn. rewrite Nat.eqb_refl. cbn.
  set (w1 := set_ports [] w).
  destruct (cleanup_fields w1) as (A & B & C & D & E & F & _ & G & H).
  repeat split; auto.
  - apply (H k). assumption.
  - apply (H k). assumption.
  - apply G in H0. tauto.
  - intros Hc. apply G in H0. destruct H0 as (H0 & _ & N).
    apply N. symmetry. apply (inv_heartbeat w I x H0 Hc).
  - apply G in H0. tauto.
  - intros x Hx Hc. apply G. split; [exact Hx|].
    destruct (inv_kind w I x Hx) as (_ & K2 & K3).
    split; intros Q; symmetry in Q; [apply K3 in Q | apply K2 in Q]; congruence.
Qed.

(** The flush timer of [one_tab_streaming] is still scheduled, with its
    batch pending, after the only tab sent [disconnect]. *)
Lemma flush_timer_outlives_last_detach :
  let w := step one_tab_streaming (12, PortMessage 1%nat Disconnect) in
  ports w = [] /\
  timers w = [Build_Timer 2%positive FlushBatch BATCH_INTERVAL false 10] /\
  batchTimer w = Some 2%positive /\ pendingUpdates w <> [].
Proof. vm_compute. repeat split. discriminate. Qed.

(** Only the reconnect timer whose handle is in [reconnectTimeout] is
    cleared: in [racing_close] the close events of two sockets each scheduled
    a reconnect, the second handle overwrote the first, and the first timer
    is still scheduled once the map is empty. *)
Lemma reconnect_timer_can_outlive_cleanup :
  ports racing_close = [] /\ reconnectTimeout racing_close = None /\
  timers racing_close = [Build_Timer 3%positive Reconnect 2000 false 4].
Proof. vm_compute. auto. Qed.
End CleanupFacts.

(** ** A port that cannot be posted to *)
Module FailureFacts.
Import MarketWorkerFacts.

(** [C3] In [src/market-worker.js] a [postMessage] that throws ends the
    broadcast: with tab 1 (first in the map) broken and tab 2 healthy,
    [broadcast] throws having posted nothing, tab 2 got no message and tab 1
    is still in the map. *)
Theorem broadcast_stops_at_broken_port :
  let w := MarketWorker.tab_1_broken in
  let r := MarketWorker.broadcast MConnected w in
  JsMap.keys (ports w) = [1%nat; 2%nat] /\
  throws 1%nat w = true /\ throws 2%nat w = false /\
  fst r = Thrown /\
  MarketWorker.delivered 2%nat (snd r) = MarketWorker.delivered 2%nat w /\
  JsMap.keys (ports (snd r)) = [1%nat; 2%nat].
Proof. vm_compute. repeat split. Qed.

(** The same for any world: the ports after the first broken one get
    nothing and the map is left as it was. *)
Lemma broadcast_leaves_broken_port m (w : MarketWorker.W) before a after :
  JsMap.keys (ports w) = before ++ a :: after ->
  (forall p, In p before -> throws p w = false) ->
  throws a w = true ->
  fst (MarketWorker.broadcast m w) = Thrown /\
  ports (snd (MarketWorker.broadcast m w)) = ports w /\
  outbox (snd (MarketWorker.broadcast m w)) = outbox w ++ map (fun p => (p, m)) before.
Proof.
  intros E Hb Ha. rewrite (broadcast_throws m w before a after E Hb Ha). auto.
Qed.

(** The earlier variant catches the exception and removes the port. *)
Section Earlier.
Import EarlierWorker.

Lemma earlier_checkCleanup_frame (w : W) :
  fst (checkCleanup w) = Normal tt /\
  ports (snd (checkCleanup w)) = ports w /\
  outbox (snd (checkCleanup w)) = outbox w /\
  broken (snd (checkCleanup w)) = broken w.
Proof.
  unfold checkCleanup, bind, read, write, ret, clearTimeout, clearInterval,
    socket_close, write.
  destruct (JsMap.size (ports w) =? 0)%nat; [|auto].
  destruct (reconnectTimeout w), (heartbeatInterval w) eqn:Eh, (ws w) eqn:Ew;
    cbn; rewrite ?Eh, ?Ew; cbn; rewrite ?Ew; cbn; auto.
Qed.

Lemma earlier_removePort_frame port (w : W) :
  fst (removePort port w) = Normal tt /\
  ports (snd (removePort port w)) = JsMap.delete Nat.eqb port (ports w) /\
  outbox (snd (removePort port w)) = outbox w /\
  broken (snd (removePort port w)) = broken w.
Proof.
  unfold removePort, bind, read, write.
  destruct (JsMap.has Nat.eqb port (ports w)) eqn:H.
  - destruct (earlier_checkCleanup_frame
                (set_ports (JsMap.delete Nat.eqb port (ports w)) w)) as (A & B & C & D).
    destruct (checkCleanup _) as [[[]|] v]; try discriminate.
    simpl in A, B, C, D |- *. auto.
  - simpl. repeat split; auto.
    unfold JsMap.has in H. destruct (JsMap.get Nat.eqb port (ports w)) eqn:G;
      [discriminate|].
    clear H. induction (ports w) as [|[a b] m IH]; simpl in *; auto.
    destruct (port =? a)%nat; [discriminate|]. f_equal. auto.
Qed.

Lemma earlier_broadcast_loop m (ks : list Port) : forall w : W,
  let r := for_each ks (fun port =>
             try_catch (postMessage port m) (removePort port)) w in
  fst r = Normal tt /\
  ports (snd r) = drop_broken (broken w) ks (ports w) /\
  outbox (snd r) =
    outbox w ++ map (fun p => (p, m)) (filter (fun p => negb (throws p w)) ks) /\
  broken (snd r) = broken w.
Proof.
  induction ks as [|k ks IH]; intros w; cbv zeta; simpl.
  - rewrite app_nil_r. auto.
  - unfold bind at 1 2 3 4. rewrite try_catch_post.
    destruct (throws k w) eqn:T; unfold throws in T; rewrite T.
    + destruct (earlier_removePort_frame k w) as (A & B & C & D).
      destruct (removePort k w) as [[[]|] v]; try discriminate.
      simpl in A, B, C, D.
      specialize (IH v). cbv zeta in IH. destruct IH as (E & F & G & H).
      split; [exact E|]. split; [rewrite F; congruence|].
      split; [|congruence].
      rewrite G, C. unfold throws. rewrite D. reflexivity.
    + specialize (IH (set_outbox (outbox w ++ [(k, m)]) w)). cbv zeta in IH.
      destruct IH as (E & F & G & H).
      split; [exact E|]. split; [exact F|]. split; [|exact H].
      rewrite G. simpl. rewrite <- app_assoc. reflexivity.
Qed.

Lemma drop_broken_keys bad (ks : list Port) : forall (m : list (Port * Z)) p,
  NoDup (JsMap.keys m) ->
  (In p (JsMap.keys (drop_broken bad ks m)) <->
   In p (JsMap.keys m) /\ ~ (In p ks /\ existsb (Nat.eqb p) bad = true)).
Proof.
  induction ks as [|k ks IH]; intros m p N; simpl.
  - tauto.
  - destruct (existsb (Nat.eqb k) bad) eqn:T.
    + rewrite IH by now apply JsMapFacts.nodup_delete.
      split.
      * intros [H1 H2]. split.
        -- eapply JsMapFacts.keys_delete_in; eauto.
        -- intros [[->|H3] H4]; [|tauto].
           apply (JsMapFacts.get_none_not_in Nat.eqb Nat.eqb_spec) in H1; auto.
           now apply (JsMapFacts.get_delete_same Nat.eqb Nat.eqb_spec).
      * intros [H1 H2]. split; [|tauto].
        destruct (Nat.eq_dec p k) as [->|Np]; [exfalso; apply H2; auto|].
        apply (JsMapFacts.in_keys_get Nat.eqb Nat.eqb_spec) in H1.
        destruct H1 as [v Hv].
        eapply (JsMapFacts.get_in_keys Nat.eqb Nat.eqb_spec).
        rewrite (JsMapFacts.get_delete_other Nat.eqb Nat.eqb_spec); eauto.
    + rewrite IH by assumption. split; intros [H1 H2]; split; auto.
      * intros [[->|H3] H4]; [congruence | tauto].
      * tauto.
Qed.

(** [X13] Partial-failure isolation as the earlier variant has it: [broadcast]
    returns normally, every healthy attached port got the message, in map
    order, and the map holds the healthy ports only. *)
Lemma earlier_broadcast_isolates m (w : W) :
  NoDup (JsMap.keys (ports w)) ->
  let r := broadcast m None w in
  fst r = Normal tt /\
  outbox (snd r) = outbox w ++ map (fun p => (p, m)) (healthy_ports w) /\
  (forall p, In p (JsMap.keys (ports (snd r))) <->
             In p (JsMap.keys (ports w)) /\ throws p w = false).
Proof.
  intros N. cbv zeta. unfold broadcast. unfold bind at 1 2 3. unfold read at 1 2 3.
  destruct (earlier_broadcast_loop m (JsMap.keys (ports w)) w) as (A & B & C & _).
  split; [exact A|]. split; [exact C|].
  intros p. rewrite B, drop_broken_keys by assumption.
  unfold throws. destruct (existsb (Nat.eqb p) (broken w)); split; intros [H1 H2];
    split; auto; try congruence; try tauto.
  intros [_ Q]. discriminate.
Qed.
Lemma earlier_broadcast_normal m (w : W) : fst (broadcast m None w) = Normal tt.
Proof.
  unfold broadcast. unfold bind at 1. unfold read at 1.
  apply (earlier_broadcast_loop m (JsMap.keys (ports w)) w).
Qed.

Lemma earlier_flushBatch_normal (w : W) : fst (flushBatch w) = Normal tt.
Proof.
  unfold flushBatch. unfold bind at 1. unfold read at 1.
  destruct (_ =? 0)%nat; [reflexivity|].
  unfold bind at 1. unfold Date_now, read at 1. unfold bind at 1.
  pose proof (earlier_broadcast_normal
                (MUpdate (JsMap.values (pendingUpdates w)) (clock w)) w) as B.
  destruct (broadcast _ None w) as [[[]|] v]; [reflexivity | discriminate].
Qed.

(** [X14] In the earlier variant [ws.onclose] schedules a reconnect whether or
    not a port is attached. *)
Lemma earlier_close_always_reconnects (w : W) :
  let r := ws_onclose w in
  fst r = Normal tt /\
  exists x, In x (timers (snd r)) /\ callback x = Reconnect /\
            delay x = 2000%Q /\ reconnectTimeout (snd r) = Some (timer_id x).
Proof.
  cbv zeta.
  assert (exists w2, ws_onclose w =
            (Normal tt,
             set_reconnectTimeout (Some (nextTimerId w2))
               (snd (setTimeout Reconnect 2000 w2)))) as [w2 E].
  { unfold ws_onclose. unfold bind at 1.
    pose proof (earlier_broadcast_normal MDisconnected w) as B.
    destruct (broadcast MDisconnected None w) as [[[]|] w1]; [|discriminate].
    unfold bind at 1. unfold read at 1. unfold bind at 1.
    assert (exists w2, (match batchTimer w1 with
                        | Some t => (clearTimeout t ;; flushBatch)%js
                        | None => ret tt
                        end) w1 = (Normal tt, w2)) as [w2 E].
    { destruct (batchTimer w1) as [t|]; [|eexists; reflexivity].
      unfold bind, clearTimeout, write.
      pose proof (earlier_flushBatch_normal
                    (set_timers (unschedule t (timers w1)) w1)) as F.
      destruct (flushBatch _) as [[[]|] v]; [eexists; reflexivity | discriminate]. }
    rewrite E. exists w2. reflexivity. }
  rewrite E. cbn.
  split; [reflexivity|]. eexists. split; [apply in_or_app; right; left; reflexivity|].
  auto.
Qed.

(** Distinct tabs attaching to the earlier variant as loaded open one
    socket. *)
Lemma earlier_attach_later tabs : forall w : W,
  NoDup (map snd tabs) ->
  (forall p, In p (map snd tabs) -> ~ In p (JsMap.keys (ports w))) ->
  ports w <> [] ->
  sockets (attach_all w tabs) = sockets w.
Proof.
  induction tabs as [|[t p] tabs IH]; intros w D F N; simpl; auto.
  inversion D; subst.
  assert (JsMap.keys (JsMap.set Nat.eqb p t (ports w)) = JsMap.keys (ports w) ++ [p]) as K.
  { rewrite (JsMapFacts.keys_set Nat.eqb Nat.eqb_spec).
    destruct (JsMap.has Nat.eqb p (ports w)) eqn:H; auto.
    apply (JsMapFacts.has_in Nat.eqb Nat.eqb_spec) in H.
    exfalso. apply (F p); simpl; auto. }
  assert (exists v, onconnect p (set_clock t w) = v /\
                    sockets (snd v) = sockets w /\
                    ports (snd v) = JsMap.set Nat.eqb p t (ports w)) as (v & E & S & P).
  { eexists. split; [reflexivity|].
    assert (length (JsMap.set Nat.eqb p t (ports w)) <> 1%nat) as L.
    { rewrite <- (length_map fst). fold (JsMap.keys (JsMap.set Nat.eqb p t (ports w))).
      rewrite K, length_app. unfold JsMap.keys. rewrite length_map. simpl.
      destruct (ports w); [congruence | simpl; lia]. }
    unfold onconnect, bind, read, write. cbn.
    match goal with |- context [if ?b then _ else _] => destruct b eqn:Q end.
    { apply Nat.eqb_eq in Q. contradiction. }
    unfold postMessage, throws. cbn.
    destruct (lastInitialData w); cbn; repeat (destruct (existsb _ _); cbn); auto. }
  rewrite E. rewrite IH; auto.
  - intros q Hq I. rewrite P in I.
    apply (JsMapFacts.keys_set_in Nat.eqb Nat.eqb_spec) in I.
    destruct I as [->|I]; [auto | apply (F q); simpl; auto].
  - rewrite P. apply CoalescerFacts.set_not_empty.
Qed.

(** [X15] One connection for all tabs, earlier variant: when the tabs that
    attach to the freshly loaded worker have distinct ports, exactly one
    socket is constructed ([ports.size === 1] holds for the first only). *)
Lemma earlier_one_connection bad tabs :
  NoDup (map snd tabs) -> tabs <> [] ->
  length (sockets (attach_all (initial bad) tabs)) = 1%nat.
Proof.
  intros D N. destruct tabs as [|[t p] tabs]; [congruence|]. clear N.
  inversion D; subst. simpl.
  rewrite earlier_attach_later; auto.
  - intros q Hq [<-|[]]. auto.
  - discriminate.
Qed.
End Earlier.
End FailureFacts.

(** ** The liveness monitor *)
Module LivenessFacts.
Import MarketWorker MarketWorkerFacts InvariantFacts RegistryFacts CleanupFacts.

Section Watching.
Variables (port : Port) (info : PortInfo) (h : TimerId).






























Lemma ports_without_port q (w : W) :
  ports (without_port q w) = JsMap.delete Nat.eqb q (ports w).
Proof.
  unfold without_port, JsMap.has.
  destruct (JsMap.get Nat.eqb q (ports w)) eqn:G.
  - destruct (_ =? 0)%nat; [|reflexivity].
    destruct (cleanup_fields (set_ports (JsMap.delete Nat.eqb q (ports w)) w))
      as (_ & _ & _ & P & _).
    exact P.
  - symmetry. now apply JsMapFacts.delete_absent.
Qed.




End Watching.


End LivenessFacts.

(** ** The theorems at work on the scenarios *)
Module Witnesses.
Import MarketWorker MarketWorkerFacts InvariantFacts RegistryFacts CoalescerFacts
  AttachFacts PortMessageFacts UpstreamFacts CleanupFacts.

Lemma two_tabs_reachable : reachable two_tabs.
Proof. eexists _, _. reflexivity. Defined.

Lemma two_tabs_healthy : healthy two_tabs.
Proof. intros p _. reflexivity. Defined.

(** Three prices for AAPL and one for MSFT in one window: both tabs get one
    batch, with 103 for AAPL. *)
Lemma coalescing_window_witness :
  let trace := [(20, SocketMessage 0%nat (MUpdate [aapl 101; msft 301] 20));
                (25, SocketMessage 0%nat (MUpdate [aapl 102] 25));
                (30, SocketMessage 0%nat (MUpdate [aapl 103] 30))] in
  outbox (step (run two_tabs trace) (37, TimerFires (nextTimerId two_tabs))) =
  outbox two_tabs ++ [(1%nat, MUpdate [aapl 103; msft 301] 37);
                      (2%nat, MUpdate [aapl 103; msft 301] 37)].
Proof.
  intros trace.
  destruct (coalescing_window two_tabs trace 37) as (_ & H & _).
  - exact two_tabs_reachable.
  - exact two_tabs_healthy.
  - reflexivity.
  - reflexivity.
  - discriminate.
  - exact H.
Defined.

Lemma one_connection_for_all_tabs_witness :
  connections (run (initial []) (attaches [(0, 1%nat); (1, 2%nat); (2, 3%nat)])) = 1%nat.
Proof.
  destruct (one_connection_for_all_tabs (initial [])
              [(0, 1%nat); (1, 2%nat); (2, 3%nat)]) as [H _].
  - reflexivity.
  - discriminate.
  - exact H.
Defined.

Lemma late_joiner_gets_snapshot_witness :
  outbox (snd (onconnect 3%nat two_tabs)) =
  outbox two_tabs ++ [(3%nat, MInitial [aapl 100; msft 300]); (3%nat, MConnected)].
Proof.
  destruct (late_joiner_gets_snapshot two_tabs 3%nat 0%nat
              (MInitial [aapl 100; msft 300])) as (_ & H & _).
  - reflexivity.
  - reflexivity.
  - reflexivity.
  - exact H.
Defined.

Lemma close_reconnects_iff_subscribed_witness :
  reconnectTimeout (snd (ws_onclose two_tabs)) = Some (nextTimerId two_tabs) /\
  In (Build_Timer (nextTimerId two_tabs) Reconnect 2000 false (clock two_tabs))
     (timers (snd (ws_onclose two_tabs))).
Proof.
  destruct (close_reconnects_iff_subscribed two_tabs two_tabs_healthy)
    as (_ & _ & H & _).
  destruct H as (T & R & _); [discriminate|].
  split; [exact R|]. rewrite T. apply in_or_app. right. left. reflexivity.
Defined.

Lemma command_relayed_iff_open_witness :
  option_map sent (nth_error (sockets (snd (port_onmessage 1%nat (SetFrequency 50) two_tabs))) 0)
  = Some [CSetFrequency 50].
Proof.
  destruct (command_relayed_iff_open two_tabs 1%nat (Build_PortInfo 1 0)
              (SetFrequency 50) (CSetFrequency 50)) as [H _].
  - reflexivity.
  - reflexivity.
  - destruct (H eq_refl) as (k & E & S). inversion E; subst k. rewrite S. reflexivity.
Defined.

Lemma change_fans_out_to_others_witness :
  outbox (snd (port_onmessage 1%nat (SetFrequency 50) two_tabs)) =
  outbox two_tabs ++ [(2%nat, MFrequencyChanged 50)].
Proof.
  destruct (change_fans_out_to_others two_tabs 1%nat (Build_PortInfo 1 0)
              (SetFrequency 50) (MFrequencyChanged 50)) as (_ & H & _).
  - reflexivity.
  - reflexivity.
  - intros p _ _. reflexivity.
  - exact H.
Defined.

Lemma message_from_removed_port_ignored_witness :
  port_onmessage 7%nat Pong two_tabs = (Normal tt, two_tabs).
Proof.
  apply message_from_removed_port_ignored.
  simpl. intros [H|[H|[]]]; discriminate.
Defined.

Lemma last_detach_cleans_up_witness :
  let w' := snd (removePort 1%nat one_tab_streaming) in
  ports w' = [] /\ heartbeatInterval w' = None /\ ws w' = None /\
  batchTimer w' = batchTimer one_tab_streaming.
Proof.
  destruct (last_detach_cleans_up one_tab_streaming 1%nat)
    as (A & _ & B & C & _ & _ & _ & D & _).
  - eexists _, _. reflexivity.
  - reflexivity.
  - cbv zeta. auto.
Defined.

End Witnesses.

(** * Further properties of the code *)

(** ** More facts about [JsMap] *)
Module JsMapMoreFacts.
Section Facts.
Context {K V : Type}.
Variable eqb : K -> K -> bool.
Hypothesis eqb_spec : forall a b, reflect (a = b) (eqb a b).

Lemma keys_app (a b : list (K * V)) :
  JsMap.keys (a ++ b) = JsMap.keys a ++ JsMap.keys b.
Proof. unfold JsMap.keys. apply map_app. Qed.

Lemma get_app_fresh k (a b : list (K * V)) :
  ~ In k (JsMap.keys a) -> JsMap.get eqb k (a ++ b) = JsMap.get eqb k b.
Proof.
  induction a as [|[k' v] r IH]; simpl; auto.
  intros N. rewrite (JsMapFacts.eqb_neq eqb eqb_spec k k'); [|intuition congruence].
  apply IH. tauto.
Qed.

Lemma delete_app_fresh k (a b : list (K * V)) :
  ~ In k (JsMap.keys a) ->
  JsMap.delete eqb k (a ++ b) = a ++ JsMap.delete eqb k b.
Proof.
  induction a as [|[k' v] r IH]; simpl; auto.
  intros N. rewrite (JsMapFacts.eqb_neq eqb eqb_spec k k'); [|intuition congruence].
  f_equal. apply IH. tauto.
Qed.

Lemma keys_filter_in (f : K * V -> bool) k (m : list (K * V)) :
  In k (JsMap.keys (filter f m)) -> In k (JsMap.keys m).
Proof.
  unfold JsMap.keys. rewrite !in_map_iff. intros [e [E I]].
  apply filter_In in I. exists e. tauto.
Qed.

Lemma nodup_filter (f : K * V -> bool) (m : list (K * V)) :
  NoDup (JsMap.keys m) -> NoDup (JsMap.keys (filter f m)).
Proof.
  induction m as [|[k v] r IH]; simpl; auto.
  intros H. inversion H; subst.
  destruct (f (k, v)); simpl; auto.
  constructor; auto. intros I. apply keys_filter_in in I. tauto.
Qed.

(** Looking a key up after a filter: the entry, if the filter keeps it. *)
Lemma get_filter (f : K * V -> bool) k (m : list (K * V)) :
  NoDup (JsMap.keys m) ->
  JsMap.get eqb k (filter f m) =
  match JsMap.get eqb k m with
  | Some v => if f (k, v) then Some v else None
  | None => None
  end.
Proof.
  induction m as [|[k' v] r IH]; simpl; auto.
  intros H. inversion H; subst.
  destruct (eqb_spec k k') as [->|N].
  - destruct (f (k', v)) eqn:E; simpl.
    + now rewrite (JsMapFacts.eqb_refl eqb eqb_spec).
    + apply (JsMapFacts.get_none_not_in eqb eqb_spec).
      intros I. apply keys_filter_in in I. tauto.
  - destruct (f (k', v)); simpl; auto.
    rewrite (JsMapFacts.eqb_neq eqb eqb_spec k k' N). auto.
Qed.

End Facts.
End JsMapMoreFacts.

(** ** Loops over the map that remove ports

    [sendHeartbeats] and [checkHeartbeats] walk the live map and remove the
    port they are at; the shape of both loops, for any test [sel] of an
    entry and any removal that deletes the key and leaves the posted
    messages alone. *)
Module EvictionFacts.
Section Loop.
Context {I : Type}.
Variable remove : Port -> Js I unit.
Variable Base : World I -> Prop.
Hypothesis remove_spec : forall p w, Base w ->
  fst (remove p w) = Normal tt /\
  ports (snd (remove p w)) = JsMap.delete Nat.eqb p (ports w) /\
  outbox (snd (remove p w)) = outbox w /\
  Base (snd (remove p w)).
Hypothesis Base_outbox : forall x w, Base w -> Base (set_outbox x w).
Variable body : Port -> I -> Js I unit.
Variable sel : Port -> I -> bool.
Variable emit : Port -> list (Port * Message).
Hypothesis body_evicts : forall p i w,
  Base w -> sel p i = true -> body p i w = remove p w.
Hypothesis body_keeps : forall p i w,
  Base w -> sel p i = false ->
  body p i w = (Normal tt, set_outbox (outbox w ++ emit p) w).

Lemma evict_loop (rest : list (Port * I)) : forall (seen : list (Port * I)) w,
  Base w -> ports w = seen ++ rest -> NoDup (JsMap.keys (seen ++ rest)) ->
  exists w',
    for_each (JsMap.keys rest) (fun p =>
      bind (read (fun w => JsMap.get Nat.eqb p (ports w))) (fun e =>
        match e with
        | Some info => body p info
        | None => ret tt
        end)) w = (Normal tt, w') /\
    ports w' = seen ++ filter (fun e => negb (sel (fst e) (snd e))) rest /\
    outbox w' =
      outbox w ++ flat_map (fun e => emit (fst e))
                    (filter (fun e => negb (sel (fst e) (snd e))) rest) /\
    Base w'.
Proof.
  induction rest as [|[k i] rest IH]; intros seen w B E N.
  - exists w. simpl. rewrite app_nil_r in *. now rewrite app_nil_r.
  - assert (~ In k (JsMap.keys seen)) as Fresh.
    { rewrite JsMapMoreFacts.keys_app in N. simpl in N.
      apply NoDup_remove_2 in N. rewrite in_app_iff in N. tauto. }
    assert (JsMap.get Nat.eqb k (ports w) = Some i) as G.
    { rewrite E, (JsMapMoreFacts.get_app_fresh Nat.eqb Nat.eqb_spec) by exact Fresh.
      simpl. now rewrite Nat.eqb_refl. }
    cbn [JsMap.keys map fst for_each].
    unfold bind at 1. unfold bind at 1. unfold read at 1. rewrite G.
    cbn [filter fst snd].
    destruct (sel k i) eqn:S; cbn [negb].
    + rewrite (body_evicts _ _ _ B S).
      destruct (remove_spec k w B) as [R1 [R2 [R3 R4]]].
      destruct (remove k w) as [c w1]. simpl in R1, R2, R3, R4. subst c.
      assert (ports w1 = seen ++ rest) as E1.
      { rewrite R2, E, (JsMapMoreFacts.delete_app_fresh Nat.eqb Nat.eqb_spec) by exact Fresh.
        simpl. now rewrite Nat.eqb_refl. }
      assert (NoDup (JsMap.keys (seen ++ rest))) as N1.
      { rewrite JsMapMoreFacts.keys_app in *. simpl in N.
        now apply NoDup_remove_1 in N. }
      destruct (IH seen w1 R4 E1 N1) as [w' [H0 [H1 [H2 H3]]]].
      exists w'. rewrite R3 in H2. auto.
    + rewrite (body_keeps _ _ _ B S).
      set (w1 := set_outbox (outbox w ++ emit k) w).
      assert (ports w1 = (seen ++ [(k, i)]) ++ rest) as E1.
      { unfold w1. simpl. rewrite E, <- app_assoc. reflexivity. }
      assert (NoDup (JsMap.keys ((seen ++ [(k, i)]) ++ rest))) as N1.
      { now rewrite <- app_assoc. }
      destruct (IH (seen ++ [(k, i)]) w1 (Base_outbox _ _ B) E1 N1)
        as [w' [H0 [H1 [H2 H3]]]].
      exists w'. repeat split; auto.
      * rewrite H1, <- app_assoc. reflexivity.
      * rewrite H2. unfold w1. simpl. now rewrite <- app_assoc.
Qed.

Lemma evict_for_of_ports (w : World I) :
  Base w -> NoDup (JsMap.keys (ports w)) ->
  exists w',
    for_of_ports body w = (Normal tt, w') /\
    ports w' = filter (fun e => negb (sel (fst e) (snd e))) (ports w) /\
    outbox w' =
      outbox w ++ flat_map (fun e => emit (fst e))
                    (filter (fun e => negb (sel (fst e) (snd e))) (ports w)) /\
    Base w'.
Proof.
  intros B N. unfold for_of_ports. unfold bind at 1. unfold read at 1.
  apply (evict_loop (ports w) [] w B eq_refl N).
Qed.
End Loop.
End EvictionFacts.

(** ** The heartbeat loops of [src/market-worker.js] *)
Module HeartbeatFacts.
Import MarketWorker RegistryFacts.

Lemma cleanup_host (w : W) :
  outbox (cleanup w) = outbox w /\ broken (cleanup w) = broken w /\
  clock (cleanup w) = clock w.
Proof.
  unfold cleanup, close_socket, clear_heartbeat, clear_reconnect.
  destruct (reconnectTimeout w); cbn;
    destruct (heartbeatInterval w); cbn;
    destruct (ws w); cbn; auto.
Qed.

Lemma without_port_host port (w : W) :
  outbox (without_port port w) = outbox w /\
  broken (without_port port w) = broken w /\
  clock (without_port port w) = clock w.
Proof.
  unfold without_port.
  destruct (JsMap.has Nat.eqb port (ports w)); auto.
  match goal with |- context [if ?b then _ else _] => destruct b end; auto.
  apply (cleanup_host (set_ports (JsMap.delete Nat.eqb port (ports w)) w)).
Qed.

(** [removePort] deletes the key; the host's side stays as it is. *)
Lemma removePort_spec bad now port (w : W) :
  broken w = bad /\ clock w = now ->
  fst (removePort port w) = Normal tt /\
  ports (snd (removePort port w)) = JsMap.delete Nat.eqb port (ports w) /\
  outbox (snd (removePort port w)) = outbox w /\
  (broken (snd (removePort port w)) = bad /\ clock (snd (removePort port w)) = now).
Proof.
  intros [B C]. rewrite removePort_run. cbn [fst snd].
  destruct (without_port_host port w) as [H1 [H2 H3]].
  rewrite LivenessFacts.ports_without_port.
  repeat split; congruence.
Qed.

Lemma pings_of (f : Port -> bool) (m : list (Port * PortInfo)) :
  flat_map (fun e => [(fst e, MPing)]) (filter (fun e => f (fst e)) m) =
  map (fun p => (p, MPing)) (filter f (JsMap.keys m)).
Proof.
  induction m as [|[k i] r IH]; simpl; auto.
  destruct (f k); simpl; now rewrite IH.
Qed.

Lemma sendHeartbeats_run (w : W) :
  NoDup (JsMap.keys (ports w)) ->
  exists w',
    sendHeartbeats w = (Normal tt, w') /\
    ports w' = filter (fun e => negb (throws (fst e) w)) (ports w) /\
    outbox w' = outbox w ++ map (fun p => (p, MPing))
                              (filter (fun p => negb (throws p w)) (JsMap.keys (ports w))) /\
    (broken w' = broken w /\ clock w' = clock w).
Proof.
  intros N. unfold sendHeartbeats.
  destruct (EvictionFacts.evict_for_of_ports removePort
              (fun v : W => broken v = broken w /\ clock v = clock w)
              (removePort_spec (broken w) (clock w))
              (fun x v H => H)
              (fun port _ => try_catch (postMessage port MPing) (removePort port))
              (fun p _ => throws p w)
              (fun p => [(p, MPing)])) with (w := w)
    as [w' [H0 [H1 [H2 H3]]]]; auto.
  - intros p i v [B _] T. rewrite try_catch_post.
    unfold throws in *. now rewrite B, T.
  - intros p i v [B _] T. rewrite try_catch_post.
    unfold throws in *. now rewrite B, T.
  - exists w'. repeat split; try tauto.
    rewrite H2. f_equal.
    apply (pings_of (fun p => negb (throws p w))).
Qed.

Lemma checkHeartbeats_run (w : W) :
  NoDup (JsMap.keys (ports w)) ->
  exists w',
    checkHeartbeats w = (Normal tt, w') /\
    ports w' = filter (fun e => negb (HEARTBEAT_TIMEOUT <? clock w - lastPong (snd e)))
                 (ports w) /\
    outbox w' = outbox w /\
    (broken w' = broken w /\ clock w' = clock w).
Proof.
  intros N. unfold checkHeartbeats, Date_now.
  unfold bind at 1. unfold read at 1.
  destruct (EvictionFacts.evict_for_of_ports removePort
              (fun v : W => broken v = broken w /\ clock v = clock w)
              (removePort_spec (broken w) (clock w))
              (fun x v H => H)
              (fun port portInfo =>
                 if HEARTBEAT_TIMEOUT <? clock w - lastPong portInfo
                 then removePort port else ret tt)
              (fun _ i => HEARTBEAT_TIMEOUT <? clock w - lastPong i)
              (fun _ => [])) with (w := w)
    as [w' [H0 [H1 [H2 H3]]]]; auto.
  - intros p i v _ T. now rewrite T.
  - intros p i v _ T. rewrite T. unfold ret.
    now rewrite app_nil_r, set_outbox_same.
  - exists w'. repeat split; try tauto.
    rewrite H2. rewrite <- (app_nil_r (outbox w)) at 2. f_equal.
    clear. induction (filter _ (ports w)); simpl; auto.
Qed.

(** [X1] [sendHeartbeats] isolates delivery failures: it always returns
    normally, every attached port that accepts messages is sent one [ping]
    (in map order) and keeps its entry, and exactly the ports whose
    [postMessage] throws are removed. *)
Theorem sendHeartbeats_isolates (w : W) :
  NoDup (JsMap.keys (ports w)) ->
  fst (sendHeartbeats w) = Normal tt /\
  ports (snd (sendHeartbeats w)) =
    filter (fun e => negb (throws (fst e) w)) (ports w) /\
  outbox (snd (sendHeartbeats w)) =
    outbox w ++ map (fun p => (p, MPing))
                  (filter (fun p => negb (throws p w)) (JsMap.keys (ports w))).
Proof.
  intros N. destruct (sendHeartbeats_run w N) as [w' [H0 [H1 [H2 _]]]].
  rewrite H0. auto.
Qed.

(** [X2] [checkHeartbeats] returns normally, posts nothing, and leaves in
    the map exactly the entries with [now - lastPong <= 30000], unchanged
    and in their order; an entry older than that is removed. *)
Theorem checkHeartbeats_evicts_stale (w : W) :
  NoDup (JsMap.keys (ports w)) ->
  fst (checkHeartbeats w) = Normal tt /\
  ports (snd (checkHeartbeats w)) =
    filter (fun e => clock w - lastPong (snd e) <=? HEARTBEAT_TIMEOUT) (ports w) /\
  outbox (snd (checkHeartbeats w)) = outbox w.
Proof.
  intros N. destruct (checkHeartbeats_run w N) as [w' [H0 [H1 [H2 _]]]].
  rewrite H0. cbn [fst snd]. repeat split; auto.
  rewrite H1. apply filter_ext. intros [p i]. cbn [snd].
  now rewrite Z.leb_antisym.
Qed.

(** [X3] One firing of the heartbeat interval ([sendHeartbeats] then
    [checkHeartbeats]) returns normally and leaves exactly the ports that
    accepted the ping and whose last pong is at most 30000 ms old; the
    pings of that firing are the only messages posted. *)
Theorem heartbeat_tick_keeps_live_ports (w : W) :
  NoDup (JsMap.keys (ports w)) ->
  fst (heartbeat_tick w) = Normal tt /\
  ports (snd (heartbeat_tick w)) =
    filter (fun e => negb (throws (fst e) w) &&
                     (clock w - lastPong (snd e) <=? HEARTBEAT_TIMEOUT)) (ports w) /\
  outbox (snd (heartbeat_tick w)) =
    outbox w ++ map (fun p => (p, MPing))
                  (filter (fun p => negb (throws p w)) (JsMap.keys (ports w))).
Proof.
  intros N. unfold heartbeat_tick.
  destruct (sendHeartbeats_run w N) as [w1 [S0 [S1 [S2 [S3 S4]]]]].
  assert (NoDup (JsMap.keys (ports w1))) as N1.
  { rewrite S1. now apply JsMapMoreFacts.nodup_filter. }
  destruct (checkHeartbeats_run w1 N1) as [w2 [C0 [C1 [C2 _]]]].
  unfold bind. rewrite S0, C0. cbn [fst snd]. repeat split.
  - rewrite C1, S1, S4. clear.
    induction (ports w) as [|[p i] r IH]; simpl; auto.
    destruct (throws p w); simpl; auto.
    rewrite Z.leb_antisym.
    destruct (HEARTBEAT_TIMEOUT <? clock w - lastPong i); simpl; now rewrite IH.
  - now rewrite C2, S2.
Qed.

(** [X4] A pong buys 30 seconds: after the handler of a [pong] from an
    attached port ran at clock value [t], a [checkHeartbeats] at any clock
    value up to [t + 30000] keeps the port, with its id and with [t] as its
    [lastPong]. *)
Theorem pong_extends_deadline (w : W) port info now :
  NoDup (JsMap.keys (ports w)) ->
  JsMap.get Nat.eqb port (ports w) = Some info ->
  now - clock w <= HEARTBEAT_TIMEOUT ->
  JsMap.get Nat.eqb port
    (ports (snd (checkHeartbeats
                   (set_clock now (snd (port_onmessage port Pong w)))))) =
  Some {| id := id info; lastPong := clock w |}.
Proof.
  intros N G L.
  assert (port_onmessage port Pong w =
          (Normal tt,
           set_ports (JsMap.set Nat.eqb port (Build_PortInfo (id info) (clock w))
                        (ports w)) w)) as E.
  { unfold port_onmessage, bind, read, Date_now, write. now rewrite G. }
  rewrite E. cbn [snd].
  set (w1 := set_clock now _).
  assert (NoDup (JsMap.keys (ports w1))) as N1.
  { unfold w1. cbn [ports set_clock set_ports].
    now apply (JsMapFacts.nodup_set Nat.eqb Nat.eqb_spec). }
  destruct (checkHeartbeats_run w1 N1) as [w2 [C0 [C1 _]]].
  rewrite C0. cbn [snd]. rewrite C1.
  rewrite (JsMapMoreFacts.get_filter Nat.eqb Nat.eqb_spec) by exact N1.
  unfold w1. cbn [ports set_clock set_ports clock].
  rewrite (JsMapFacts.get_set_same Nat.eqb Nat.eqb_spec).
  cbn [snd lastPong].
  destruct (HEARTBEAT_TIMEOUT <? now - clock w) eqn:T; auto.
  apply Z.ltb_lt in T. lia.
Qed.
End HeartbeatFacts.

(** ** The registry, continued *)
Module RegistryMoreFacts.
Import MarketWorker RegistryFacts.

(** [X5] Removing a port twice is removing it once: the second
    [removePort] finds no entry and returns without running the cleanup,
    whatever the first one left. *)
Theorem removePort_twice (w : W) port :
  NoDup (JsMap.keys (ports w)) ->
  removePort port (snd (removePort port w)) = (Normal tt, snd (removePort port w)).
Proof.
  intros N. rewrite !removePort_run. cbn [snd]. f_equal.
  unfold without_port at 1.
  rewrite LivenessFacts.ports_without_port.
  unfold JsMap.has.
  now rewrite (JsMapFacts.get_delete_same Nat.eqb Nat.eqb_spec).
Qed.

(** [X6] A [disconnect] from a port that is not the last one deletes that
    port's entry and nothing more: the other entries, the upstream socket,
    every timer and every handle stay as they are. *)
Theorem disconnect_leaves_the_rest (w : W) port info q :
  JsMap.get Nat.eqb port (ports w) = Some info ->
  q <> port -> In q (JsMap.keys (ports w)) ->
  port_onmessage port Disconnect w =
  (Normal tt, set_ports (JsMap.delete Nat.eqb port (ports w)) w).
Proof.
  intros G Nq Iq.
  unfold port_onmessage. unfold bind at 1. unfold read at 1. rewrite G.
  rewrite removePort_run. f_equal.
  unfold without_port, JsMap.has. rewrite G.
  cbn [ports set_ports].
  destruct (JsMap.delete Nat.eqb port (ports w)) as [|e r] eqn:D; [|reflexivity].
  exfalso.
  apply (JsMapFacts.in_keys_get Nat.eqb Nat.eqb_spec) in Iq. destruct Iq as [v Hv].
  rewrite <- (JsMapFacts.get_delete_other Nat.eqb Nat.eqb_spec port q) in Hv by exact Nq.
  rewrite D in Hv. discriminate.
Qed.
End RegistryMoreFacts.

(** ** Properties kept by every handler

    A property of the world that each assignment and host call of the
    worker keeps is kept by every handler, hence by every event.  The
    sections below walk the handlers once, for any such property. *)
Create HintDb walk.

Ltac walk :=
  repeat first
    [ apply preserves_ret
    | apply preserves_read
    | apply preserves_postMessage; solve [auto with walk]
    | apply preserves_write; solve [auto with walk]
    | apply preserves_for_each; intros ?
    | apply preserves_for_of_ports; intros ? ?
    | apply preserves_try_catch
    | solve [auto with walk]
    | apply preserves_bind; [|intros ?]
    | match goal with
      | |- preserves _ (match ?x with _ => _ end) => destruct x
      end ].

Module WalkFacts.
Import MarketWorker.

Section Registry.
Variable P : W -> Prop.
Hypothesis P_outbox : forall x w, P w -> P (set_outbox x w).
Hypothesis P_delete : forall p w, P w -> P (set_ports (JsMap.delete Nat.eqb p (ports w)) w).
Hypothesis P_set : forall p i w, P w -> P (set_ports (JsMap.set Nat.eqb p i (ports w)) w).
Hypothesis P_nextPortId : forall x w, P w -> P (set_nextPortId x w).
Hypothesis P_heartbeat : forall x w, P w -> P (set_heartbeatInterval x w).
Hypothesis P_reconnect : forall x w, P w -> P (set_reconnectTimeout x w).
Hypothesis P_schedule : forall cb d rep w, P w -> P (snd (schedule cb d rep w)).
Hypothesis P_unschedule : forall t w, P w -> P (set_timers (unschedule t (timers w)) w).
Hypothesis P_sockets : forall x w, P w -> P (set_sockets x w).
Hypothesis P_ws : forall x w, P w -> P (set_ws x w).
#[local] Hint Resolve P_outbox P_delete P_set P_nextPortId P_heartbeat P_reconnect
  P_unschedule P_sockets P_ws : walk.

Lemma walk_schedule cb d rep : preserves P (schedule cb d rep).
Proof. intros w H. now apply P_schedule. Qed.

Lemma walk_new_WebSocket : preserves P new_WebSocket.
Proof. intros w H. unfold new_WebSocket. simpl. auto. Qed.
#[local] Hint Resolve walk_schedule walk_new_WebSocket : walk.

Lemma walk_checkCleanup : preserves P checkCleanup.
Proof. unfold checkCleanup, clearTimeout, clearInterval, socket_close. walk. Qed.

Lemma walk_removePort p : preserves P (removePort p).
Proof. unfold removePort. walk. Qed.

Lemma walk_startHeartbeatMonitoring : preserves P startHeartbeatMonitoring.
Proof. unfold startHeartbeatMonitoring, setInterval. walk. Qed.

Lemma walk_onconnect p : preserves P (onconnect p).
Proof. unfold onconnect, connect, startHeartbeatMonitoring, setInterval. walk. Qed.
End Registry.
End WalkFacts.

Module HandlerWalk.
Import MarketWorker Traces.

Section Handlers.
Variable P : W -> Prop.
Hypothesis P_outbox : forall x w, P w -> P (set_outbox x w).
Hypothesis P_pending : forall x w, P w -> P (set_pendingUpdates x w).
Hypothesis P_batchTimer : forall x w, P w -> P (set_batchTimer x w).
Hypothesis P_reconnect : forall x w, P w -> P (set_reconnectTimeout x w).
Hypothesis P_lastInitialData : forall x w, P w -> P (set_lastInitialData x w).
Hypothesis P_set : forall p i w, P w -> P (set_ports (JsMap.set Nat.eqb p i (ports w)) w).
Hypothesis P_schedule : forall cb d rep w, P w -> P (snd (schedule cb d rep w)).
Hypothesis P_unschedule : forall t w, P w -> P (set_timers (unschedule t (timers w)) w).
Hypothesis P_sockets : forall x w, P w -> P (set_sockets x w).
Hypothesis P_ws : forall x w, P w -> P (set_ws x w).
Hypothesis P_clock : forall x w, P w -> P (set_clock x w).
Hypothesis P_removePort : forall p, preserves P (removePort p).
Hypothesis P_onconnect : forall p, preserves P (onconnect p).
#[local] Hint Resolve P_outbox P_pending P_batchTimer P_reconnect P_lastInitialData
  P_set P_unschedule P_sockets P_ws P_clock P_removePort P_onconnect : walk.

Lemma walk_setTimeout cb d : preserves P (setTimeout cb d).
Proof. intros w H. now apply P_schedule. Qed.

Lemma walk_socket : preserves P new_WebSocket.
Proof. intros w H. unfold new_WebSocket. simpl. auto. Qed.

Lemma walk_socket_send s c : preserves P (socket_send s c).
Proof.
  intros w H. unfold socket_send.
  destruct (socket_state s w) as [[]|]; simpl; auto.
Qed.
#[local] Hint Resolve walk_setTimeout walk_socket walk_socket_send : walk.

Lemma walk_broadcast m : preserves P (broadcast m).
Proof. unfold broadcast. walk. Qed.

Lemma walk_flushBatch : preserves P flushBatch.
Proof. unfold flushBatch, broadcast. walk. Qed.

Lemma walk_connect : preserves P connect.
Proof. unfold connect. walk. Qed.

Lemma walk_ws_onmessage m :
  snapshot_of (SocketMessage 0%nat m) = None -> preserves P (ws_onmessage m).
Proof.
  destruct m; try discriminate; intros _;
    unfold ws_onmessage, scheduleBatch, broadcast; walk.
Qed.

Lemma walk_ws_onmessage_initial data : preserves P (ws_onmessage (MInitial data)).
Proof. unfold ws_onmessage, broadcast. walk. Qed.

Lemma walk_ws_onclose : preserves P ws_onclose.
Proof. unfold ws_onclose, clearTimeout, flushBatch, broadcast. walk. Qed.

Lemma walk_heartbeat_tick : preserves P heartbeat_tick.
Proof. unfold heartbeat_tick, sendHeartbeats, checkHeartbeats. walk. Qed.

Lemma walk_port_onmessage port data : preserves P (port_onmessage port data).
Proof. unfold port_onmessage. walk. Qed.

Lemma walk_fire t : preserves P (fire t).
Proof.
  pose proof walk_flushBatch. pose proof walk_connect. pose proof walk_heartbeat_tick.
  unfold fire, run_callback. walk.
Qed.

(** Every event except the arrival of an [initial] message. *)
Lemma walk_dispatch e : snapshot_of e = None -> preserves P (dispatch e).
Proof.
  pose proof walk_ws_onclose. pose proof walk_fire.
  pose proof walk_port_onmessage.
  destruct e as [p|p d|s|s m|s|t]; intros Q; unfold dispatch.
  - auto with walk.
  - auto.
  - unfold ws_onopen, socket_becomes, broadcast. walk.
  - apply walk_ws_onmessage. destruct m; auto; discriminate.
  - unfold socket_becomes. walk.
  - auto.
Qed.

Lemma walk_dispatch_all e : preserves P (dispatch e).
Proof.
  destruct (snapshot_of e) as [c|] eqn:Q; [|now apply walk_dispatch].
  destruct e as [p|p d|s|s m|s|t]; try discriminate.
  destruct m; try discriminate. apply walk_ws_onmessage_initial.
Qed.

Lemma walk_step (w : W) te : P w -> P (step w te).
Proof. intros H. unfold step. apply walk_dispatch_all. auto. Qed.

Lemma walk_run trace : forall w : W, P w -> P (run w trace).
Proof.
  induction trace as [|te r IH]; intros w H; simpl; auto.
  apply IH. now apply walk_step.
Qed.
End Handlers.
End HandlerWalk.

(** ** The timers in use *)
Module ScheduleFacts.
Import MarketWorker Traces RegistryFacts InvariantFacts.

Lemma distinct_frame (w w' : W) :
  timers w' = timers w -> nextTimerId w' = nextTimerId w ->
  distinct_handles w -> distinct_handles w'.
Proof. unfold distinct_handles. intros -> ->. auto. Qed.

Lemma distinct_schedule cb d rep (w : W) :
  distinct_handles w -> distinct_handles (snd (schedule cb d rep w)).
Proof.
  intros [N F]. unfold distinct_handles, schedule. cbn. split.
  - rewrite map_app. cbn.
    apply NoDup_app; [exact N | constructor; [tauto | constructor] |].
    intros t Ht [<-|[]]. apply in_map_iff in Ht. destruct Ht as [x [E Ix]].
    specialize (F x Ix). rewrite E in F. lia.
  - intros x Hx. apply in_app_or in Hx. destruct Hx as [Hx|[<-|[]]].
    + specialize (F x Hx). lia.
    + cbn. lia.
Qed.

Lemma nodup_map_filter {A B} (f : A -> B) (g : A -> bool) (l : list A) :
  NoDup (map f l) -> NoDup (map f (filter g l)).
Proof.
  induction l as [|a r IH]; simpl; auto.
  intros H. inversion H; subst.
  destruct (g a); simpl; auto.
  constructor; auto. intros I. apply H2.
  apply in_map_iff in I. destruct I as [x [E Ix]]. apply filter_In in Ix.
  rewrite <- E. apply in_map. tauto.
Qed.

Lemma distinct_unschedule t (w : W) :
  distinct_handles w -> distinct_handles (set_timers (unschedule t (timers w)) w).
Proof.
  intros [N F]. unfold distinct_handles, unschedule. cbn. split.
  - now apply nodup_map_filter.
  - intros x Hx. apply filter_In in Hx. apply F. tauto.
Qed.

Ltac framed_handles :=
  intros; eapply distinct_frame; [..|eassumption]; reflexivity.

Lemma distinct_removePort p : preserves distinct_handles (removePort p).
Proof.
  apply WalkFacts.walk_removePort; try framed_handles.
  intros. now apply distinct_unschedule.
Qed.

Lemma distinct_onconnect p : preserves distinct_handles (onconnect p).
Proof.
  apply WalkFacts.walk_onconnect; try framed_handles.
  intros. now apply distinct_schedule.
Qed.

Lemma distinct_run trace (w : W) :
  distinct_handles w -> distinct_handles (run w trace).
Proof.
  apply HandlerWalk.walk_run; try framed_handles.
  - intros. now apply distinct_schedule.
  - intros. now apply distinct_unschedule.
  - apply distinct_removePort.
  - apply distinct_onconnect.
Qed.

Lemma reachable_distinct (w : W) : reachable w -> distinct_handles w.
Proof.
  intros [bad [trace ->]]. apply distinct_run.
  split; [constructor | intros x []].
Qed.

Lemma same_callback_eq a b : same_callback a b = true <-> a = b.
Proof. destruct a, b; simpl; split; congruence. Qed.

Lemma at_most_one {A B} (f : A -> B) (p : A -> bool) (l : list A) :
  NoDup (map f l) ->
  (forall x y, In x l -> In y l -> p x = true -> p y = true -> f x = f y) ->
  (length (filter p l) <= 1)%nat.
Proof.
  induction l as [|a r IH]; simpl; [lia|].
  intros N H. inversion N; subst.
  destruct (p a) eqn:Pa.
  - assert (filter p r = []) as E.
    { destruct (filter p r) as [|y t] eqn:Fr; auto. exfalso.
      assert (In y (filter p r)) as Iy by (rewrite Fr; now left).
      apply filter_In in Iy. destruct Iy as [Iy Py].
      apply H2. rewrite (H a y); auto. now apply in_map. }
    rewrite E. simpl. lia.
  - apply IH; auto.
Qed.

(** [X7] In every world the worker can reach at most one flush timer and
    at most one heartbeat interval are scheduled: [scheduleBatch] and
    [startHeartbeatMonitoring] test their handle before they schedule, and
    the handle is cleared only together with its timer.  (The reconnect
    timer is the exception: [ws.onclose] schedules one without looking.) *)
Theorem one_timer_per_purpose (w : W) cb :
  reachable w -> cb <> Reconnect -> (length (scheduled cb w) <= 1)%nat.
Proof.
  intros R NR.
  pose proof (reachable_Inv w R) as I.
  destruct (reachable_distinct w R) as [N _].
  unfold scheduled. apply (at_most_one timer_id); auto.
  intros x y Ix Iy Cx Cy.
  apply same_callback_eq in Cx, Cy.
  destruct cb; [| congruence |].
  - pose proof (inv_flush w I x Ix Cx). pose proof (inv_flush w I y Iy Cy). congruence.
  - pose proof (inv_heartbeat w I x Ix Cx). pose proof (inv_heartbeat w I y Iy Cy).
    congruence.
Qed.

(** *** The monitor and the registry *)

Lemma monitor_removePort p : preserves monitor_needs_ports (removePort p).
Proof.
  intros w H. rewrite removePort_run. cbn [snd].
  unfold without_port, monitor_needs_ports in *.
  destruct (JsMap.has Nat.eqb p (ports w)); auto.
  cbn [ports set_ports].
  destruct (JsMap.delete Nat.eqb p (ports w)) as [|e r] eqn:D; cbn.
  - intros _.
    apply (CleanupFacts.cleanup_fields (set_ports [] w)).
  - cbn. discriminate.
Qed.

Lemma set_port_not_empty p (i : PortInfo) m : JsMap.set Nat.eqb p i m <> [].
Proof. destruct m as [|[k v] r]; simpl; [|destruct (p =? k)%nat]; discriminate. Qed.

Lemma monitor_onconnect p : preserves monitor_needs_ports (onconnect p).
Proof.
  intros w _. unfold onconnect.
  unfold bind at 1. unfold read at 1. unfold bind at 1. unfold write at 1.
  unfold bind at 1. unfold Date_now at 1. unfold read at 1.
  unfold bind at 1. unfold write at 1.
  set (w4 := set_ports _ _).
  assert (ports w4 <> []) as N4 by apply set_port_not_empty.
  match goal with |- monitor_needs_ports (snd (?tail w4)) =>
    assert (preserves (fun v : W => ports v <> []) tail) as T
  end.
  { unfold connect, startHeartbeatMonitoring, setInterval.
    assert (forall cb d rep, preserves (fun v : W => ports v <> [])
                               (schedule cb d rep)) as Hs
      by (intros cb d rep v Hv; exact Hv).
    assert (preserves (fun v : W => ports v <> []) new_WebSocket) as Hn
      by (intros v Hv; exact Hv).
    walk. }
  intros E. exfalso. exact (T w4 N4 E).
Qed.

Lemma monitor_run trace (w : W) :
  monitor_needs_ports w -> monitor_needs_ports (run w trace).
Proof.
  apply HandlerWalk.walk_run; try (intros; assumption).
  - intros p i v _ E. exfalso. exact (set_port_not_empty _ _ _ E).
  - apply monitor_removePort.
  - apply monitor_onconnect.
Qed.

(** [X8] The heartbeat monitor never runs without subscribers: in every
    world the worker can reach, an empty [ports] map means that
    [heartbeatInterval] is null and that no heartbeat interval is
    scheduled. *)
Theorem no_heartbeat_without_subscribers (w : W) :
  reachable w -> ports w = [] ->
  heartbeatInterval w = None /\
  forall x, In x (timers w) -> callback x <> Heartbeat.
Proof.
  intros R E.
  assert (heartbeatInterval w = None) as H.
  { destruct R as [bad [trace ->]]. apply monitor_run; auto. intros _. reflexivity. }
  split; auto. intros x Ix Cx.
  pose proof (inv_heartbeat w (reachable_Inv w R) x Ix Cx). congruence.
Qed.

(** *** The cached snapshot *)

Lemma cache_removePort c p :
  preserves (fun v : W => lastInitialData v = c) (removePort p).
Proof. apply WalkFacts.walk_removePort; intros; assumption. Qed.

Lemma cache_onconnect c p :
  preserves (fun v : W => lastInitialData v = c) (onconnect p).
Proof. apply WalkFacts.walk_onconnect; intros; assumption. Qed.

Lemma step_cache (w : W) te :
  lastInitialData (step w te) =
  match snapshot_of (snd te) with
  | Some m => Some m
  | None => lastInitialData w
  end.
Proof.
  destruct te as [t e]. unfold step. cbn [fst snd].
  destruct (snapshot_of e) as [m|] eqn:Q.
  - destruct e as [p|p d|s|s m'|s|t']; try discriminate.
    destruct m'; try discriminate. injection Q as <-.
    cbn [dispatch ws_onmessage]. unfold bind at 1. unfold write at 1.
    apply (HandlerWalk.walk_broadcast
             (fun v : W => lastInitialData v = Some (MInitial data)));
      [intros; assumption | reflexivity].
  - apply (HandlerWalk.walk_dispatch (fun v : W => lastInitialData v = lastInitialData w));
      try (intros; assumption); auto.
    + apply cache_removePort.
    + apply cache_onconnect.
Qed.

(** [X9] [lastInitialData] follows the upstream and nothing else: after
    any trace of events it holds the last [initial] message the trace
    brought, and what it held before if the trace brought none.  No
    handler clears it: not the close of the socket, not a reconnect, not
    the cleanup after the last subscriber left. *)
Theorem snapshot_cache_follows_upstream trace : forall w : W,
  lastInitialData (run w trace) = cached (lastInitialData w) trace.
Proof.
  induction trace as [|te r IH]; intros w; [reflexivity|].
  cbn [run fold_left cached]. fold (run (step w te) r).
  rewrite IH, step_cache. reflexivity.
Qed.
End ScheduleFacts.

(** ** Reconnecting *)
Module ReconnectFacts.
Import MarketWorker MarketWorkerFacts RegistryFacts InvariantFacts UpstreamFacts.

Lemma length_update_nth {A} (f : A -> A) (l : list A) : forall n,
  length (update_nth n f l) = length l.
Proof. induction l as [|a l IH]; intros [|n]; simpl; auto. Qed.

Lemma nth_error_last {A} (l : list A) x : nth_error (l ++ [x]) (length l) = Some x.
Proof. induction l; simpl; auto. Qed.

Lemma after_close_subscribed (v : W) :
  ports v <> [] ->
  timers (after_close v) =
    kept_on_close v ++ [Build_Timer (nextTimerId v) Reconnect 2000 false (clock v)] /\
  reconnectTimeout (after_close v) = Some (nextTimerId v) /\
  ws (after_close v) = ws v /\ sockets (after_close v) = sockets v.
Proof.
  intros N. unfold after_close, after_flush, kept_on_close.
  cbn [batchTimer set_outbox].
  destruct (batchTimer v) as [t|]; cbn [pendingUpdates set_timers set_outbox];
    [destruct (pendingUpdates v)|]; cbn; destruct (ports v); try congruence; cbn; auto.
Qed.

(** [X10] The reconnect cycle: when the socket closes while a port is
    attached (and the attached ports accept messages), the handle of the
    reconnect timer is stored and no socket is constructed yet; when that
    timer fires, exactly one new socket is constructed, [ws] names it, it is
    connecting, and the timer is no longer scheduled. *)
Theorem reconnect_reopens_upstream (w : W) t1 t2 s :
  reachable w -> healthy w -> ports w <> [] ->
  let w1 := step w (t1, SocketClose s) in
  let w2 := step w1 (t2, TimerFires (nextTimerId w)) in
  reconnectTimeout w1 = Some (nextTimerId w) /\
  connections w1 = connections w /\
  connections w2 = S (connections w) /\
  ws w2 = Some (connections w) /\
  socket_state (connections w) w2 = Some CONNECTING /\
  (forall x, In x (timers w2) -> timer_id x <> nextTimerId w).
Proof.
  intros R H N. cbv zeta.
  pose proof (reachable_Inv w R) as I.
  set (v := socket_becomes s CLOSED (set_clock t1 w)).
  assert (healthy v) as Hv by (eapply healthy_frame; [..|exact H]; reflexivity).
  assert (step w (t1, SocketClose s) = after_close v) as S1.
  { unfold step. cbn [fst snd dispatch]. unfold bind, write. fold v.
    now rewrite (ws_onclose_run v Hv). }
  rewrite S1.
  destruct (after_close_subscribed v N) as [T [RT [Ws So]]].
  remember (after_close v) as w1 eqn:Ew1. clear Ew1 S1.
  assert (length (sockets w1) = connections w) as L1.
  { rewrite So. unfold v, socket_becomes. cbn. apply length_update_nth. }
  assert (forall y, In y (kept_on_close v) -> (timer_id y < nextTimerId w)%positive) as F.
  { intros y Hy. apply (inv_fresh w I). unfold kept_on_close in Hy.
    cbn [batchTimer timers v socket_becomes set_sockets set_clock] in Hy.
    destruct (batchTimer w); auto. apply in_unschedule in Hy. tauto. }
  assert (find_timer (nextTimerId w) (timers w1) =
          Some (Build_Timer (nextTimerId w) Reconnect 2000 false (clock v))) as Fd.
  { rewrite T. apply CoalescerFacts.find_timer_fresh; auto. }
  split; [exact RT|]. split; [exact L1|].
  assert (step w1 (t2, TimerFires (nextTimerId w)) =
          set_ws (Some (length (sockets w1)))
            (set_sockets (sockets w1 ++ [Build_Socket CONNECTING []])
               (set_timers (unschedule (nextTimerId w) (timers w1))
                  (set_clock t2 w1)))) as S2.
  { unfold step. cbn [fst snd dispatch]. unfold fire.
    unfold bind at 1. unfold read at 1. cbn [timers set_clock]. rewrite Fd.
    reflexivity. }
  rewrite S2. unfold connections, socket_state.
  cbn [sockets set_ws set_sockets ws timers set_timers].
  rewrite length_app, L1. cbn [length].
  split; [unfold connections; lia|]. split; [reflexivity|]. split.
  - unfold connections in L1. rewrite <- L1. now rewrite nth_error_last.
  - intros x Hx. apply in_unschedule in Hx. tauto.
Qed.
End ReconnectFacts.

(** ** The earlier variant, continued *)
Module EarlierMoreFacts.
Import EarlierWorker.

Lemma set_fresh {V} k (v : V) (m : list (Port * V)) :
  ~ In k (JsMap.keys m) -> JsMap.set Nat.eqb k v m = m ++ [(k, v)].
Proof.
  induction m as [|[a b] r IH]; simpl; auto.
  intros N. destruct (Nat.eqb_spec k a) as [->|Na]; [tauto|].
  f_equal. apply IH. tauto.
Qed.

(** [X16] In the earlier variant a [ping] from a port that is no longer
    in the map (removed by the heartbeat check, say) puts it back: the
    handler sets the port's timestamp without looking it up, so the port is
    appended to the map and answered with [pong], while no socket is
    constructed and no timer is scheduled for it. *)
Theorem earlier_ping_reattaches (w : W) port :
  ~ In port (JsMap.keys (ports w)) -> throws port w = false ->
  port_onmessage port Ping w =
  (Normal tt,
   set_outbox (outbox w ++ [(port, MPong)])
     (set_ports (ports w ++ [(port, clock w)]) w)).
Proof.
  intros N T. unfold port_onmessage, bind, Date_now, read, write.
  rewrite (set_fresh port (clock w) (ports w) N).
  rewrite postMessage_ok by exact T. reflexivity.
Qed.

Lemma earlier_removePort_spec port (w : W) :
  True ->
  fst (removePort port w) = Normal tt /\
  ports (snd (removePort port w)) = JsMap.delete Nat.eqb port (ports w) /\
  outbox (snd (removePort port w)) = outbox w /\ True.
Proof.
  intros _. destruct (FailureFacts.earlier_removePort_frame port w) as [A [B [C _]]].
  auto.
Qed.

(** [X17] [checkHeartbeats] of the earlier variant: it returns normally,
    posts nothing, and keeps exactly the ports whose last heartbeat is at
    most 5000 ms old, with their timestamps and in their order. *)
Theorem earlier_checkHeartbeats_evicts_stale (w : W) :
  NoDup (JsMap.keys (ports w)) ->
  fst (checkHeartbeats w) = Normal tt /\
  ports (snd (checkHeartbeats w)) =
    filter (fun e => clock w - snd e <=? HEARTBEAT_TIMEOUT) (ports w) /\
  outbox (snd (checkHeartbeats w)) = outbox w.
Proof.
  intros N. unfold checkHeartbeats, Date_now.
  unfold bind at 1. unfold read at 1. unfold bind at 1. unfold read at 1.
  unfold bind at 1. unfold read at 1.
  destruct (EvictionFacts.evict_for_of_ports removePort (fun _ : W => True)
              earlier_removePort_spec (fun _ _ H => H)
              (fun port lastHeartbeat =>
                 if HEARTBEAT_TIMEOUT <? clock w - lastHeartbeat
                 then removePort port else ret tt)
              (fun _ t => HEARTBEAT_TIMEOUT <? clock w - t)
              (fun _ => [])) with (w := w)
    as [w' [H0 [H1 [H2 _]]]]; auto.
  - intros p i v _ T. now rewrite T.
  - intros p i v _ T. rewrite T. unfold ret.
    now rewrite app_nil_r, set_outbox_same.
  - rewrite H0. cbn [fst snd]. repeat split.
    + rewrite H1. apply filter_ext. intros [p t]. cbn [snd].
      now rewrite Z.leb_antisym.
    + rewrite H2. rewrite <- (app_nil_r (outbox w)) at 2. f_equal.
      clear. induction (filter _ (ports w)); simpl; auto.
Qed.
End EarlierMoreFacts.

(** ** The first variant *)
Module FirstWorkerFacts.
Import FirstWorker.

Lemma first_broadcast_loop m (ks : list Port) : forall w : W,
  for_each ks (fun port => try_catch (postMessage port m) (ret tt)) w =
  (Normal tt,
   set_outbox (outbox w ++ map (fun p => (p, m))
                             (filter (fun p => negb (throws p w)) ks)) w).
Proof.
  induction ks as [|k r IH]; intros w; simpl.
  - unfold ret. now rewrite app_nil_r, set_outbox_same.
  - unfold bind. rewrite try_catch_post.
    destruct (throws k w) eqn:T; cbn [negb].
    + unfold ret. apply IH.
    + rewrite IH. cbn. rewrite <- app_assoc. reflexivity.
Qed.

(** [X18] [broadcast] of the first variant never fails and never removes
    a port: every port of the array that accepts messages gets the message,
    in array order, a port that throws is skipped, and nothing but the
    posted messages changes, the array included. *)
Theorem first_broadcast_keeps_every_port m (w : W) :
  broadcast m None w =
  (Normal tt,
   set_outbox (outbox w ++ map (fun p => (p, m))
                             (filter (fun p => negb (throws p w))
                                (JsMap.keys (ports w)))) w).
Proof.
  unfold broadcast. unfold bind at 1. unfold read at 1.
  apply first_broadcast_loop.
Qed.

Lemma first_onconnect_first port (w : W) :
  ports w = [] ->
  sockets (snd (onconnect port w)) = sockets w ++ [Build_Socket CONNECTING []] /\
  ports (snd (onconnect port w)) <> [].
Proof.
  intros E. unfold onconnect, bind, read, write, push, connect, new_WebSocket.
  cbn. rewrite E. cbn. split; [reflexivity | discriminate].
Qed.

Lemma first_onconnect_later port (w : W) :
  ports w <> [] ->
  sockets (snd (onconnect port w)) = sockets w /\
  ports (snd (onconnect port w)) <> [].
Proof.
  intros N. unfold onconnect, bind, read, write, push. cbn.
  destruct (ports w) as [|e r] eqn:E; [congruence|]. cbn.
  rewrite length_app. cbn.
  replace (length r + 1 =? 0)%nat with false by (symmetry; apply Nat.eqb_neq; lia).
  unfold postMessage, throws. cbn.
  destruct (lastInitialData w); cbn; repeat (destruct (existsb _ _); cbn);
    (split; [reflexivity | discriminate]).
Qed.

Lemma first_attach_later tabs : forall w : W,
  ports w <> [] -> sockets (attach_all w tabs) = sockets w.
Proof.
  induction tabs as [|[t p] r IH]; intros w N; [reflexivity|].
  cbn [attach_all fold_left fst snd]. fold (attach_all (snd (onconnect p (set_clock t w))) r).
  destruct (first_onconnect_later p (set_clock t w) N) as [S P].
  rewrite IH; auto.
Qed.

(** [X19] One connection for all tabs, first variant: however many tabs
    attach to the freshly loaded worker, and whether or not their ports
    accept messages, exactly one socket is constructed.  The array grows
    with every attach, so [ports.length === 1] holds for the first only. *)
Theorem first_one_connection bad tabs :
  tabs <> [] -> length (sockets (attach_all (initial bad) tabs)) = 1%nat.
Proof.
  destruct tabs as [|[t p] r]; [congruence|]. intros _.
  cbn [attach_all fold_left fst snd].
  fold (attach_all (snd (onconnect p (set_clock t (initial bad)))) r).
  destruct (first_onconnect_first p (set_clock t (initial bad)) eq_refl) as [S P].
  rewrite first_attach_later by exact P. now rewrite S.
Qed.

Lemma splice_indexOf port (ps : list (Port * unit)) :
  match indexOf port ps with
  | Some index => splice index ps
  | None => ps
  end = remove_first port ps.
Proof.
  induction ps as [|[p u] r IH]; simpl; auto.
  destruct (p =? port)%nat; auto.
  destruct (indexOf port r); simpl in *; now rewrite <- IH.
Qed.

(** [X20] The [close] listener of the first variant removes the first
    occurrence of the port from the array.  If the array is empty after
    that, the reconnect timer whose handle is stored is cancelled, the
    socket is closed, and both variables are null; if not, nothing else
    changes. *)
Theorem first_close_detaches (w : W) port :
  let r := port_onclose port w in
  fst r = Normal tt /\
  ports (snd r) = remove_first port (ports w) /\
  (remove_first port (ports w) <> [] ->
   snd r = set_ports (remove_first port (ports w)) w) /\
  (remove_first port (ports w) = [] ->
   reconnectTimeout (snd r) = None /\ ws (snd r) = None /\
   (forall t x, reconnectTimeout w = Some t -> In x (timers (snd r)) -> timer_id x <> t) /\
   (forall k, ws w = Some k ->
      socket_state k (snd r) <> Some OPEN /\ socket_state k (snd r) <> Some CONNECTING)).
Proof.
  cbv zeta.
  assert (port_onclose port w =
          (let w1 := set_ports (remove_first port (ports w)) w in
           if (length (ports w1) =? 0)%nat then
             let w2 := match reconnectTimeout w1 with
                       | Some t => set_reconnectTimeout None
                                     (set_timers (unschedule t (timers w1)) w1)
                       | None => w1
                       end in
             (Normal tt,
              match ws w2 with
              | Some k => set_ws None (snd (socket_close k w2))
              | None => w2
              end)
           else (Normal tt, w1))) as E.
  { unfold port_onclose. unfold bind at 1. unfold read at 1. cbv beta iota.
    rewrite <- (splice_indexOf port (ports w)).
    destruct (indexOf port (ports w)) as [index|].
    - unfold bind, read, write, clearTimeout, socket_close, ret, write. cbn.
      destruct (length (splice index (ports w)) =? 0)%nat; [|reflexivity].
      cbn. destruct (reconnectTimeout w) eqn:RT; cbn; rewrite ?RT; cbn;
        destruct (ws w) eqn:Ws; cbn; rewrite ?Ws; reflexivity.
    - replace (set_ports (ports w) w) with w by (destruct w; reflexivity).
      unfold bind, read, write, clearTimeout, socket_close, ret, write. cbn.
      destruct (length (ports w) =? 0)%nat; [|reflexivity].
      cbn. destruct (reconnectTimeout w) eqn:RT; cbn; rewrite ?RT; cbn;
        destruct (ws w) eqn:Ws; cbn; rewrite ?Ws; reflexivity. }
  rewrite E. clear E. cbv zeta. cbn [ports set_ports].
  destruct (remove_first port (ports w)) as [|e r] eqn:D; cbn [length Nat.eqb fst snd].
  - cbn [reconnectTimeout set_ports timers].
    destruct (reconnectTimeout w) as [t|] eqn:RT;
      cbn [ws set_reconnectTimeout set_timers set_ports];
      destruct (ws w) as [k|] eqn:Ws; cbn;
      (split; [reflexivity|]); (split; [reflexivity|]); (split; [congruence|]);
      intros _; (split; [congruence|]); (split; [congruence|]); split;
      try discriminate;
      try (intros t' x Q Hx; injection Q as <-;
           apply InvariantFacts.in_unschedule in Hx; tauto);
      try (intros k' Q; injection Q as <-;
           unfold socket_state; cbn;
           rewrite CleanupFacts.nth_error_update_nth;
           destruct (nth_error (sockets w) k) as [[[] snt]|]; cbn;
           split; discriminate).
  - split; [reflexivity|]. split; [reflexivity|]. split; [reflexivity|]. congruence.
Qed.
End FirstWorkerFacts.

(** ** The grid component's batching *)
Module AppFacts.
Import App.

Section Facts.
Context {F : Floats}.
Implicit Type s : State F.

Lemma Inv_scheduleFrame s :
  animationFrames s = (if frameScheduledRef s then 1%nat else 0%nat) ->
  MarketWorker.keyed (pendingUpdatesRef s) ->
  Inv (scheduleFrame s).
Proof.
  intros A K. unfold scheduleFrame.
  destruct (frameScheduledRef s) eqn:E.
  - split; auto; now rewrite E.
  - split; cbn; auto.
Qed.

Lemma Inv_queueUpdate updates s : Inv s -> Inv (queueUpdate updates s).
Proof.
  intros [A Q K]. unfold queueUpdate. apply Inv_scheduleFrame; cbn; auto.
  now apply (CoalescerFacts.keyed_offer_all updates).
Qed.

Lemma Inv_frame_callback updateTime n s :
  Inv s -> animationFrames s = S n ->
  Inv (frame_callback updateTime (set_animationFrames n s)).
Proof.
  intros [A Q K] E.
  assert (frameScheduledRef s = true /\ n = 0%nat) as [Fl ->].
  { rewrite E in A. destruct (frameScheduledRef s); split; auto; congruence. }
  unfold frame_callback. cbn [pendingUpdatesRef gridRef set_animationFrames].
  destruct ((0 <? JsMap.size (pendingUpdatesRef s))%nat && gridRef s) eqn:T; cbn.
  - split; cbn; auto. intros k r [].
  - destruct (pendingUpdatesRef s) as [|e r] eqn:P; cbn.
    + split; cbn; auto; now rewrite P.
    + split; cbn; auto; now rewrite P.
Qed.

Lemma Inv_step s e : Inv s -> Inv (step s e).
Proof.
  intros H. destruct e as [m|dt| |]; cbn [step].
  - destruct m; cbn [onmessage]; try exact H;
      try (destruct H as [A Q K]; split; cbn; now auto).
    now apply Inv_queueUpdate.
  - destruct (animationFrames s) as [|n] eqn:E; auto.
    now apply Inv_frame_callback.
  - unfold perf_interval. destruct (0 <? _)%nat; auto.
    destruct H as [A Q K]. split; cbn; auto.
  - destruct H as [A Q K]. split; cbn; auto.
Qed.

Lemma Inv_run trace : forall s, Inv s -> Inv (run s trace).
Proof.
  induction trace as [|e r IH]; intros s H; simpl; auto.
  apply IH. now apply Inv_step.
Qed.

Lemma reachable_Inv_app s : reachable s -> Inv s.
Proof.
  intros [trace ->]. apply Inv_run.
  split; cbn; auto; try congruence. intros k r [].
Qed.

(** [X21] At most one animation frame is requested at a time, and queued
    rows never wait without one: in every state the component reaches, the
    number of requested callbacks is 1 if [frameScheduledRef] is set and 0
    if not, and a non-empty queue implies that the flag is set. *)
Theorem frame_requests_match_flag s :
  reachable s ->
  animationFrames s = (if frameScheduledRef s then 1%nat else 0%nat) /\
  (pendingUpdatesRef s <> [] -> frameScheduledRef s = true).
Proof. intros R. destruct (reachable_Inv_app s R) as [A Q K]. auto. Qed.

(** A trace of [update] messages fills the queue and requests a frame. *)
Lemma run_updates trace : forall s,
  forallb is_update trace = true ->
  pendingUpdatesRef (run s trace) =
    MarketWorker.offer_all (queued trace) (pendingUpdatesRef s) /\
  transactions (run s trace) = transactions s /\
  gridRef (run s trace) = gridRef s /\
  perfStats (run s trace) = perfStats s /\
  (trace <> [] -> frameScheduledRef (run s trace) = true).
Proof.
  induction trace as [|e r IH]; intros s U.
  - cbn. repeat split; auto; congruence.
  - cbn [forallb] in U. apply andb_true_iff in U. destruct U as [Ue Ur].
    destruct e as [m| | |]; try discriminate. destruct m; try discriminate.
    cbn [run fold_left]. fold (run (step s (WorkerMessage (MUpdate data timestamp))) r).
    destruct (IH (step s (WorkerMessage (MUpdate data timestamp))) Ur)
      as [P [T [G [S Fl]]]].
    assert (pendingUpdatesRef (step s (WorkerMessage (MUpdate data timestamp))) =
            MarketWorker.offer_all data (pendingUpdatesRef s) /\
            transactions (step s (WorkerMessage (MUpdate data timestamp))) = transactions s /\
            gridRef (step s (WorkerMessage (MUpdate data timestamp))) = gridRef s /\
            perfStats (step s (WorkerMessage (MUpdate data timestamp))) = perfStats s /\
            frameScheduledRef (step s (WorkerMessage (MUpdate data timestamp))) = true)
      as [P1 [T1 [G1 [S1 F1]]]].
    { cbn [step onmessage]. unfold queueUpdate, scheduleFrame. cbn.
      destruct (frameScheduledRef s) eqn:E; cbn; auto. }
    rewrite P, T, G, S, P1, T1, G1, S1.
    cbn [queued flat_map]. rewrite CoalescerFacts.offer_all_app.
    repeat split; auto.
    intros _. destruct r as [|e' r']; [exact F1 | apply Fl; discriminate].
Qed.

(** [X22] One frame, one transaction: from a state the component reaches
    with the grid mounted, after any number of [update] messages carrying
    at least one row the next animation frame hands the grid exactly one
    transaction.  It holds one row per queued symbol -- the last one
    received, or the one already queued if the messages had none for it --
    and afterwards the queue is empty, the flag is clear and no callback is
    requested. *)
Theorem frame_applies_one_transaction s trace updateTime :
  reachable s -> gridRef s = true ->
  forallb is_update trace = true -> queued trace <> [] ->
  let s' := step (run s trace) (AnimationFrame updateTime) in
  let batch := JsMap.values (MarketWorker.offer_all (queued trace) (pendingUpdatesRef s)) in
  transactions s' = transactions s ++ [batch] /\
  (forall sym, MarketWorker.batch_row sym batch =
               match MarketWorker.last_offer sym (queued trace) with
               | Some r => Some r
               | None => JsMap.get String.eqb sym (pendingUpdatesRef s)
               end) /\
  pendingUpdatesRef s' = [] /\ frameScheduledRef s' = false /\
  animationFrames s' = 0%nat /\
  updateCount (perfStats s') = S (updateCount (perfStats s)).
Proof.
  intros R G U N. cbv zeta.
  assert (trace <> []) as Nt by (intros ->; now apply N).
  destruct (run_updates trace s U) as [P [T [Gr [S Fl]]]].
  specialize (Fl Nt).
  assert (reachable (run s trace)) as R1.
  { destruct R as [t0 ->]. exists (t0 ++ trace). unfold run. now rewrite fold_left_app. }
  destruct (reachable_Inv_app _ R1) as [A _ K1].
  destruct (reachable_Inv_app _ R) as [_ _ K].
  rewrite Fl in A.
  pose proof (CoalescerFacts.offer_all_pending (queued trace) (pendingUpdatesRef s) N) as Np.
  remember (run s trace) as s1 eqn:E1. clear E1.
  cbn [step]. rewrite A. unfold frame_callback.
  cbn [pendingUpdatesRef gridRef set_animationFrames].
  rewrite Gr, G, P.
  assert (forall sym,
            MarketWorker.batch_row sym
              (JsMap.values (MarketWorker.offer_all (queued trace) (pendingUpdatesRef s))) =
            match MarketWorker.last_offer sym (queued trace) with
            | Some r => Some r
            | None => JsMap.get String.eqb sym (pendingUpdatesRef s)
            end) as Hb.
  { intros sym.
    rewrite CoalescerFacts.batch_row_values
      by (apply CoalescerFacts.keyed_offer_all; exact K).
    apply CoalescerFacts.get_offer_all. }
  destruct (MarketWorker.offer_all (queued trace) (pendingUpdatesRef s)) as [|e r];
    [congruence|].
  cbn [JsMap.size length Nat.ltb Nat.leb andb].
  cbn [set_perfStats set_pendingUpdatesRef set_transactions set_frameScheduledRef
       pendingUpdatesRef transactions frameScheduledRef animationFrames perfStats
       rowData connectionStatus perfMetrics gridRef JsMap.size length Nat.ltb Nat.leb
       track updateCount set_animationFrames].
  rewrite T, S. repeat split; auto.
Qed.

(** [X23] Before the grid is mounted nothing is dropped: an animation
    frame that finds rows queued and [gridRef.current] unset applies no
    transaction, keeps every queued row and requests the next frame. *)
Theorem updates_wait_for_grid s updateTime :
  reachable s -> gridRef s = false -> pendingUpdatesRef s <> [] ->
  let s' := step s (AnimationFrame updateTime) in
  pendingUpdatesRef s' = pendingUpdatesRef s /\
  transactions s' = transactions s /\
  frameScheduledRef s' = true /\ animationFrames s' = 1%nat.
Proof.
  intros R G N. cbv zeta.
  destruct (reachable_Inv_app s R) as [A Q _].
  rewrite (Q N) in A.
  cbn [step]. rewrite A. unfold frame_callback.
  cbn [pendingUpdatesRef gridRef set_animationFrames]. rewrite G, andb_false_r.
  cbn. destruct (pendingUpdatesRef s) as [|e r] eqn:P; [congruence|].
  cbn. auto.
Qed.
End Facts.
End AppFacts.

(** ** The coalescer, continued *)
Module CoalescerMoreFacts.
Import MarketWorker InvariantFacts CoalescerFacts.

(** [X12] An [update] message without rows wedges the coalescer.  Such a
    window ends with [flushBatch] returning at its first line, before
    [batchTimer = null]; the handle of the timer that fired stays in
    [batchTimer], and from then on [scheduleBatch] returns at once: however
    many [update] messages follow, their rows pile up in [pendingUpdates],
    nothing is posted and no flush is scheduled. *)
Theorem rows_wait_after_empty_window (w : W) trace1 tf trace2 :
  reachable w -> batchTimer w = None ->
  forallb is_update trace1 = true -> trace1 <> [] -> offers trace1 = [] ->
  forallb is_update trace2 = true ->
  let w3 := run (step (run w trace1) (tf, TimerFires (nextTimerId w))) trace2 in
  outbox w3 = outbox w /\ NoFlush w3 /\
  pendingUpdates w3 = offer_all (offers trace2) [] /\
  batchTimer w3 = Some (nextTimerId w).
Proof.
  intros R E U1 N1 O1 U2. cbv zeta.
  destruct (empty_window_emits_nothing w trace1 tf R E U1 N1 O1) as [O [T [P B]]].
  destruct (open_window_run trace2 _ _ B U2) as [B3 [T3 [_ [_ [O3 [_ P3]]]]]].
  rewrite O3, O, P3, P, B3. repeat split; auto.
  intros x Hx Cx. rewrite T3, T in Hx.
  pose proof (inv_flush w (reachable_Inv w R) x Hx Cx). congruence.
Qed.
End CoalescerMoreFacts.

(** ** How the handlers complete

    The only calls of the worker that can throw are [postMessage] and
    [ws.send]; the second is guarded by the test of [readyState]. *)
Module CompletionFacts.
Import MarketWorker Traces.

Lemma completes_ret {A} (a : A) : completes (ret a).
Proof. intros w B. eexists _, _. split; [reflexivity | exact B]. Qed.

Lemma completes_read {A} (f : W -> A) : completes (read f).
Proof. intros w B. eexists _, _. split; [reflexivity | exact B]. Qed.

Lemma completes_write f : (forall w : W, broken (f w) = broken w) -> completes (write f).
Proof.
  intros H w B. unfold write. eexists _, _. split; [reflexivity|]. now rewrite H.
Qed.

Lemma completes_bind {X Y} (c : M X) (k : X -> M Y) :
  completes c -> (forall a, completes (k a)) -> completes (bind c k).
Proof.
  intros Hc Hk w B. destruct (Hc w B) as [a [w1 [E B1]]].
  unfold bind. rewrite E. now apply Hk.
Qed.

Lemma completes_for_each {X} (xs : list X) (body : X -> M unit) :
  (forall x, completes (body x)) -> completes (for_each xs body).
Proof.
  intros Hb. induction xs as [|x r IH]; simpl.
  - apply completes_ret.
  - apply completes_bind; auto.
Qed.

Lemma completes_for_of_ports (body : Port -> PortInfo -> M unit) :
  (forall p i, completes (body p i)) -> completes (for_of_ports body).
Proof.
  intros Hb. unfold for_of_ports.
  apply completes_bind; [apply completes_read|]. intros ks.
  apply completes_for_each. intros p.
  apply completes_bind; [apply completes_read|]. intros [i|]; auto.
  apply completes_ret.
Qed.

Lemma completes_try_catch (c h : M unit) : completes c -> completes (try_catch c h).
Proof.
  intros Hc w B. destruct (Hc w B) as [a [w1 [E B1]]].
  unfold try_catch. rewrite E. eexists _, _. split; [reflexivity | exact B1].
Qed.

Lemma completes_postMessage p m : completes (postMessage p m).
Proof.
  intros w B. unfold postMessage, throws. rewrite B. simpl.
  eexists _, _. split; [reflexivity | exact B].
Qed.

Lemma completes_schedule cb d rep : completes (schedule cb d rep).
Proof. intros w B. unfold schedule. eexists _, _. split; [reflexivity | exact B]. Qed.

Lemma completes_new_WebSocket : completes new_WebSocket.
Proof.
  intros w B. unfold new_WebSocket. eexists _, _. split; [reflexivity | exact B].
Qed.

(** [if (ws && ws.readyState === WebSocket.OPEN) ws.send(...)] *)
Lemma completes_relay c (rest : M unit) :
  completes rest ->
  completes (s <- read ws ;; up <- read ws_is_open ;;
             match s, up with
             | Some k, true => socket_send k c
             | _, _ => ret tt
             end ;; rest)%js.
Proof.
  intros Hr w B.
  unfold bind at 1. unfold read at 1. unfold bind at 1. unfold read at 1.
  unfold ws_is_open.
  destruct (ws w) as [k|]; [destruct (is_open k w) eqn:O|].
  - unfold bind, socket_send. unfold is_open in O.
    destruct (socket_state k w) as [[]|]; try discriminate.
    apply Hr. exact B.
  - unfold bind, ret. now apply Hr.
  - unfold bind, ret. now apply Hr.
Qed.

Create HintDb completes.
#[local] Hint Resolve completes_postMessage completes_schedule completes_new_WebSocket
  : completes.

Ltac complete :=
  repeat first
    [ apply completes_ret
    | apply completes_read
    | apply completes_write; reflexivity
    | apply completes_relay
    | apply completes_for_each; intros ?
    | apply completes_for_of_ports; intros ? ?
    | apply completes_try_catch
    | solve [auto with completes]
    | apply completes_bind; [|intros ?]
    | match goal with
      | |- completes (match ?x with _ => _ end) => destruct x
      end ].

Lemma completes_removePort p : completes (removePort p).
Proof.
  unfold removePort, checkCleanup, clearTimeout, clearInterval, socket_close.
  complete.
Qed.
#[local] Hint Resolve completes_removePort : completes.

Lemma completes_flushBatch : completes flushBatch.
Proof. unfold flushBatch, broadcast, Date_now. complete. Qed.

Lemma completes_heartbeat_tick : completes heartbeat_tick.
Proof. unfold heartbeat_tick, sendHeartbeats, checkHeartbeats, Date_now. complete. Qed.

Lemma completes_connect : completes connect.
Proof. unfold connect. complete. Qed.
#[local] Hint Resolve completes_flushBatch completes_heartbeat_tick completes_connect
  : completes.


End CompletionFacts.

(** ** The further theorems at work on the scenarios *)
Module MoreWitnesses.
Import MarketWorker MarketWorkerFacts InvariantFacts RegistryFacts Traces.

Lemma nodup_two_ports : NoDup [1%nat; 2%nat].
Proof.
  constructor; [simpl; intros [H|[]]; discriminate|].
  constructor; [simpl; tauto | constructor].
Defined.

Lemma tab_1_broken_reachable : reachable tab_1_broken.
Proof. eexists _, _. reflexivity. Defined.

(** Tab 1 throws, tab 2 does not: the ping reaches tab 2 and tab 1 is gone. *)
Lemma sendHeartbeats_isolates_witness :
  JsMap.keys (ports (snd (sendHeartbeats tab_1_broken))) = [2%nat] /\
  outbox (snd (sendHeartbeats tab_1_broken)) = outbox tab_1_broken ++ [(2%nat, MPing)].
Proof.
  destruct (HeartbeatFacts.sendHeartbeats_isolates tab_1_broken nodup_two_ports)
    as (_ & P & O).
  rewrite P, O. split; reflexivity.
Defined.

(** At 30002 the entry of tab 1 (last pong at 0) is too old, that of tab 2
    (last pong at 3) is not. *)
Lemma checkHeartbeats_evicts_stale_witness :
  ports (snd (checkHeartbeats (set_clock 30002 two_tabs))) =
  [(2%nat, Build_PortInfo 2 3)].
Proof.
  destruct (HeartbeatFacts.checkHeartbeats_evicts_stale (set_clock 30002 two_tabs)
              nodup_two_ports) as (_ & P & _).
  rewrite P. reflexivity.
Defined.

Lemma heartbeat_tick_keeps_live_ports_witness :
  ports (snd (heartbeat_tick (set_clock 30002 tab_1_broken))) =
  [(2%nat, Build_PortInfo 2 3)].
Proof.
  destruct (HeartbeatFacts.heartbeat_tick_keeps_live_ports (set_clock 30002 tab_1_broken)
              nodup_two_ports) as (_ & P & _).
  rewrite P. reflexivity.
Defined.

(** Tab 1 answers at 6: the check at 30006 keeps it. *)
Lemma pong_extends_deadline_witness :
  JsMap.get Nat.eqb 1%nat
    (ports (snd (checkHeartbeats
                   (set_clock 30006 (snd (port_onmessage 1%nat Pong two_tabs)))))) =
  Some (Build_PortInfo 1 6).
Proof.
  apply (HeartbeatFacts.pong_extends_deadline two_tabs 1%nat (Build_PortInfo 1 0) 30006).
  - exact nodup_two_ports.
  - reflexivity.
  - vm_compute. discriminate.
Defined.

Lemma removePort_twice_witness :
  removePort 1%nat (snd (removePort 1%nat two_tabs)) =
  (Normal tt, snd (removePort 1%nat two_tabs)).
Proof. apply RegistryMoreFacts.removePort_twice. exact nodup_two_ports. Defined.

Lemma disconnect_leaves_the_rest_witness :
  port_onmessage 1%nat Disconnect two_tabs =
  (Normal tt, set_ports [(2%nat, Build_PortInfo 2 3)] two_tabs).
Proof.
  apply (RegistryMoreFacts.disconnect_leaves_the_rest two_tabs 1%nat
           (Build_PortInfo 1 0) 2%nat).
  - reflexivity.
  - discriminate.
  - simpl. auto.
Defined.

Lemma one_tab_streaming_reachable : reachable one_tab_streaming.
Proof. eexists _, _. reflexivity. Defined.

Lemma one_timer_per_purpose_witness :
  (length (scheduled FlushBatch one_tab_streaming) <= 1)%nat.
Proof.
  apply ScheduleFacts.one_timer_per_purpose.
  - exact one_tab_streaming_reachable.
  - discriminate.
Defined.

Lemma racing_close_reachable : reachable racing_close.
Proof. eexists _, _. reflexivity. Defined.

(** After both tabs left, with a reconnect timer still scheduled. *)
Lemma no_heartbeat_without_subscribers_witness :
  heartbeatInterval racing_close = None /\
  forall x, In x (timers racing_close) -> callback x <> Heartbeat.
Proof.
  apply ScheduleFacts.no_heartbeat_without_subscribers.
  - exact racing_close_reachable.
  - reflexivity.
Defined.

Lemma two_tabs_reachable_again : reachable two_tabs.
Proof. eexists _, _. reflexivity. Defined.

Lemma two_tabs_accept : healthy two_tabs.
Proof. intros p _. reflexivity. Defined.

(** The socket of [two_tabs] closes at 7, the reconnect fires at 2007. *)
Lemma reconnect_reopens_upstream_witness :
  let w2 := step (step two_tabs (7, SocketClose 0%nat)) (2007, TimerFires 2%positive) in
  connections w2 = 2%nat /\ ws w2 = Some 1%nat /\
  socket_state 1%nat w2 = Some CONNECTING.
Proof.
  destruct (ReconnectFacts.reconnect_reopens_upstream two_tabs 7 2007 0%nat)
    as (_ & _ & A & B & C & _).
  - exact two_tabs_reachable_again.
  - exact two_tabs_accept.
  - discriminate.
  - cbv zeta. split; [exact A|]. split; [exact B | exact C].
Defined.

Lemma close_flushes_window_witness :
  outbox (step (run two_tabs [(20, SocketMessage 0%nat (MUpdate [aapl 101] 20));
                             (22, SocketMessage 0%nat (MUpdate [aapl 102] 22))])
            (25, SocketClose 0%nat)) =
  outbox two_tabs ++ [(1%nat, MDisconnected); (2%nat, MDisconnected);
                      (1%nat, MUpdate [aapl 102] 25); (2%nat, MUpdate [aapl 102] 25)].
Proof.
  destruct (UpstreamFacts.close_flushes_window two_tabs
              [(20, SocketMessage 0%nat (MUpdate [aapl 101] 20));
               (22, SocketMessage 0%nat (MUpdate [aapl 102] 22))] 25 0%nat)
    as (O & _).
  - exact two_tabs_reachable_again.
  - exact two_tabs_accept.
  - reflexivity.
  - reflexivity.
  - discriminate.
  - rewrite O. reflexivity.
Defined.

(** An [update] without rows at 20, its timer at 37, then two prices for
    AAPL: they wait. *)
Lemma rows_wait_after_empty_window_witness :
  let w3 := run (step (run two_tabs [(20, SocketMessage 0%nat (MUpdate [] 20))])
                   (37, TimerFires 2%positive))
              [(40, SocketMessage 0%nat (MUpdate [aapl 101] 40));
               (45, SocketMessage 0%nat (MUpdate [aapl 102] 45))] in
  outbox w3 = outbox two_tabs /\
  pendingUpdates w3 = [("AAPL"%string, aapl 102)] /\
  batchTimer w3 = Some 2%positive.
Proof.
  destruct (CoalescerMoreFacts.rows_wait_after_empty_window two_tabs
              [(20, SocketMessage 0%nat (MUpdate [] 20))] 37
              [(40, SocketMessage 0%nat (MUpdate [aapl 101] 40));
               (45, SocketMessage 0%nat (MUpdate [aapl 102] 45))])
    as (O & _ & P & B).
  - exact two_tabs_reachable_again.
  - reflexivity.
  - reflexivity.
  - discriminate.
  - reflexivity.
  - reflexivity.
  - cbv zeta. split; [exact O|]. split; [exact P | exact B].
Defined.


(** The earlier worker with tab 1 (throwing) and tab 2 attached. *)
Lemma earlier_broadcast_isolates_witness :
  let w := EarlierWorker.attach_all (initial [1%nat]) [(0, 1%nat); (3, 2%nat)] in
  outbox (snd (EarlierWorker.broadcast MConnected None w)) =
    outbox w ++ [(2%nat, MConnected)] /\
  ~ In 1%nat (JsMap.keys (ports (snd (EarlierWorker.broadcast MConnected None w)))).
Proof.
  intros w.
  destruct (FailureFacts.earlier_broadcast_isolates MConnected w nodup_two_ports)
    as (_ & O & P).
  split; [rewrite O; reflexivity|].
  intros I. apply P in I. destruct I as [_ T]. discriminate T.
Defined.

Lemma earlier_one_connection_witness :
  length (sockets (EarlierWorker.attach_all (initial [])
                     [(0, 1%nat); (3, 2%nat)])) = 1%nat.
Proof.
  apply FailureFacts.earlier_one_connection.
  - exact nodup_two_ports.
  - discriminate.
Defined.

(** A ping from a port the freshly loaded worker never saw. *)
Lemma earlier_ping_reattaches_witness :
  EarlierWorker.port_onmessage 5%nat Ping (set_clock 9 (initial [])) =
  (Normal tt,
   set_outbox [(5%nat, MPong)] (set_ports [(5%nat, 9)] (set_clock 9 (initial [])))).
Proof.
  apply (EarlierMoreFacts.earlier_ping_reattaches (set_clock 9 (initial [])) 5%nat).
  - simpl. tauto.
  - reflexivity.
Defined.

Lemma earlier_checkHeartbeats_evicts_stale_witness :
  let w := set_clock 5002
             (EarlierWorker.attach_all (initial []) [(0, 1%nat); (3, 2%nat)]) in
  ports (snd (EarlierWorker.checkHeartbeats w)) = [(2%nat, 3)].
Proof.
  intros w.
  destruct (EarlierMoreFacts.earlier_checkHeartbeats_evicts_stale w nodup_two_ports)
    as (_ & P & _).
  rewrite P. reflexivity.
Defined.

(** The same port attaching three times still gives one socket. *)
Lemma first_one_connection_witness :
  length (sockets (FirstWorker.attach_all (initial [2%nat])
                     [(0, 1%nat); (3, 2%nat); (4, 1%nat)])) = 1%nat.
Proof. apply FirstWorkerFacts.first_one_connection. discriminate. Defined.

(** *** The grid component *)

Lemma grid_ready_reachable : App.reachable App.grid_ready.
Proof. eexists. reflexivity. Defined.

Lemma frame_requests_match_flag_witness :
  let s := App.run App.loading App.two_updates in
  App.animationFrames s = 1%nat /\ App.frameScheduledRef s = true.
Proof.
  intros s.
  destruct (AppFacts.frame_requests_match_flag s) as [A Q].
  - eexists. reflexivity.
  - split; [exact A|]. apply Q. discriminate.
Defined.

(** Two messages, three rows, one transaction of two rows. *)
Lemma frame_applies_one_transaction_witness :
  App.transactions (App.step (App.run App.grid_ready App.two_updates)
                      (App.AnimationFrame (F := App.micros) (Some 350))) =
  [[MarketWorker.aapl 102; MarketWorker.msft 301]].
Proof.
  destruct (AppFacts.frame_applies_one_transaction App.grid_ready App.two_updates
              (Some 350)) as (T & _).
  - exact grid_ready_reachable.
  - reflexivity.
  - reflexivity.
  - discriminate.
  - rewrite T. reflexivity.
Defined.

(** The same two messages before the grid is mounted. *)
Lemma updates_wait_for_grid_witness :
  let s := App.run App.loading App.two_updates in
  let s' := App.step s (App.AnimationFrame (F := App.micros) (Some 10)) in
  App.pendingUpdatesRef s' = App.pendingUpdatesRef s /\
  App.transactions s' = [] /\ App.animationFrames s' = 1%nat.
Proof.
  intros s.
  destruct (AppFacts.updates_wait_for_grid s (Some 10)) as (P & T & _ & A).
  - eexists. reflexivity.
  - reflexivity.
  - discriminate.
  - cbv zeta. split; [exact P|]. split; [rewrite T; reflexivity | exact A].
Defined.
End MoreWitnesses.
